(** * sukuna-arcle: the chat relay of [app.py]

    A shallow embedding of the persistence store ([save_msg],
    [update_last_bot_message], [load_msgs]), of the upstream stream adapter
    ([stream_claude_sonnet]) and of the [/chat] route ([chat] and its inner
    generator [gen]), of the payload POSTed upstream and of the routes
    [/upload_file] and [/execute_code], followed by the properties of the
    specification that were checked against them.

    Conventions.
    - A Python [str] is a list of Unicode code points ([list N]); a Python
      [bytes] is a [list byte].  String literals of the source are written
      [lit "..."], which decodes the UTF-8 bytes of the Rocq literal.
    - The SQLite table [chats] is the list of its rows in rowid order; the
      clock reading of each INSERT is an argument.  Errors of SQLite itself
      are not modelled.
    - [threading.Lock] is a boolean.  The model follows one request at a
      time: a lock found held stays held, and [acquire] waits for ever.
    - What [requests] does behind a call (the POST raises, the status, the
      lines of the body, a read that fails) is an input of the model, and
      so are the identifiers [uuid.uuid4()] draws and what PIL makes of the
      bytes of a picture.  The adapter's output does not depend on the
      payload, which is modelled beside it ([payload]).
    - A streamed response is read to its end: [gen] runs up to its commit.
    - [json.loads], [bytes.decode], [re.sub] and [str.strip] are modelled as
      CPython's do, with the texts of the exceptions they raise.  The
      limits of the interpreter are not: [json.loads] is modelled below the
      recursion limit and the digit limit of [int].
    - The fields a request has are strings, its attachment data an object
      of strings, and a column of the table holds a [str]: JSON [null] and
      [NULL] are no inputs of the model.
    - [sqlite3] and the response encode a [str] as UTF-8 and raise on a lone
      surrogate.  The store and the stream are modelled for the texts that
      can be encoded ([encodable]). *)

From Stdlib Require Import List NArith ZArith String Ascii Strings.Byte Bool Lia Arith.
From Stdlib Require Import Sorting.Sorted Sorting.Permutation.
Import ListNotations.

Set Implicit Arguments.
Set Warnings "-register-all".

(* ================================================================== *)
(** * Python text *)
(* ================================================================== *)

Definition str := list N.
Definition bytes := list byte.

Fixpoint str_eqb (a b : str) : bool :=
  match a, b with
  | [], [] => true
  | x :: a', y :: b' => N.eqb x y && str_eqb a' b'
  | _, _ => false
  end.

(** [s.startswith(p)] and the slice [s[n:]]. *)
Fixpoint startswith (p s : str) : bool :=
  match p, s with
  | [], _ => true
  | x :: p', y :: s' => N.eqb x y && startswith p' s'
  | _ :: _, [] => false
  end.

Definition slice_from (n : nat) (s : str) : str := skipn n s.

(** ** [bytes.decode('utf-8')]

    The strict decoder of CPython: shortest forms only, no surrogates,
    nothing above U+10FFFF.  A failure records the span and the reason the
    [UnicodeDecodeError] reports. *)

Inductive utf8_reason := InvalidStart | InvalidContinuation | UnexpectedEnd.

Record decode_error := mkDecodeError {
  ue_start : nat;      (* first offending position *)
  ue_len : nat;        (* how many bytes the error spans *)
  ue_byte : N;         (* the byte at [ue_start] *)
  ue_reason : utf8_reason
}.

Definition is_cont (c : N) : bool := ((0x80 <=? c) && (c <=? 0xBF))%N.

Definition low6 (c : N) : N := N.land c 0x3F.

Definition cons_cp (c : N) (r : decode_error + str) : decode_error + str :=
  match r with
  | inl e => inl e
  | inr s => inr (c :: s)
  end.

Fixpoint utf8_decode_at (pos : nat) (b : list N) : decode_error + str :=
  match b with
  | [] => inr []
  | c0 :: t0 =>
    if (c0 <? 0x80)%N then cons_cp c0 (utf8_decode_at (1 + pos) t0)
    else if (c0 <? 0xC2)%N then inl (mkDecodeError pos 1 c0 InvalidStart)
    else if (c0 <? 0xE0)%N then
      match t0 with
      | [] => inl (mkDecodeError pos 1 c0 UnexpectedEnd)
      | c1 :: t1 =>
        if is_cont c1
        then cons_cp (N.shiftl (N.land c0 0x1F) 6 + low6 c1)%N
                     (utf8_decode_at (2 + pos) t1)
        else inl (mkDecodeError pos 1 c0 InvalidContinuation)
      end
    else if (c0 <? 0xF0)%N then
      match t0 with
      | [] => inl (mkDecodeError pos 1 c0 UnexpectedEnd)
      | c1 :: t1 =>
        if negb (is_cont c1)
           || (if (c1 <? 0xA0)%N then (c0 =? 0xE0)%N else (c0 =? 0xED)%N)
        then inl (mkDecodeError pos 1 c0 InvalidContinuation)
        else
          match t1 with
          | [] => inl (mkDecodeError pos 2 c0 UnexpectedEnd)
          | c2 :: t2 =>
            if is_cont c2
            then cons_cp (N.shiftl (N.land c0 0x0F) 12
                          + N.shiftl (low6 c1) 6 + low6 c2)%N
                         (utf8_decode_at (3 + pos) t2)
            else inl (mkDecodeError pos 2 c0 InvalidContinuation)
          end
      end
    else if (c0 <? 0xF5)%N then
      match t0 with
      | [] => inl (mkDecodeError pos 1 c0 UnexpectedEnd)
      | c1 :: t1 =>
        if negb (is_cont c1)
           || (if (c1 <? 0x90)%N then (c0 =? 0xF0)%N else (c0 =? 0xF4)%N)
        then inl (mkDecodeError pos 1 c0 InvalidContinuation)
        else
          match t1 with
          | [] => inl (mkDecodeError pos 2 c0 UnexpectedEnd)
          | c2 :: t2 =>
            if negb (is_cont c2)
            then inl (mkDecodeError pos 2 c0 InvalidContinuation)
            else
              match t2 with
              | [] => inl (mkDecodeError pos 3 c0 UnexpectedEnd)
              | c3 :: t3 =>
                if is_cont c3
                then cons_cp (N.shiftl (N.land c0 0x07) 18
                              + N.shiftl (low6 c1) 12
                              + N.shiftl (low6 c2) 6 + low6 c3)%N
                             (utf8_decode_at (4 + pos) t3)
                else inl (mkDecodeError pos 3 c0 InvalidContinuation)
              end
          end
      end
    else inl (mkDecodeError pos 1 c0 InvalidStart)
  end.

Definition utf8_decode (b : bytes) : decode_error + str :=
  utf8_decode_at 0 (map Byte.to_N b).

(** A literal of the source, as the [str] it denotes. *)
Definition lit (s : string) : str :=
  match utf8_decode (list_byte_of_string s) with
  | inr t => t
  | inl _ => []
  end.

(** Decimal and hexadecimal rendering, for the texts of exceptions.  The
    fuel is the number of binary digits, which is enough
    ([str_of_N_fuel]). *)
Definition digit_char (d : N) : N :=
  (if d <? 10 then 48 + d else 87 + d)%N.

Fixpoint render_base (base : N) (fuel : nat) (n : N) (acc : str) : str :=
  match fuel with
  | O => acc
  | S fuel' =>
    let acc' := digit_char (n mod base) :: acc in
    if (n / base =? 0)%N then acc' else render_base base fuel' (n / base) acc'
  end.

Definition str_of_N (n : N) : str := render_base 10 (S (N.to_nat (N.log2 n))) n [].
Definition str_of_nat (n : nat) : str := str_of_N (N.of_nat n).

(** [%02x] of a byte. *)
Definition hex2 (c : N) : str := [digit_char (c / 16); digit_char (c mod 16)]%N.

(* ================================================================== *)
(** * The table [chats] and the lock [db_lock] *)
(* ================================================================== *)

Record row := mkRow {
  id : N;               (* INTEGER PRIMARY KEY AUTOINCREMENT *)
  session_id : str;
  role : str;
  message : str;
  ts : N                (* CURRENT_TIMESTAMP at insertion, in seconds *)
}.

Record store := mkStore {
  chats : list row;     (* the rows, in rowid order *)
  seq : N;              (* the AUTOINCREMENT counter of the table *)
  db_lock : bool        (* True while some [with db_lock:] block runs *)
}.

Definition set_lock (b : bool) (st : store) : store :=
  mkStore (chats st) (seq st) b.

(** A call either returns (a value, the store it leaves) or waits for
    [db_lock] for ever. *)
Inductive outcome (A : Type) : Type :=
| Returns (a : A) (st : store)
| Blocks (st : store).
Arguments Blocks {A} st.

Definition bind {A B} (m : store -> outcome A) (k : A -> store -> outcome B)
  : store -> outcome B :=
  fun st =>
    match m st with
    | Returns a st' => k a st'
    | Blocks st' => Blocks st'
    end.

Definition ret {A} (a : A) : store -> outcome A := fun st => Returns a st.

Notation "x <- m ;; k" := (bind m (fun x => k))
  (at level 100, m at next level, right associativity).

(** [with db_lock: body].  [threading.Lock] is not reentrant: [acquire]
    waits as long as the lock is held, whoever holds it, the caller
    included.  The lock is released when the body returns. *)
Definition with_db_lock {A} (body : store -> outcome A) : store -> outcome A :=
  fun st =>
    if db_lock st then Blocks st
    else
      match body (set_lock true st) with
      | Returns a st' => Returns a (set_lock false st')
      | Blocks st' => Blocks st'
      end.

(** The rowid AUTOINCREMENT gives to the next row: one more than the
    largest rowid ever used. *)
Definition max_id (rows : list row) : N :=
  fold_right (fun r m => N.max (id r) m) 0%N rows.

Definition next_id (st : store) : N := N.succ (N.max (seq st) (max_id (chats st))).

(** [INSERT INTO chats(session_id, role, message) VALUES (?,?,?)] at clock
    reading [now]. *)
Definition insert_chat (now : N) (sid r msg : str) (st : store) : store :=
  mkStore (chats st ++ [mkRow (next_id st) sid r msg now])
          (next_id st) (db_lock st).

(** [UPDATE chats SET message=? WHERE id=?] *)
Definition update_message (msg : str) (i : N) (st : store) : store :=
  mkStore (map (fun r => if N.eqb (id r) i
                         then mkRow (id r) (session_id r) (role r) msg (ts r)
                         else r) (chats st))
          (seq st) (db_lock st).

(** [ORDER BY ts]: SQLite sorts the rows it scans (in rowid order) and
    leaves rows with equal keys in scan order. *)
Fixpoint insert_asc (r : row) (l : list row) : list row :=
  match l with
  | [] => [r]
  | x :: l' => if (ts r <=? ts x)%N then r :: l else x :: insert_asc r l'
  end.

Fixpoint order_by_ts_asc (l : list row) : list row :=
  match l with
  | [] => []
  | r :: l' => insert_asc r (order_by_ts_asc l')
  end.

Fixpoint insert_desc (r : row) (l : list row) : list row :=
  match l with
  | [] => [r]
  | x :: l' => if (ts x <=? ts r)%N then r :: l else x :: insert_desc r l'
  end.

Fixpoint order_by_ts_desc (l : list row) : list row :=
  match l with
  | [] => []
  | r :: l' => insert_desc r (order_by_ts_desc l')
  end.

Definition is_session (sid : str) (r : row) : bool := str_eqb (session_id r) sid.

Definition is_bot_of (sid : str) (r : row) : bool :=
  str_eqb (session_id r) sid && str_eqb (role r) (lit "bot").

(** [SELECT id, message FROM chats WHERE session_id=? AND role='bot'
     ORDER BY ts DESC LIMIT 1], then [fetchone()]. *)
Definition select_last_bot (sid : str) (st : store) : option row :=
  hd_error (order_by_ts_desc (filter (is_bot_of sid) (chats st))).

(** [SELECT role, message FROM chats WHERE session_id=? ORDER BY ts ASC],
    then [fetchall()]: the store's [load_ordered]. *)
Definition load_ordered (sid : str) (st : store) : list row :=
  order_by_ts_asc (filter (is_session sid) (chats st)).

(** [save_msg(sid, role, msg)], for texts [sqlite3] can bind: the INSERT
    raises on a text with a lone surrogate, which is no input here. *)
Definition save_msg (now : N) (sid r msg : str) : store -> outcome unit :=
  with_db_lock (fun st => Returns tt (insert_chat now sid r msg st)).

Definition update_last_bot_message (now : N) (sid new_content_chunk : str)
  : store -> outcome unit :=
  with_db_lock (fun st =>
    match select_last_bot sid st with
    | Some last_bot_msg =>
      let updated_message := message last_bot_msg ++ new_content_chunk in
      Returns tt (update_message updated_message (id last_bot_msg) st)
    | None => save_msg now sid (lit "bot") new_content_chunk st
    end).

(* ================================================================== *)
(** * The transcript loader: [load_msgs] *)
(* ================================================================== *)

(** [str.isspace] on one character: the characters [str.strip()] removes. *)
Definition isspace (c : N) : bool :=
  ((9 <=? c) && (c <=? 13) || (28 <=? c) && (c <=? 32)
   || (c =? 0x85) || (c =? 0xA0) || (c =? 0x1680)
   || (0x2000 <=? c) && (c <=? 0x200A)
   || (c =? 0x2028) || (c =? 0x2029) || (c =? 0x202F)
   || (c =? 0x205F) || (c =? 0x3000))%N.

Fixpoint lstrip (s : str) : str :=
  match s with
  | [] => []
  | c :: s' => if isspace c then lstrip s' else s
  end.

Definition rstrip (s : str) : str := rev (lstrip (rev s)).

Definition strip (s : str) : str := rstrip (lstrip s).

(** One pattern character of a regular expression compiled with
    [re.IGNORECASE] against one character of the subject.  The pattern
    character is a literal; a lower-case ASCII letter also matches its
    upper-case form and the non-ASCII letters that lower-case to it
    (U+0130 and U+0131 for i, U+212A for k, U+017F for s). *)
Definition is_lower_ascii (p : N) : bool := ((97 <=? p) && (p <=? 122))%N.

Definition char_matches_ci (p c : N) : bool :=
  ((c =? p)
   || is_lower_ascii p && (c =? p - 32)
   || (p =? 105) && ((c =? 0x130) || (c =? 0x131))
   || (p =? 107) && (c =? 0x212A)
   || (p =? 115) && (c =? 0x17F))%N.

(** The literal [p] matched at the head of [s]: what follows the match. *)
Fixpoint match_literal_ci (p s : str) : option str :=
  match p, s with
  | [], _ => Some s
  | x :: p', c :: s' =>
    if char_matches_ci x c then match_literal_ci p' s' else None
  | _ :: _, [] => None
  end.

Definition open_tag : str := lit "<think>".
Definition close_tag : str := lit "</think>".

(** [[\s\S]*?</think>] at the head of [s]: the lazy star gives up as few
    characters as it can, so the match ends with the first closing tag. *)
Fixpoint match_lazy_close (s : str) : option str :=
  match s with
  | [] => None
  | _ :: s' =>
    match match_literal_ci close_tag s with
    | Some rest => Some rest
    | None => match_lazy_close s'
    end
  end.

(** [<think>[\s\S]*?</think>] at the head of [s]. *)
Definition match_think (s : str) : option str :=
  match match_literal_ci open_tag s with
  | Some after_open => match_lazy_close after_open
  | None => None
  end.

(** [re.sub(r'<think>[\s\S]*?</think>', '', s, flags=re.IGNORECASE)]: the
    leftmost matches, left to right, none overlapping, each replaced by the
    empty string.  [fuel] bounds the number of steps of the scan; the
    length of the text is enough ([re_sub_think_scan_fuel]). *)
Fixpoint re_sub_think_scan (fuel : nat) (s : str) : str :=
  match fuel with
  | O => s
  | S fuel' =>
    match s with
    | [] => []
    | c :: s' =>
      match match_think s with
      | Some rest => re_sub_think_scan fuel' rest
      | None => c :: re_sub_think_scan fuel' s'
      end
    end
  end.

Definition re_sub_think (s : str) : str := re_sub_think_scan (List.length s) s.

(** An entry of the transcript: the dict [{'role': ..., 'content': ...}]. *)
Record turn := mkTurn {
  turn_role : str;
  content : str
}.

Definition truthy_str (s : str) : bool :=
  match s with [] => false | _ :: _ => true end.

(** [re.sub(r'<think>[\s\S]*?</think>', '', m, flags=re.IGNORECASE).strip()] *)
Definition clean_message (m : str) : str := strip (re_sub_think m).

(** ["assistant" if row['role'] == 'bot' else row['role']] *)
Definition transcript_role (r : str) : str :=
  if str_eqb r (lit "bot") then lit "assistant" else r.

(** The body of the [for row in cursor.fetchall()] loop. *)
Definition load_msgs_step (messages : list turn) (r : row) : list turn :=
  if truthy_str (clean_message (message r))
  then messages ++ [mkTurn (transcript_role (role r)) (clean_message (message r))]
  else messages.

(** The entry a row gives, and whether the loop keeps it. *)
Definition turn_of_row (r : row) : turn :=
  mkTurn (transcript_role (role r)) (clean_message (message r)).

Definition retained_row (r : row) : bool := truthy_str (clean_message (message r)).

(** [load_msgs] reads without taking [db_lock]. *)
Definition load_msgs (sid : str) : store -> outcome (list turn) :=
  fun st => Returns (fold_left load_msgs_step (load_ordered sid st) []) st.

(* ================================================================== *)
(** * [json.loads] *)
(* ================================================================== *)

(** The Python values [json.loads] builds.  A float is kept as the decimal
    it was written as, [m * 10^e]; an object is a dict, in insertion
    order. *)
Inductive json :=
| JNull
| JBool (b : bool)
| JInt (z : Z)
| JFloat (m e : Z)
| JNaN
| JInfinity (negative : bool)
| JStr (s : str)
| JList (items : list json)
| JDict (members : list (str * json)).

(** [d[k] = v] on a dict. *)
Fixpoint dict_set (k : str) (v : json) (d : list (str * json)) : list (str * json) :=
  match d with
  | [] => [(k, v)]
  | (k', v') :: d' =>
    if str_eqb k' k then (k', v) :: d' else (k', v') :: dict_set k v d'
  end.

(** [d.get(k, default)] on a dict. *)
Fixpoint dict_get (k : str) (default : json) (d : list (str * json)) : json :=
  match d with
  | [] => default
  | (k', v) :: d' => if str_eqb k' k then v else dict_get k default d'
  end.

Definition is_json_ws (c : N) : bool :=
  ((c =? 32) || (c =? 9) || (c =? 10) || (c =? 13))%N.

Fixpoint skip_ws (s : str) : str :=
  match s with
  | c :: s' => if is_json_ws c then skip_ws s' else s
  | [] => []
  end.

Definition is_digit (c : N) : bool := ((48 <=? c) && (c <=? 57))%N.

Definition hex_value (c : N) : option N :=
  (if (48 <=? c) && (c <=? 57) then Some (c - 48)
   else if (97 <=? c) && (c <=? 102) then Some (c - 87)
   else if (65 <=? c) && (c <=? 70) then Some (c - 55)
   else None)%N.

(** The value of four hexadecimal digits. *)
Definition hex4 (a b c d : N) : option N :=
  match hex_value a, hex_value b, hex_value c, hex_value d with
  | Some x, Some y, Some z, Some w => Some (x * 4096 + y * 256 + z * 16 + w)%N
  | _, _, _, _ => None
  end.

Definition is_high_surrogate (c : N) : bool := ((0xD800 <=? c) && (c <=? 0xDBFF))%N.
Definition is_low_surrogate (c : N) : bool := ((0xDC00 <=? c) && (c <=? 0xDFFF))%N.

(** The character an escape other than [\u] stands for. *)
Definition simple_escape (e : N) : option N :=
  (if e =? 34 then Some 34 else if e =? 92 then Some 92
   else if e =? 47 then Some 47 else if e =? 98 then Some 8
   else if e =? 102 then Some 12 else if e =? 110 then Some 10
   else if e =? 114 then Some 13 else if e =? 116 then Some 9
   else None)%N.

Definition cons_char (c : N) (r : option (str * str)) : option (str * str) :=
  match r with
  | Some (t, rest) => Some (c :: t, rest)
  | None => None
  end.

(** The characters of a string after its opening quote, up to the closing
    one (strict mode: no raw control character).  A high surrogate written
    [\uXXXX] and followed by a low one written the same way gives one
    character; any other surrogate stays as it is. *)
Fixpoint scanstring (s : str) : option (str * str) :=
  match s with
  | [] => None
  | c :: s1 =>
    if (c =? 34)%N then Some ([], s1)
    else if (c =? 92)%N then
      match s1 with
      | [] => None
      | e :: s2 =>
        if (e =? 117)%N then
          match s2 with
          | a :: b :: c' :: d :: s3 =>
            match hex4 a b c' d with
            | None => None
            | Some hi =>
              match s3 with
              | b1 :: b2 :: a' :: b' :: c'' :: d' :: s4 =>
                match hex4 a' b' c'' d' with
                | Some lo =>
                  if is_high_surrogate hi && (b1 =? 92)%N && (b2 =? 117)%N
                     && is_low_surrogate lo
                  then cons_char (0x10000 + (hi - 0xD800) * 0x400 + (lo - 0xDC00))%N
                                 (scanstring s4)
                  else cons_char hi (scanstring s3)
                | None => cons_char hi (scanstring s3)
                end
              | _ => cons_char hi (scanstring s3)
              end
            end
          | _ => None
          end
        else
          match simple_escape e with
          | Some ch => cons_char ch (scanstring s2)
          | None => None
          end
      end
    else if (c <? 32)%N then None
    else cons_char c (scanstring s1)
  end.

(** The digits at the head of [s], as a number and a count. *)
Fixpoint take_digits (s : str) (acc : Z) (n : Z) : Z * Z * str :=
  match s with
  | c :: s' =>
    if is_digit c then take_digits s' (acc * 10 + Z.of_N (c - 48)) (n + 1)
    else (acc, n, s)
  | [] => (acc, n, [])
  end.

(** The integer part [0|[1-9][0-9]*]. *)
Definition int_part (s : str) : option (Z * str) :=
  match s with
  | c :: s' =>
    if (c =? 48)%N then Some (0%Z, s')
    else if is_digit c
         then let '(v, _, rest) := take_digits s 0 0 in Some (v, rest)
         else None
  | [] => None
  end.

(** The fraction [\.[0-9]+], if there is one: the digits and their count. *)
Definition frac_part (s : str) : option (Z * Z * str) :=
  match s with
  | p :: ((c :: _) as s') =>
    if (p =? 46)%N && is_digit c then Some (take_digits s' 0 0) else None
  | _ => None
  end.

(** The exponent [[eE][-+]?[0-9]+], if there is one. *)
Definition exp_part (s : str) : option (Z * str) :=
  match s with
  | c :: ((d :: s'') as s') =>
    if ((c =? 101) || (c =? 69))%N then
      if is_digit d
      then let '(v, _, rest) := take_digits s' 0 0 in Some (v, rest)
      else if ((d =? 43) || (d =? 45))%N then
        match s'' with
        | d' :: _ =>
          if is_digit d'
          then let '(v, _, rest) := take_digits s'' 0 0 in
               Some ((if (d =? 45)%N then - v else v)%Z, rest)
          else None
        | [] => None
        end
      else None
    else None
  | _ => None
  end.

(** A number at the head of [s]: an [int] when it has neither fraction nor
    exponent, a [float] otherwise. *)
Definition scan_number (s : str) : option (json * str) :=
  let '(negative, s1) :=
    match s with
    | c :: s' => if (c =? 45)%N then (true, s') else (false, s)
    | [] => (false, s)
    end in
  let sign (v : Z) := if negative then (- v)%Z else v in
  match int_part s1 with
  | None => None
  | Some (i, s2) =>
    match frac_part s2 with
    | Some (f, n, s3) =>
      let m := (i * 10 ^ n + f)%Z in
      match exp_part s3 with
      | Some (x, s4) => Some (JFloat (sign m) (x - n), s4)
      | None => Some (JFloat (sign m) (- n), s3)
      end
    | None =>
      match exp_part s2 with
      | Some (x, s4) => Some (JFloat (sign i) x, s4)
      | None => Some (JInt (sign i), s2)
      end
    end
  end.

Definition after_literal (p : string) (s : str) : option str :=
  if startswith (lit p) s then Some (skipn (List.length (lit p)) s) else None.

(** A value that is neither a string, an array nor an object. *)
Definition scan_atom (s : str) : option (json * str) :=
  match after_literal "null" s, after_literal "true" s,
        after_literal "false" s, after_literal "NaN" s,
        after_literal "Infinity" s, after_literal "-Infinity" s with
  | Some rest, _, _, _, _, _ => Some (JNull, rest)
  | _, Some rest, _, _, _, _ => Some (JBool true, rest)
  | _, _, Some rest, _, _, _ => Some (JBool false, rest)
  | _, _, _, Some rest, _, _ => Some (JNaN, rest)
  | _, _, _, _, Some rest, _ => Some (JInfinity false, rest)
  | _, _, _, _, _, Some rest => Some (JInfinity true, rest)
  | _, _, _, _, _, _ => scan_number s
  end.

(** One step of the scanner: a value at the head of [s], the elements of an
    array after its bracket, the members of an object after its brace.
    [items], [members] and [once] scan what is nested. *)
Definition scan_once_step
  (items : str -> option (list json * str))
  (members : str -> list (str * json) -> option (list (str * json) * str))
  (s : str) : option (json * str) :=
  match s with
  | [] => None
  | c :: s' =>
    if (c =? 34)%N then
      match scanstring s' with
      | Some (t, rest) => Some (JStr t, rest)
      | None => None
      end
    else if (c =? 123)%N then
      match skip_ws s' with
      | [] => None
      | c' :: rest =>
        if (c' =? 125)%N then Some (JDict [], rest)
        else
          match members (c' :: rest) [] with
          | Some (d, rest') => Some (JDict d, rest')
          | None => None
          end
      end
    else if (c =? 91)%N then
      match skip_ws s' with
      | [] => None
      | c' :: rest =>
        if (c' =? 93)%N then Some (JList [], rest)
        else
          match items (c' :: rest) with
          | Some (l, rest') => Some (JList l, rest')
          | None => None
          end
      end
    else scan_atom s
  end.

Definition scan_items_step
  (once : str -> option (json * str))
  (items : str -> option (list json * str))
  (s : str) : option (list json * str) :=
  match once s with
  | None => None
  | Some (v, s1) =>
    match skip_ws s1 with
    | [] => None
    | c :: s2 =>
      if (c =? 93)%N then Some ([v], s2)
      else if (c =? 44)%N then
        match items (skip_ws s2) with
        | Some (l, rest) => Some (v :: l, rest)
        | None => None
        end
      else None
    end
  end.

Definition scan_members_step
  (once : str -> option (json * str))
  (members : str -> list (str * json) -> option (list (str * json) * str))
  (s : str) (d : list (str * json)) : option (list (str * json) * str) :=
  match s with
  | [] => None
  | q :: s0 =>
    if (q =? 34)%N then
      match scanstring s0 with
      | None => None
      | Some (k, s1) =>
        match skip_ws s1 with
        | [] => None
        | c :: s2 =>
          if (c =? 58)%N then
            match once (skip_ws s2) with
            | None => None
            | Some (v, s3) =>
              match skip_ws s3 with
              | [] => None
              | c' :: s4 =>
                if (c' =? 125)%N then Some (dict_set k v d, s4)
                else if (c' =? 44)%N then members (skip_ws s4) (dict_set k v d)
                else None
              end
            end
          else None
        end
      end
    else None
  end.

(** The scanner.  [fuel] bounds the nesting and the number of elements;
    twice the length of the text is enough ([json_loads_fuel_enough]). *)
Fixpoint scan_once (fuel : nat) (s : str) : option (json * str) :=
  match fuel with
  | O => None
  | S fuel' => scan_once_step (scan_items fuel') (scan_members fuel') s
  end

with scan_items (fuel : nat) (s : str) : option (list json * str) :=
  match fuel with
  | O => None
  | S fuel' => scan_items_step (scan_once fuel') (scan_items fuel') s
  end

with scan_members (fuel : nat) (s : str) (d : list (str * json))
  : option (list (str * json) * str) :=
  match fuel with
  | O => None
  | S fuel' => scan_members_step (scan_once fuel') (scan_members fuel') s d
  end.

(** [json.loads(s)]: [None] stands for [json.JSONDecodeError].  The text is
    taken within the limits of the interpreter (depth of nesting, digits
    of an integer), beyond which [json.loads] raises other exceptions. *)
Definition json_loads (s : str) : option json :=
  match s with
  | 0xFEFF%N :: _ => None
  | _ =>
    match scan_once (2 * List.length s + 2) (skip_ws s) with
    | Some (v, rest) =>
      match skip_ws rest with
      | [] => Some v
      | _ :: _ => None
      end
    | None => None
    end
  end.

(** Truth value of a Python object ([if delta:]).  A float is zero when its
    decimal is zero or rounds to zero, that is when it is at most
    [2^-1075] in magnitude. *)
Definition float_is_zero (m e : Z) : bool :=
  ((m =? 0) || (e <? 0) && (Z.abs m * 2 ^ 1075 <=? 10 ^ (- e)))%Z.

Definition truthy (v : json) : bool :=
  match v with
  | JNull => false
  | JBool b => b
  | JInt z => negb (z =? 0)%Z
  | JFloat m e => negb (float_is_zero m e)
  | JNaN => true
  | JInfinity _ => true
  | JStr s => truthy_str s
  | JList l => match l with [] => false | _ :: _ => true end
  | JDict d => match d with [] => false | _ :: _ => true end
  end.

(** [type(v).__name__] *)
Definition type_name (v : json) : str :=
  match v with
  | JNull => lit "NoneType"
  | JBool _ => lit "bool"
  | JInt _ => lit "int"
  | JFloat _ _ => lit "float"
  | JNaN => lit "float"
  | JInfinity _ => lit "float"
  | JStr _ => lit "str"
  | JList _ => lit "list"
  | JDict _ => lit "dict"
  end.

(* ================================================================== *)
(** * Exceptions and their texts *)
(* ================================================================== *)

(** The exceptions the modelled code can meet.  An exception raised inside
    [requests] (no connection, time-out, HTTP status, broken body) carries
    the text [str(e)] gives; the texts of the others are Python's. *)
Inductive exn :=
| UnicodeDecodeError (e : decode_error)   (* [line.decode('utf-8')] *)
| AttributeError (v : json)               (* [v.get] on a value that is no dict *)
| TypeError (v : json)                    (* [buffer += v] on a value that is no str *)
| KeyError (k : str)                      (* [d[k]] on a dict without [k] *)
| RequestsError (text : str).

Definition reason_text (r : utf8_reason) : str :=
  match r with
  | InvalidStart => lit "invalid start byte"
  | InvalidContinuation => lit "invalid continuation byte"
  | UnexpectedEnd => lit "unexpected end of data"
  end.

Definition quote_mark : str := [34%N].
Definition newline : str := [10%N].

(** [str(e)].  The key of a [KeyError] is shown by [repr], here for a key
    without quotes, backslashes or unprintable characters. *)
Definition exn_str (e : exn) : str :=
  match e with
  | UnicodeDecodeError d =>
    match ue_len d with
    | 1 => lit "'utf-8' codec can't decode byte 0x" ++ hex2 (ue_byte d)
           ++ lit " in position " ++ str_of_nat (ue_start d)
           ++ lit ": " ++ reason_text (ue_reason d)
    | n => lit "'utf-8' codec can't decode bytes in position "
           ++ str_of_nat (ue_start d) ++ lit "-"
           ++ str_of_nat (ue_start d + n - 1)
           ++ lit ": " ++ reason_text (ue_reason d)
    end
  | AttributeError v =>
    lit "'" ++ type_name v ++ lit "' object has no attribute 'get'"
  | TypeError v =>
    lit "can only concatenate str (not " ++ quote_mark ++ type_name v
    ++ quote_mark ++ lit ") to str"
  | KeyError k => lit "'" ++ k ++ lit "'"
  | RequestsError text => text
  end.

(* ================================================================== *)
(** * The upstream stream adapter: [stream_claude_sonnet] *)
(* ================================================================== *)

(** What [r.iter_lines()] does at one step: it hands over a line, or the
    read fails. *)
Inductive read_event :=
| Line (line : bytes)
| ReadRaises (text : str).

(** What [claude_session.post(...)] does: it raises, or it gives a response
    with a status code, the text [raise_for_status] would put in its
    [HTTPError], and a body. *)
Inductive post_result :=
| PostRaises (text : str)
| PostResponse (status_code : N) (http_error : str) (body : list read_event).

Definition api_error (e : exn) : str :=
  lit "🚨 Claude API Error: " ++ exn_str e.

(** One line of the body that is not empty: the values it makes the
    generator yield, or the exception that leaves the [for] loop. *)
Definition handle_line (line : bytes) : exn + list json :=
  match utf8_decode line with
  | inl d => inl (UnicodeDecodeError d)
  | inr decoded =>
    let decoded :=
      if startswith (lit "data: ") decoded then slice_from 6 decoded
      else decoded in
    if str_eqb decoded (lit "[DONE]") then inr []
    else
      match json_loads decoded with
      | None => inr []                    (* except json.JSONDecodeError: continue *)
      | Some (JDict data_json) =>
        match dict_get (lit "type") JNull data_json with
        | JStr t =>
          if str_eqb t (lit "text-delta") then
            let delta := dict_get (lit "delta") (JStr []) data_json in
            if truthy delta then inr [delta] else inr []
          else inr []
        | _ => inr []
        end
      | Some v => inl (AttributeError v)
      end
  end.

(** The [for line in r.iter_lines()] loop: the values yielded, and the
    exception that ended it, if one did. *)
Fixpoint iter_lines_loop (body : list read_event) : list json * option exn :=
  match body with
  | [] => ([], None)
  | ReadRaises text :: _ => ([], Some (RequestsError text))
  | Line line :: rest =>
    match line with
    | [] => iter_lines_loop rest          (* if line: *)
    | _ :: _ =>
      match handle_line line with
      | inl e => ([], Some e)
      | inr ys =>
        let '(more, e) := iter_lines_loop rest in (ys ++ more, e)
      end
    end
  end.

(** [raise_for_status()] raises for the 4xx and 5xx codes. *)
Definition is_error_status (status_code : N) : bool :=
  ((400 <=? status_code) && (status_code <? 600))%N.

(** The values the generator [stream_claude_sonnet(chat_history)] yields
    before it ends, given what the network does.  The payload is built from
    [chat_history] and does not change what is done with the answer. *)
Definition stream_claude_sonnet (upstream : post_result) (chat_history : list turn)
  : list json :=
  match upstream with
  | PostRaises text => [JStr (api_error (RequestsError text))]
  | PostResponse status_code http_error body =>
    if is_error_status status_code
    then [JStr (api_error (RequestsError http_error))]
    else
      match iter_lines_loop body with
      | (ys, None) => ys
      | (ys, Some e) => ys ++ [JStr (api_error e)]
      end
  end.

(* ================================================================== *)
(** * The route [/chat] *)
(* ================================================================== *)

(** The JSON body of a request, field by field; a field that is present has
    the type the interface gives it ([fileInfo] is an object with string
    values).  A field that is [null], or of another type, is no input
    here. *)
Record request := mkRequest {
  session : option str;
  model : option str;
  action : option str;
  text : option str;
  fileInfo : option (list (str * str))
}.

(** What surrounds one request: the answer of the network to its POST and
    the clock readings of its two inserts. *)
Record env := mkEnv {
  upstream : post_result;
  ts_user : N;
  ts_bot : N
}.

(** What the generator [gen] has done when it is exhausted. *)
Record gen_run := mkGenRun {
  fragments : list str;          (* the chunks sent to the client, in order *)
  posts : list (list turn);      (* the transcripts POSTed upstream *)
  committed : outcome unit       (* the store after the commit *)
}.

Inductive http_result :=
| Reply (status : N) (body : str) (st : store)      (* [Response(body, status=...)] *)
| Stream (run : gen_run)                            (* a streamed [text/plain] body *)
| NoReply (st : store).                             (* the handler waits for [db_lock] *)

Definition supported_model : str := lit "claude-sonnet-3.7".

Definition unsupported_model_msg (m : str) : str :=
  lit "🚫 The selected model '" ++ m ++ lit "' is not supported.".

Definition system_error_msg (e : exn) : str :=
  lit "🤖 **System Error**" ++ newline ++ newline
  ++ lit "Unexpected error: " ++ exn_str e.

Definition continue_prompt : turn :=
  mkTurn (lit "user")
    (lit "Please continue generating the response precisely from where you left off. If it is code, ensure it's a valid continuation and start with a comment indicating it's a continuation (e.g., '# Part 2', '// Continued...'). Do not add any introductory phrases or repeat previous content.").

(** The [for chunk_text in stream_claude_sonnet(chat_history)] loop of
    [gen], from the buffer and the chunks sent so far: [buffer += chunk_text]
    raises [TypeError] on a chunk that is no [str], which the handler
    [except Exception] of [gen] turns into one last chunk. *)
Fixpoint gen_loop (chunks : list json) (buffer : str) (sent : list str)
  : list str * str :=
  match chunks with
  | [] => (sent, buffer)
  | JStr chunk_text :: rest =>
    gen_loop rest (buffer ++ chunk_text) (sent ++ [chunk_text])
  | v :: _ =>
    let error_msg := system_error_msg (TypeError v) in
    (sent ++ [error_msg], error_msg)
  end.

(** The [try] block of [gen]: the chunks sent, the transcripts POSTed and
    the buffer it leaves.  [stream_claude_sonnet] raises nothing, so the
    handler for [RequestException] is never entered. *)
Definition gen_try (upstream : post_result) (model : str) (chat_history : list turn)
  : list str * list (list turn) * str :=
  if str_eqb model supported_model then
    let '(sent, buffer) :=
      gen_loop (stream_claude_sonnet upstream chat_history) [] [] in
    (sent, [chat_history], buffer)
  else
    let error_msg := unsupported_model_msg model in
    ([error_msg], [], error_msg).

(** The end of [gen]: the commit of the buffer. *)
Definition gen_commit (now : N) (action sid buffer : str) : store -> outcome unit :=
  if truthy_str buffer then
    if str_eqb action (lit "continue")
    then update_last_bot_message now sid buffer
    else save_msg now sid (lit "bot") buffer
  else fun st => Returns tt st.

(** The generator [gen], run to its end: every chunk is one the response
    can encode and the client reads. *)
Definition gen (e : env) (model action sid : str) (chat_history : list turn)
  (st : store) : gen_run :=
  let '(sent, posted, buffer) := gen_try (upstream e) model chat_history in
  mkGenRun sent posted (gen_commit (ts_bot e) action sid buffer st).

(** [d.get(k, default)] and [d[k]] on the body of the request. *)
Definition get_default (field : option str) (default : str) : str :=
  match field with
  | Some v => v
  | None => default
  end.

Definition subscript (field : option str) (k : string) : exn + str :=
  match field with
  | Some v => inr v
  | None => inl (KeyError (lit k))
  end.

Fixpoint file_info_get (k : str) (file_info : list (str * str)) : exn + str :=
  match file_info with
  | [] => inl (KeyError k)
  | (k', v) :: rest => if str_eqb k' k then inr v else file_info_get k rest
  end.

(** [f"[File: {file_info['name']}]\n{text}" if file_info else text] *)
Definition user_message_to_save (file_info : option (list (str * str))) (text : str)
  : exn + str :=
  match file_info with
  | Some ((_ :: _) as d) =>
    match file_info_get (lit "name") d with
    | inr name => inr (lit "[File: " ++ name ++ lit "]" ++ newline ++ text)
    | inl e => inl e
    end
  | _ => inr text
  end.

Definition server_error (e : exn) (st : store) : http_result :=
  Reply 500 (lit "Server error: " ++ exn_str e) st.

(** The handler of [POST /chat], with the streamed body read to its end. *)
Definition chat (e : env) (data : request) (st : store) : http_result :=
  match subscript (session data) "session" with
  | inl err => server_error err st
  | inr sid =>
    let model := get_default (model data) (lit "claude-sonnet-3.7") in
    let action := get_default (action data) (lit "chat") in
    if str_eqb action (lit "chat") then
      match subscript (text data) "text" with
      | inl err => server_error err st
      | inr text =>
        match user_message_to_save (fileInfo data) text with
        | inl err => server_error err st
        | inr msg =>
          match (_ <- save_msg (ts_user e) sid (lit "user") msg ;;
                 load_msgs sid) st with
          | Blocks st' => NoReply st'
          | Returns chat_history st' =>
            Stream (gen e model action sid chat_history st')
          end
        end
      end
    else if str_eqb action (lit "continue") then
      match load_msgs sid st with
      | Blocks st' => NoReply st'
      | Returns chat_history st' =>
        Stream (gen e model action sid (chat_history ++ [continue_prompt]) st')
      end
    else Reply 400 (lit "Invalid action.") st
  end.

(* ================================================================== *)
(** * The payload of the POST *)
(* ================================================================== *)

(** [str(uuid.uuid4())[:12]], from the identifier drawn. *)
Definition short_id (uuid : str) : str := firstn 12 uuid.

(** One entry of [api_messages]. *)
Definition api_message (uuid : str) (msg : turn) : json :=
  JDict [ (lit "parts",
           JList [JDict [(lit "type", JStr (lit "text"));
                         (lit "text", JStr (content msg))]]);
          (lit "id", JStr (short_id uuid));
          (lit "role", JStr (turn_role msg)) ].

(** The list comprehension over [chat_history]; [uuid4 k] is the [k]-th
    identifier drawn. *)
Fixpoint api_messages (uuid4 : nat -> str) (k : nat) (chat_history : list turn)
  : list json :=
  match chat_history with
  | [] => []
  | msg :: rest => api_message (uuid4 k) msg :: api_messages uuid4 (S k) rest
  end.

(** The dict [payload]; its own identifier is drawn after those of the
    messages. *)
Definition payload (uuid4 : nat -> str) (chat_history : list turn) : json :=
  JDict [ (lit "selectedModelId", JStr (lit "sonnet-3.7"));
          (lit "isReasoningEnabled", JBool true);
          (lit "id", JStr (short_id (uuid4 (List.length chat_history))));
          (lit "messages", JList (api_messages uuid4 0 chat_history));
          (lit "trigger", JStr (lit "submit-user-message")) ].

(* ================================================================== *)
(** * The route [/upload_file] *)
(* ================================================================== *)

(** The uploaded file: [file.filename], [file.mimetype], [file.read()]. *)
Record file_storage := mkFile {
  filename : str;
  mimetype : str;
  file_bytes : bytes
}.

(** What surrounds an upload: the identifier [uuid.uuid4()] draws, and what
    [Image.open(...).size] gives for some bytes, a size or the text of the
    exception raised. *)
Record upload_env := mkUploadEnv {
  upload_uuid : str;
  image_size : bytes -> str + (N * N)
}.

Definition ascii_lower (c : N) : N :=
  if ((65 <=? c) && (c <=? 90))%N then (c + 32)%N else c.

(** [s.endswith(suffix)] *)
Definition endswith (suffix s : str) : bool := startswith (rev suffix) (rev s).

(** [name.lower().endswith(suffix)] for a suffix made of a dot and
    lower-case ASCII letters: the only characters [str.lower] turns into
    one of these are the upper-case ASCII letters. *)
Definition lower_endswith (suffix : string) (name : str) : bool :=
  endswith (lit suffix) (map ascii_lower name).

Definition is_image_name (name : str) : bool :=
  lower_endswith ".png" name || lower_endswith ".jpg" name
  || lower_endswith ".jpeg" name.

Definition is_code_name (name : str) : bool :=
  lower_endswith ".py" name || lower_endswith ".js" name
  || lower_endswith ".txt" name.

(** The alphabet of [base64.b64encode]. *)
Definition b64_char (i : N) : N :=
  (if i <? 26 then 65 + i
   else if i <? 52 then 71 + i
   else if i <? 62 then i - 4
   else if i =? 62 then 43 else 47)%N.

(** [base64.b64encode(bs).decode('utf-8')], on the values of the bytes. *)
Fixpoint b64encode (bs : list N) : str :=
  match bs with
  | [] => []
  | [a] => [b64_char (a / 4); b64_char (a mod 4 * 16); 61; 61]%N
  | [a; b] =>
    [b64_char (a / 4); b64_char (a mod 4 * 16 + b / 16);
     b64_char (b mod 16 * 4); 61]%N
  | a :: b :: c :: rest =>
    (b64_char (a / 4) :: b64_char (a mod 4 * 16 + b / 16)
     :: b64_char (b mod 16 * 4 + c / 64) :: b64_char (c mod 64)
     :: b64encode rest)%N
  end.

Definition json_error (text : str) : json := JDict [(lit "error", JStr text)].

Definition json_of_length (A : Type) (l : list A) : json :=
  JInt (Z.of_nat (List.length l)).

(** The handler of [POST /upload_file]: the status and the JSON body.
    [file] is [request.files['file']], if the part is there. *)
Definition upload_file (ue : upload_env) (file : option file_storage) : N * json :=
  match file with
  | None => (400%N, json_error (lit "No file part"))
  | Some file =>
    if str_eqb (filename file) [] then (400%N, json_error (lit "No selected file"))
    else if is_image_name (filename file) then
      let image_bytes := file_bytes file in
      match image_size ue image_bytes with
      | inl text => (500%N, json_error (lit "Failed to process file: " ++ text))
      | inr (width, height) =>
        let encoded_string := b64encode (map Byte.to_N image_bytes) in
        let mime_type := mimetype file in
        let base64_uri := lit "data:" ++ mime_type ++ lit ";base64," ++ encoded_string in
        (200%N,
         JDict [ (lit "id", JStr (upload_uuid ue));
                 (lit "name", JStr (filename file));
                 (lit "size", json_of_length image_bytes);
                 (lit "width", JInt (Z.of_N width));
                 (lit "height", JInt (Z.of_N height));
                 (lit "fileType", JStr mime_type);
                 (lit "base64", JStr base64_uri);
                 (lit "type", JStr (lit "image")) ])
      end
    else if is_code_name (filename file) then
      match utf8_decode (file_bytes file) with
      | inl d =>
        (500%N, json_error (lit "Failed to process file: "
                            ++ exn_str (UnicodeDecodeError d)))
      | inr content =>
        (200%N,
         JDict [ (lit "id", JStr (upload_uuid ue));
                 (lit "name", JStr (filename file));
                 (lit "size", json_of_length content);
                 (lit "content", JStr content);
                 (lit "type", JStr (lit "code")) ])
      end
    else
      (400%N, json_error (lit "Unsupported file type. Use images (.png, .jpg, .jpeg) or code files (.py, .js, .txt)"))
  end.

(* ================================================================== *)
(** * The route [/execute_code] *)
(* ================================================================== *)

(** [v == s] for a literal [s]. *)
Definition equals_str (s : string) (v : json) : bool :=
  match v with
  | JStr t => str_eqb t (lit s)
  | _ => false
  end.

(** The handler of [POST /execute_code]: the status and the JSON body.
    [request_json] is what [request.json] gives: the value of the body, or
    the text of the exception it raises. *)
Definition execute_code (request_json : str + json) : N * json :=
  match request_json with
  | inl text => (500%N, json_error (lit "Execution error: " ++ text))
  | inr (JDict data) =>
    let code := dict_get (lit "code") JNull data in
    let language := dict_get (lit "language") (JStr (lit "python")) data in
    if negb (truthy code) then
      (400%N, json_error (lit "No code provided"))
    else if negb (equals_str "python" language) then
      (400%N, json_error (lit "Only Python execution is supported currently"))
    else
      (200%N, JDict [(lit "output", JStr (lit "Code execution is not fully implemented server-side. Use client-side Pyodide for now."))])
  | inr v =>
    (500%N, json_error (lit "Execution error: " ++ exn_str (AttributeError v)))
  end.

(* ================================================================== *)
(** * Definitions used to state the properties *)
(* ================================================================== *)

(** Orders on rows by [ts]. *)
Definition ts_le (a b : row) : Prop := (ts a <= ts b)%N.
Definition ts_ge (a b : row) : Prop := (ts b <= ts a)%N.

(** ** What the specification says of a thinking block

    Written after the words of the specification, to be compared with
    [re_sub_think] and [strip]. *)

(** [t] is the tag [tag], letter case apart. *)
Definition spec_is_tag (tag t : str) : Prop :=
  Forall2 (fun p c => char_matches_ci p c = true) tag t.

(** A thinking block: an opening tag, any content, and the closing tag
    that matches it, which is the first one after the opening tag. *)
Definition spec_thinking_block (b : str) : Prop :=
  exists o inner c,
    b = o ++ inner ++ c
    /\ spec_is_tag open_tag o /\ spec_is_tag close_tag c
    /\ forall pre t post,
         inner ++ c = pre ++ t ++ post -> spec_is_tag close_tag t -> post = [].

(** [out] is [s] with its thinking blocks removed, reading from the left. *)
Inductive spec_removes_blocks : str -> str -> Prop :=
| removes_nil : spec_removes_blocks [] []
| removes_block b rest out :
    spec_thinking_block b ->
    spec_removes_blocks rest out ->
    spec_removes_blocks (b ++ rest) out
| removes_keep c s out :
    (forall b rest, spec_thinking_block b -> c :: s <> b ++ rest) ->
    spec_removes_blocks s out ->
    spec_removes_blocks (c :: s) (c :: out).

Definition all_space (l : str) : Prop := Forall (fun c => isspace c = true) l.

(** [y] is [x] without the white space around it. *)
Definition spec_trimmed (x y : str) : Prop :=
  (exists l r, x = l ++ y ++ r /\ all_space l /\ all_space r)
  /\ (forall c y', y = c :: y' -> isspace c = false)
  /\ (forall c y', y = y' ++ [c] -> isspace c = false).

(** ** Sample data *)

(** A session with one user row and no bot row, the lock free. *)
Definition store_without_bot : store :=
  mkStore [mkRow 1 (lit "s") (lit "user") (lit "hello") 100] 1 false.

(** A session whose only row is a bot row, the lock free. *)
Definition store_with_bot : store :=
  mkStore [mkRow 1 (lit "s") (lit "bot") (lit "Hi") 100] 1 false.

(** A line of the upstream body, written with ['] for the double quote. *)
Definition json_line (s : string) : bytes :=
  map (fun b => if Byte.eqb b x27 then x22 else b) (list_byte_of_string s).

(** The three lines of the specification's example. *)
Definition hello_body : list read_event :=
  [ Line (json_line "data: {'type':'text-delta','delta':'Hel'}");
    Line (json_line "data: {'type':'text-delta','delta':'lo'}");
    Line (json_line "data: [DONE]") ].

(** A body whose first line is not UTF-8. *)
Definition undecodable_body : list read_event :=
  [ Line [xff];
    Line (json_line "data: {'type':'text-delta','delta':'Hi'}") ].

(** A body whose first line is JSON but no object. *)
Definition scalar_body : list read_event :=
  [ Line (json_line "data: 123");
    Line (json_line "data: {'type':'text-delta','delta':'Hi'}") ].

(** A body whose second delta is a number. *)
Definition number_delta_body : list read_event :=
  [ Line (json_line "data: {'type':'text-delta','delta':'Hel'}");
    Line (json_line "data: {'type':'text-delta','delta':5}") ].

(** A body that breaks off after its first delta. *)
Definition broken_body : list read_event :=
  [ Line (json_line "data: {'type':'text-delta','delta':'Hel'}");
    ReadRaises (lit "Connection broken") ].

(** The network is down; the clock reads 200 and 201. *)
Definition failing_env : env := mkEnv (PostRaises (lit "boom")) 200 201.

Definition continue_request : request :=
  mkRequest (Some (lit "s")) None (Some (lit "continue")) None None.

Definition continue_request_other_model : request :=
  mkRequest (Some (lit "s")) (Some (lit "gpt-4")) (Some (lit "continue")) None None.

Definition chat_request_without_text : request :=
  mkRequest (Some (lit "s")) None (Some (lit "chat")) None None.

(** ** The claims' words *)

Definition api_error_marker : str := lit "🚨 Claude API Error:".

(** The upstream fails with [err] before the adapter has yielded anything:
    the POST raises, the status is an error, or the loop over the lines
    ends on an exception with nothing yielded. *)
Definition fails_before_fragment (up : post_result) (err : exn) : Prop :=
  match up with
  | PostRaises text => err = RequestsError text
  | PostResponse status_code http_error body =>
    if is_error_status status_code then err = RequestsError http_error
    else iter_lines_loop body = ([], Some err)
  end.

(** After the commit, some bot row of the session has [frag] as its whole
    content. *)
Definition committed_as_bot_content (sid frag : str) (o : outcome unit) : Prop :=
  exists st', o = Returns tt st'
    /\ exists r, In r (chats st') /\ session_id r = sid
                 /\ role r = lit "bot" /\ message r = frag.

(** The commit has appended a bot row of the session with content [frag]
    to the rows of [st]. *)
Definition bot_row_appended (sid frag : str) (st : store) (o : outcome unit) : Prop :=
  exists st' r, o = Returns tt st' /\ chats st' = chats st ++ [r]
    /\ session_id r = sid /\ role r = lit "bot" /\ message r = frag.

(** ** Invariants and frames of the store *)

(** The columns of a row that no statement of the program writes after
    the INSERT. *)
Definition row_key (r : row) : N * str * str * N :=
  (id r, session_id r, role r, ts r).

(** The rowids grow along the table and none is above the AUTOINCREMENT
    counter. *)
Definition store_ok (st : store) : Prop :=
  StronglySorted (fun a b => (id a < id b)%N) (chats st)
  /\ Forall (fun r => (id r <= seq st)%N) (chats st).

(** What a row may have become: itself, or, for a bot row of the session
    [sid], itself with a longer message. *)
Definition row_kept (sid : str) (r r' : row) : Prop :=
  row_key r' = row_key r
  /\ (message r' = message r
      \/ (session_id r = sid /\ role r = lit "bot"
          /\ exists d, message r' = message r ++ d)).

(** [st'] is [st] after some work for the session [sid]: the rows of [st]
    are all there, in place; rows of the session may have been added after
    them. *)
Definition grows (sid : str) (st st' : store) : Prop :=
  exists kept added,
    chats st' = kept ++ added
    /\ Forall2 (row_kept sid) (chats st) kept
    /\ Forall (fun r => session_id r = sid) added.

(** The store a request leaves. *)
Definition store_of_outcome (A : Type) (o : outcome A) : store :=
  match o with
  | Returns _ st => st
  | Blocks st => st
  end.

Definition final_store (r : http_result) : store :=
  match r with
  | Reply _ _ st => st
  | Stream run => store_of_outcome (committed run)
  | NoReply st => st
  end.

(** What every operation on the store keeps: the invariant, the rows that
    were there, and the lock free again once it has returned. *)
Definition keeps_log (A : Type) (sid : str) (m : store -> outcome A) : Prop :=
  forall st,
    store_ok st ->
    store_ok (store_of_outcome (m st))
    /\ grows sid st (store_of_outcome (m st))
    /\ (db_lock st = false ->
        forall a st', m st = Returns a st' -> db_lock st' = false).

(** The transcript entries a message gives: one, or none when cleaning
    leaves nothing of it. *)
Definition turns_of_message (who msg : str) : list turn :=
  if truthy_str (clean_message msg)
  then [mkTurn (transcript_role who) (clean_message msg)]
  else [].

(** ** Writing a delta as JSON *)

(** A text of the source written with ['] for the double quote. *)
Definition quoted (s : string) : str :=
  map (fun c => if (c =? 39)%N then 34%N else c) (lit s).

(** A character inside a JSON string: the quote and the backslash are
    escaped, a control character is written [\u00XX], any other character
    stands for itself. *)
Definition json_escape_char (c : N) : str :=
  if (c =? 34)%N then [92; 34]%N
  else if (c =? 92)%N then [92; 92]%N
  else if (c <? 32)%N then [92; 117; 48; 48]%N ++ hex2 c
  else [c].

Definition json_escape (s : str) : str := flat_map json_escape_char s.

(** The record [{"type":"text-delta","delta":"..."}] that carries [d]. *)
Definition text_delta_record (d : str) : str :=
  quoted "{'type':'text-delta','delta':'" ++ json_escape d ++ quoted "'}".


(** [v.get(k)] on a value, [None] for a value that is no dict; used to read
    the fields of a payload or of a reply. *)
Definition json_get (k : string) (v : json) : json :=
  match v with
  | JDict d => dict_get (lit k) JNull d
  | _ => JNull
  end.

(** The role and the text an entry of [api_messages] carries. *)
Definition turn_of_api_message (m : json) : option turn :=
  match json_get "parts" m, json_get "role" m with
  | JList [part], JStr role =>
    match json_get "type" part, json_get "text" part with
    | JStr t, JStr text =>
      if str_eqb t (lit "text") then Some (mkTurn role text) else None
    | _, _ => None
    end
  | _, _ => None
  end.

(** UTF-8, the encoder: the bytes of one code point and of a text. *)
Definition utf8_encode_cp (c : N) : list N :=
  (if c <? 0x80 then [c]
   else if c <? 0x800 then [0xC0 + c / 64; 0x80 + c mod 64]
   else if c <? 0x10000 then
     [0xE0 + c / 4096; 0x80 + (c / 64) mod 64; 0x80 + c mod 64]
   else [0xF0 + c / 262144; 0x80 + (c / 4096) mod 64;
         0x80 + (c / 64) mod 64; 0x80 + c mod 64])%N.

Definition utf8_encode (s : str) : list N := flat_map utf8_encode_cp s.

(** A Unicode scalar value: a code point up to U+10FFFF that is no
    surrogate. *)
Definition is_scalar_value (c : N) : bool :=
  ((c <? 0xD800) || ((0xE000 <=? c) && (c <=? 0x10FFFF)))%N.

(** A text that UTF-8 can encode: scalar values only.  [sqlite3] encodes
    every [str] it binds to a statement, and the response encodes every
    chunk it sends; on a lone surrogate, which a JSON escape can bring in,
    either raises [UnicodeEncodeError].  The store and the stream are
    modelled for the texts that can be encoded, and the properties of whole
    requests say so. *)
Definition encodable (s : str) : bool := forallb is_scalar_value s.

Definition option_encodable (field : option str) : bool :=
  match field with
  | Some s => encodable s
  | None => true
  end.

(** The texts of a request can be encoded: the session, the model, the
    text and the values of the attachment data. *)
Definition request_encodable (data : request) : bool :=
  option_encodable (session data) && option_encodable (model data)
  && option_encodable (text data)
  && match fileInfo data with
     | Some d => forallb (fun kv => encodable (snd kv)) d
     | None => true
     end.

(** The event ends the loop over the lines with an exception: the read
    fails, or the line is one [handle_line] raises on. *)
Definition event_fails (ev : read_event) : bool :=
  match ev with
  | ReadRaises _ => true
  | Line [] => false
  | Line line =>
    match handle_line line with
    | inl _ => true
    | inr _ => false
    end
  end.

(** A chat request with an attachment that has a name. *)
Definition chat_request_with_file : request :=
  mkRequest (Some (lit "s")) None None (Some (lit "hello"))
            (Some [(lit "name", lit "a.py")]).

(** Base64, the decoder of RFC 4648 with padding. *)
Definition b64_index (c : N) : option N :=
  (if (65 <=? c) && (c <=? 90) then Some (c - 65)
   else if (97 <=? c) && (c <=? 122) then Some (c - 71)
   else if (48 <=? c) && (c <=? 57) then Some (c + 4)
   else if c =? 43 then Some 62
   else if c =? 47 then Some 63 else None)%N.

Fixpoint b64decode (s : str) : option (list N) :=
  match s with
  | [] => Some []
  | p :: q :: r :: t :: rest =>
    match b64_index p, b64_index q with
    | Some i, Some j =>
      if (t =? 61)%N then
        match rest with
        | [] =>
          if (r =? 61)%N then Some [i * 4 + j / 16]%N
          else
            match b64_index r with
            | Some k => Some [i * 4 + j / 16; j mod 16 * 16 + k / 4]%N
            | None => None
            end
        | _ :: _ => None
        end
      else
        match b64_index r, b64_index t, b64decode rest with
        | Some k, Some l, Some bs =>
          Some (i * 4 + j / 16 :: j mod 16 * 16 + k / 4 :: k mod 4 * 64 + l :: bs)%N
        | _, _, _ => None
        end
    | _, _ => None
    end
  | _ => None
  end.

(** The upload [f] under another name. *)
Definition renamed (name : str) (f : file_storage) : file_storage :=
  mkFile name (mimetype f) (file_bytes f).

(** Sample uploads: a script of two bytes, the letter e with an acute
    accent, and a picture of three bytes that opens as one pixel. *)
Definition sample_script : file_storage :=
  mkFile (lit "a.PY") (lit "text/x-python") [xc3; xa9].

Definition sample_picture : file_storage :=
  mkFile (lit "p.png") (lit "image/png") [x01; x02; x03].

Definition sample_upload_env : upload_env :=
  mkUploadEnv (lit "0b5c6f0e-1111-4222-8333-444455556666")
              (fun _ => inr (1%N, 1%N)).

(** Linear arithmetic with division and remainder by constants. *)
Ltac lia_div := zify; Z.to_euclidean_division_equations; lia.

(* ================================================================== *)
(** * Properties: text *)
(* ================================================================== *)

Lemma str_eqb_eq (a b : str) : str_eqb a b = true <-> a = b.
Proof.
  revert b; induction a as [|x a IH]; intros [|y b]; simpl; split;
    try congruence; try reflexivity.
  - intros H. apply andb_true_iff in H as [H1 H2].
    apply N.eqb_eq in H1. apply IH in H2. congruence.
  - intros H. injection H as -> ->. rewrite N.eqb_refl. simpl. now apply IH.
Qed.

Lemma str_eqb_refl (a : str) : str_eqb a a = true.
Proof. now apply str_eqb_eq. Qed.

Lemma str_eqb_neq (a b : str) : str_eqb a b = false <-> a <> b.
Proof.
  split.
  - intros H E. apply str_eqb_eq in E. congruence.
  - intros H. destruct (str_eqb a b) eqn:E; [|reflexivity].
    apply str_eqb_eq in E. contradiction.
Qed.

Lemma startswith_app (p s : str) : startswith p (p ++ s) = true.
Proof. induction p as [|x p IH]; simpl; [reflexivity|]. now rewrite N.eqb_refl. Qed.

Lemma startswith_spec (p s : str) :
  startswith p s = true <-> exists t, s = p ++ t.
Proof.
  split.
  - revert s; induction p as [|x p IH]; intros s H; simpl in *.
    + now exists s.
    + destruct s as [|y s]; [discriminate|].
      apply andb_true_iff in H as [H1 H2]. apply N.eqb_eq in H1. subst y.
      destruct (IH _ H2) as [t ->]. now exists t.
  - intros [t ->]. apply startswith_app.
Qed.

(* ================================================================== *)
(** * Properties: the store *)
(* ================================================================== *)

Section Store.

Implicit Types (st : store) (r : row) (sid : str).

Lemma insert_asc_perm r l : Permutation (r :: l) (insert_asc r l).
Proof.
  induction l as [|x l IH]; simpl; [reflexivity|].
  destruct (ts r <=? ts x)%N; [reflexivity|].
  rewrite perm_swap. now constructor.
Qed.

Lemma order_by_ts_asc_perm l : Permutation l (order_by_ts_asc l).
Proof.
  induction l as [|r l IH]; simpl; [constructor|].
  rewrite <- insert_asc_perm. now constructor.
Qed.

Lemma insert_asc_sorted r l :
  StronglySorted ts_le l -> StronglySorted ts_le (insert_asc r l).
Proof.
  induction 1 as [|x l Hl IH Hx]; simpl.
  - repeat constructor.
  - destruct (ts r <=? ts x)%N eqn:E.
    + apply N.leb_le in E. constructor; [now constructor|].
      constructor; [exact E|].
      eapply Forall_impl; [|exact Hx]. unfold ts_le. intros; lia.
    + apply N.leb_gt in E. constructor; [exact IH|].
      eapply Permutation_Forall; [apply insert_asc_perm|].
      constructor; [unfold ts_le; lia | exact Hx].
Qed.

Lemma order_by_ts_asc_sorted l : StronglySorted ts_le (order_by_ts_asc l).
Proof.
  induction l as [|r l IH]; simpl; [constructor|].
  now apply insert_asc_sorted.
Qed.

Lemma insert_desc_perm r l : Permutation (r :: l) (insert_desc r l).
Proof.
  induction l as [|x l IH]; simpl; [reflexivity|].
  destruct (ts x <=? ts r)%N; [reflexivity|].
  rewrite perm_swap. now constructor.
Qed.

Lemma order_by_ts_desc_perm l : Permutation l (order_by_ts_desc l).
Proof.
  induction l as [|r l IH]; simpl; [constructor|].
  rewrite <- insert_desc_perm. now constructor.
Qed.

Lemma insert_desc_sorted r l :
  StronglySorted ts_ge l -> StronglySorted ts_ge (insert_desc r l).
Proof.
  induction 1 as [|x l Hl IH Hx]; simpl.
  - repeat constructor.
  - destruct (ts x <=? ts r)%N eqn:E.
    + apply N.leb_le in E. constructor; [now constructor|].
      constructor; [exact E|].
      eapply Forall_impl; [|exact Hx]. unfold ts_ge. intros; lia.
    + apply N.leb_gt in E. constructor; [exact IH|].
      eapply Permutation_Forall; [apply insert_desc_perm|].
      constructor; [unfold ts_ge; lia | exact Hx].
Qed.

Lemma order_by_ts_desc_sorted l : StronglySorted ts_ge (order_by_ts_desc l).
Proof.
  induction l as [|r l IH]; simpl; [constructor|].
  now apply insert_desc_sorted.
Qed.

(** The row [fetchone()] gives is a bot row of the session, and no bot
    row of the session is more recent. *)
Lemma select_last_bot_Some sid st r :
  select_last_bot sid st = Some r ->
  In r (chats st) /\ session_id r = sid /\ role r = lit "bot"
  /\ forall x, In x (chats st) -> session_id x = sid -> role x = lit "bot" ->
               (ts x <= ts r)%N.
Proof.
  unfold select_last_bot. intros H.
  pose proof (order_by_ts_desc_perm (filter (is_bot_of sid) (chats st))) as P.
  pose proof (order_by_ts_desc_sorted (filter (is_bot_of sid) (chats st))) as S.
  destruct (order_by_ts_desc _) as [|y l] eqn:E; [discriminate|].
  injection H as ->.
  assert (Hin : In r (filter (is_bot_of sid) (chats st))).
  { eapply Permutation_in; [symmetry; exact P | now left]. }
  apply filter_In in Hin as [Hin Hb]. unfold is_bot_of in Hb.
  apply andb_true_iff in Hb as [Hs Hr].
  apply str_eqb_eq in Hs, Hr. repeat split; auto.
  intros x Hx Hxs Hxr.
  assert (Hx' : In x (r :: l)).
  { eapply Permutation_in; [exact P|]. apply filter_In. split; [exact Hx|].
    unfold is_bot_of. rewrite Hxs, Hxr, !str_eqb_refl. reflexivity. }
  destruct Hx' as [->|Hx']; [lia|].
  inversion S as [|? ? _ HF]; subst.
  rewrite Forall_forall in HF. now apply HF.
Qed.

(** [fetchone()] gives [None] exactly when the session has no bot row. *)
Lemma select_last_bot_None sid st :
  select_last_bot sid st = None <->
  forall x, In x (chats st) -> ~ (session_id x = sid /\ role x = lit "bot").
Proof.
  unfold select_last_bot.
  pose proof (order_by_ts_desc_perm (filter (is_bot_of sid) (chats st))) as P.
  split.
  - intros H x Hx [Hs Hr].
    destruct (order_by_ts_desc _) as [|y l]; [|discriminate].
    apply Permutation_sym, Permutation_nil in P.
    assert (Hin : In x (filter (is_bot_of sid) (chats st))).
    { apply filter_In. split; [exact Hx|]. unfold is_bot_of.
      rewrite Hs, Hr, !str_eqb_refl. reflexivity. }
    rewrite P in Hin. contradiction.
  - intros H. destruct (order_by_ts_desc _) as [|y l]; [reflexivity|].
    exfalso.
    assert (Hin : In y (filter (is_bot_of sid) (chats st))).
    { eapply Permutation_in; [symmetry; exact P | now left]. }
    apply filter_In in Hin as [Hin Hb]. unfold is_bot_of in Hb.
    apply andb_true_iff in Hb as [Hs Hr]. apply str_eqb_eq in Hs, Hr.
    now apply (H y Hin).
Qed.

(** [save_msg] with the lock free: one row more, at the end. *)
Lemma save_msg_appends now sid (who msg : str) st :
  db_lock st = false ->
  save_msg now sid who msg st
  = Returns tt (mkStore (chats st ++ [mkRow (next_id st) sid who msg now])
                        (next_id st) false).
Proof.
  intros H. unfold save_msg, with_db_lock. rewrite H. reflexivity.
Qed.

(** [save_msg] with the lock held: the call waits. *)
Lemma save_msg_blocks now sid (who msg : str) st :
  db_lock st = true -> save_msg now sid who msg st = Blocks st.
Proof.
  intros H. unfold save_msg, with_db_lock. now rewrite H.
Qed.

(** [update_last_bot_message] when the session has a bot row: the
    message of the row chosen is extended in place. *)
Lemma update_last_extends_in_place now sid d st r :
  db_lock st = false ->
  select_last_bot sid st = Some r ->
  update_last_bot_message now sid d st
  = Returns tt (update_message (message r ++ d) (id r) st).
Proof.
  intros HL H. unfold update_last_bot_message, with_db_lock. rewrite HL.
  assert (E : select_last_bot sid (set_lock true st) = select_last_bot sid st)
    by reflexivity.
  rewrite E, H. destruct st; simpl in *. subst. reflexivity.
Qed.

(** [update_last_bot_message] when the session has no bot row: the call
    to [save_msg] is made inside [with db_lock:], and waits for the lock
    its caller holds. *)
Lemma update_last_blocks_without_bot now sid d st :
  db_lock st = false ->
  select_last_bot sid st = None ->
  update_last_bot_message now sid d st = Blocks (set_lock true st).
Proof.
  intros HL H. unfold update_last_bot_message, with_db_lock. rewrite HL.
  assert (E : select_last_bot sid (set_lock true st) = select_last_bot sid st)
    by reflexivity.
  rewrite E, H. reflexivity.
Qed.

Lemma update_message_length msg i st :
  List.length (chats (update_message msg i st)) = List.length (chats st).
Proof. unfold update_message; simpl. apply length_map. Qed.


(** [load_msgs] writes nothing and takes no lock. *)
Lemma load_msgs_reads sid st :
  exists transcript, load_msgs sid st = Returns transcript st.
Proof. now eexists. Qed.

End Store.

(** C1 ([update_last]).  The half of the claim for a session without a bot
    message fails on the code: [update_last_bot_message] calls [save_msg]
    while it holds [db_lock], [save_msg] waits for that same lock, and the
    call never returns; no row is appended.  (The other half,
    [update_last_extends_in_place], holds.) *)
Theorem update_last_without_bot_message_never_returns :
  update_last_bot_message 101 (lit "s") (lit "d") store_without_bot
  = Blocks (set_lock true store_without_bot)
  /\ chats (set_lock true store_without_bot) = chats store_without_bot.
Proof. split; reflexivity. Qed.

(** C9 ([load_ordered]).  The rows the query of [load_msgs] fetches are
    exactly the rows of the session, each once, in non-decreasing order of
    [ts]; a read leaves the store as it was, so that a second read right
    after the first gives the same result. *)
Theorem load_ordered_sorted_complete_idempotent (sid : str) (st : store) :
  Permutation (filter (is_session sid) (chats st)) (load_ordered sid st)
  /\ (forall r, In r (load_ordered sid st) <-> In r (chats st) /\ session_id r = sid)
  /\ StronglySorted ts_le (load_ordered sid st)
  /\ exists transcript,
       (first <- load_msgs sid ;;
        second <- load_msgs sid ;;
        ret (first, second)) st
       = Returns (transcript, transcript) st.
Proof.
  split; [apply order_by_ts_asc_perm|].
  split.
  - intros r. unfold load_ordered. split.
    + intros H. eapply Permutation_in in H;
        [|symmetry; apply order_by_ts_asc_perm].
      apply filter_In in H as [H1 H2]. split; [exact H1|].
      now apply str_eqb_eq.
    + intros [H1 H2]. eapply Permutation_in; [apply order_by_ts_asc_perm|].
      apply filter_In. split; [exact H1|]. now apply str_eqb_eq.
  - split; [apply order_by_ts_asc_sorted|].
    eexists. reflexivity.
Qed.

(* ================================================================== *)
(** * Properties: the transcript loader *)
(* ================================================================== *)

Section Transcript.

Implicit Types (s t p : str).

Lemma spec_is_tag_length tag t : spec_is_tag tag t -> List.length t = List.length tag.
Proof. intros H. symmetry. exact (Forall2_length H). Qed.

Lemma match_literal_ci_spec p s rest :
  match_literal_ci p s = Some rest <-> exists t, spec_is_tag p t /\ s = t ++ rest.
Proof.
  revert s; induction p as [|x p IH]; intros s; simpl.
  - split.
    + intros [= ->]. exists []. split; [constructor | reflexivity].
    + intros (t & Ht & ->). inversion Ht. reflexivity.
  - destruct s as [|c s].
    + split; [discriminate|]. intros (t & Ht & E). inversion Ht; subst.
      discriminate.
    + destruct (char_matches_ci x c) eqn:Ec.
      * rewrite IH. split.
        -- intros (t & Ht & ->). exists (c :: t). split; [now constructor | reflexivity].
        -- intros (t & Ht & E). inversion Ht as [|? y ? t' Hy Ht']; subst.
           injection E as E1 E2. exists t'. now split.
      * split; [discriminate|]. intros (t & Ht & E).
        inversion Ht as [|? y ? t' Hy Ht']; subst.
        injection E as E1 E2. congruence.
Qed.

Lemma close_tag_length : List.length close_tag = 8.
Proof. reflexivity. Qed.

Lemma open_tag_length : List.length open_tag = 7.
Proof. reflexivity. Qed.

(** The lazy star stops at the first closing tag. *)
Lemma match_lazy_close_Some s rest :
  match_lazy_close s = Some rest ->
  exists inner c,
    s = inner ++ c ++ rest /\ spec_is_tag close_tag c
    /\ forall pre t post,
         s = pre ++ t ++ post -> spec_is_tag close_tag t ->
         List.length inner <= List.length pre.
Proof.
  revert rest; induction s as [|x s IH]; intros rest;
    cbn [match_lazy_close]; [discriminate|].
  destruct (match_literal_ci close_tag (x :: s)) as [rest0|] eqn:E.
  - intros [= ->]. apply match_literal_ci_spec in E as (c & Hc & E).
    exists [], c. split; [exact E|]. split; [exact Hc|]. intros; simpl; lia.
  - intros H. destruct (IH _ H) as (inner & c & E1 & Hc & Hmin).
    exists (x :: inner), c. split; [now rewrite E1|]. split; [exact Hc|].
    intros pre t post E2 Ht. destruct pre as [|y pre].
    + exfalso. assert (match_literal_ci close_tag (x :: s) = Some post).
      { apply match_literal_ci_spec. exists t. now split. }
      congruence.
    + injection E2 as -> E2. simpl. apply le_n_S. eapply Hmin; eauto.
Qed.

Lemma match_lazy_close_None s :
  match_lazy_close s = None ->
  forall pre t post, spec_is_tag close_tag t -> s <> pre ++ t ++ post.
Proof.
  induction s as [|x s IH]; cbn [match_lazy_close]; intros H pre t post Ht E.
  - apply spec_is_tag_length in Ht. rewrite close_tag_length in Ht.
    apply (f_equal (@List.length N)) in E. rewrite !length_app in E.
    simpl in E. lia.
  - destruct (match_literal_ci close_tag (x :: s)) as [rest0|] eqn:E0;
      [discriminate|].
    destruct pre as [|y pre].
    + assert (match_literal_ci close_tag (x :: s) = Some post).
      { apply match_literal_ci_spec. exists t. now split. }
      congruence.
    + injection E as -> E. exact (IH H pre t post Ht E).
Qed.

Lemma app_eq_length_inv (A : Type) (a b c d : list A) :
  a ++ b = c ++ d -> List.length a = List.length c -> a = c /\ b = d.
Proof.
  revert c; induction a as [|x a IH]; intros [|y c] E L; simpl in *;
    try discriminate; [now split|].
  injection E as -> E. injection L as L. destruct (IH _ E L) as [-> ->].
  now split.
Qed.

Lemma app_prefix (A : Type) (u v r1 r2 : list A) :
  u ++ r1 = v ++ r2 -> List.length u <= List.length v ->
  exists post, v = u ++ post.
Proof.
  revert v; induction u as [|x u IH]; intros [|y v] E L; simpl in *;
    try lia.
  - now exists [].
  - now exists (y :: v).
  - injection E as -> E. destruct (IH v E) as [post ->]; [lia|].
    now exists post.
Qed.

(** A match of the pattern is a thinking block at the head. *)
Lemma match_think_Some s rest :
  match_think s = Some rest ->
  exists b, s = b ++ rest /\ spec_thinking_block b.
Proof.
  unfold match_think.
  destruct (match_literal_ci open_tag s) as [after_open|] eqn:E; [|discriminate].
  intros H. apply match_literal_ci_spec in E as (o & Ho & ->).
  apply match_lazy_close_Some in H as (inner & c & -> & Hc & Hmin).
  exists (o ++ inner ++ c). split; [now rewrite <- !app_assoc|].
  exists o, inner, c. repeat split; auto.
  intros pre t post E Ht.
  assert (L : List.length inner <= List.length pre).
  { apply (Hmin pre t (post ++ rest)); [|exact Ht].
    rewrite (app_assoc inner c rest), E. now rewrite <- !app_assoc. }
  apply (f_equal (@List.length N)) in E. rewrite !length_app in E.
  apply spec_is_tag_length in Hc, Ht. destruct post; [reflexivity|].
  simpl in E. lia.
Qed.

(** Where the pattern does not match, no thinking block starts. *)
Lemma match_think_None s :
  match_think s = None ->
  forall b rest, spec_thinking_block b -> s <> b ++ rest.
Proof.
  unfold match_think. intros H b rest (o & inner & c & -> & Ho & Hc & _) E.
  destruct (match_literal_ci open_tag s) as [after_open|] eqn:E0.
  - apply match_literal_ci_spec in E0 as (o' & Ho' & E0).
    rewrite E0 in E. rewrite <- !app_assoc in E.
    apply app_eq_length_inv in E as [_ E].
    + eapply match_lazy_close_None; eauto.
    + apply spec_is_tag_length in Ho, Ho'. congruence.
  - assert (match_literal_ci open_tag s = Some (inner ++ c ++ rest)).
    { apply match_literal_ci_spec. exists o. split; [exact Ho|].
      now rewrite E, <- !app_assoc. }
    congruence.
Qed.

(** Two thinking blocks at the head of one text are the same block. *)
Lemma spec_thinking_block_unique b1 rest1 b2 rest2 :
  spec_thinking_block b1 -> spec_thinking_block b2 ->
  b1 ++ rest1 = b2 ++ rest2 -> b1 = b2 /\ rest1 = rest2.
Proof.
  assert (W : forall b1 rest1 b2 rest2,
    spec_thinking_block b1 -> spec_thinking_block b2 ->
    b1 ++ rest1 = b2 ++ rest2 -> List.length b1 <= List.length b2 ->
    b1 = b2 /\ rest1 = rest2).
  { clear. intros b1 rest1 b2 rest2 H1 H2 E L.
    destruct H1 as (o1 & i1 & c1 & -> & Ho1 & Hc1 & _).
    destruct H2 as (o2 & i2 & c2 & -> & Ho2 & Hc2 & F2).
    rewrite <- !app_assoc in E.
    apply app_eq_length_inv in E as [-> E];
      [|apply spec_is_tag_length in Ho1, Ho2; congruence].
    rewrite !length_app in L.
    rewrite !app_assoc in E.
    destruct (app_prefix _ _ _ _ E) as [post P];
      [rewrite !length_app; lia|].
    rewrite <- app_assoc in P.
    assert (post = []) by (eapply F2; eauto). subst post.
    rewrite app_nil_r in P. rewrite P in E.
    apply app_inv_head in E. subst rest2.
    split; [|reflexivity]. now rewrite P. }
  intros H1 H2 E.
  destruct (Nat.le_ge_cases (List.length b1) (List.length b2)) as [L|L].
  - now apply W.
  - symmetry in E. destruct (W _ _ _ _ H2 H1 E L) as [-> ->]. now split.
Qed.

Lemma match_think_shorter s rest :
  match_think s = Some rest -> List.length rest < List.length s.
Proof.
  intros H. apply match_think_Some in H as (b & -> & o & i & c & -> & Ho & _).
  apply spec_is_tag_length in Ho. rewrite open_tag_length in Ho.
  rewrite !length_app. lia.
Qed.

(** The scan needs no more steps than the text has characters. *)
Lemma re_sub_think_scan_fuel fuel1 : forall fuel2 s,
  List.length s <= fuel1 -> List.length s <= fuel2 ->
  re_sub_think_scan fuel1 s = re_sub_think_scan fuel2 s.
Proof.
  induction fuel1 as [|f1 IH]; intros [|f2] s L1 L2; simpl;
    destruct s as [|c s]; simpl in *; try reflexivity; try lia.
  destruct (match_think (c :: s)) as [rest|] eqn:E.
  - apply match_think_shorter in E. simpl in E. apply IH; lia.
  - f_equal. apply IH; lia.
Qed.

Lemma re_sub_think_nil : re_sub_think [] = [].
Proof. reflexivity. Qed.

Lemma re_sub_think_match s rest :
  match_think s = Some rest -> re_sub_think s = re_sub_think rest.
Proof.
  intros H. unfold re_sub_think. destruct s as [|c s]; [discriminate|].
  simpl List.length. simpl re_sub_think_scan. rewrite H.
  apply match_think_shorter in H. simpl in H.
  apply re_sub_think_scan_fuel; lia.
Qed.

Lemma re_sub_think_keep c s :
  match_think (c :: s) = None -> re_sub_think (c :: s) = c :: re_sub_think s.
Proof.
  intros H. unfold re_sub_think. simpl List.length.
  simpl re_sub_think_scan. now rewrite H.
Qed.

(** [re.sub] removes the thinking blocks, as the specification says. *)
Lemma re_sub_think_removes_blocks s : spec_removes_blocks s (re_sub_think s).
Proof.
  remember (List.length s) as n eqn:Hn. revert s Hn.
  induction n as [n IH] using lt_wf_ind. intros s ->.
  destruct s as [|c s]; [constructor|].
  destruct (match_think (c :: s)) as [rest|] eqn:E.
  - erewrite re_sub_think_match by exact E.
    pose proof E as L; apply match_think_shorter in L.
    apply match_think_Some in E as (b & E & Hb). rewrite E.
    apply removes_block; [exact Hb|]. eapply IH; [exact L | reflexivity].
  - rewrite re_sub_think_keep by exact E. apply removes_keep.
    + now apply match_think_None.
    + eapply IH; [|reflexivity]. simpl; lia.
Qed.

(** And nothing else does: the result is determined. *)
Lemma spec_removes_blocks_unique s out :
  spec_removes_blocks s out -> out = re_sub_think s.
Proof.
  induction 1 as [|b rest out Hb _ IH|c s out Hno _ IH].
  - reflexivity.
  - destruct (match_think (b ++ rest)) as [rest'|] eqn:E.
    + erewrite re_sub_think_match by exact E.
      apply match_think_Some in E as (b' & E & Hb').
      destruct (spec_thinking_block_unique _ _ Hb Hb' E) as [_ ->].
      exact IH.
    + exfalso. eapply match_think_None; eauto.
  - destruct (match_think (c :: s)) as [rest'|] eqn:E.
    + exfalso. apply match_think_Some in E as (b' & E & Hb').
      eapply Hno; eauto.
    + rewrite re_sub_think_keep by exact E. now rewrite IH.
Qed.

End Transcript.

Section Strip.

Implicit Types (s : str).

Lemma lstrip_spec s :
  exists l, s = l ++ lstrip s /\ all_space l
            /\ forall c y, lstrip s = c :: y -> isspace c = false.
Proof.
  induction s as [|c s (l & E & Hl & Hh)]; simpl.
  - exists []. repeat split; [constructor | discriminate].
  - destruct (isspace c) eqn:Ec.
    + exists (c :: l). repeat split; [simpl; congruence | now constructor | exact Hh].
    + exists []. repeat split; [constructor|]. now intros ? ? [= <- _].
Qed.

Lemma rstrip_spec s :
  exists r, s = rstrip s ++ r /\ all_space r
            /\ forall c y, rstrip s = y ++ [c] -> isspace c = false.
Proof.
  unfold rstrip. destruct (lstrip_spec (rev s)) as (l & E & Hl & Hh).
  exists (rev l). repeat split.
  - rewrite <- rev_app_distr, <- E. now rewrite rev_involutive.
  - now apply Forall_rev.
  - intros c y Hy. apply (Hh c (rev y)).
    rewrite <- (rev_involutive (lstrip (rev s))), Hy, rev_app_distr.
    reflexivity.
Qed.

(** [str.strip()] trims, as the specification says. *)
Lemma strip_trims s : spec_trimmed s (strip s).
Proof.
  unfold strip. destruct (lstrip_spec s) as (l & El & Hl & Hh).
  destruct (rstrip_spec (lstrip s)) as (r & Er & Hr & Ht).
  repeat split.
  - exists l, r. repeat split; auto. now rewrite <- Er.
  - intros c y Hy. apply (Hh c (y ++ r)). rewrite Er at 1. now rewrite Hy.
  - exact Ht.
Qed.

Lemma truthy_str_true s : truthy_str s = true <-> s <> [].
Proof. destruct s; simpl; split; congruence. Qed.

Lemma lstrip_all_space s : all_space s -> lstrip s = [].
Proof. induction 1 as [|c s Hc _ IH]; simpl; [reflexivity|]. now rewrite Hc. Qed.

End Strip.

Lemma load_msgs_fold (rows : list row) (messages : list turn) :
  fold_left load_msgs_step rows messages
  = messages ++ map turn_of_row (filter retained_row rows).
Proof.
  revert messages; induction rows as [|r rows IH]; intros messages; simpl.
  - now rewrite app_nil_r.
  - rewrite IH. unfold load_msgs_step, retained_row at 2.
    destruct (truthy_str (clean_message (message r))); [|reflexivity].
    now rewrite <- app_assoc.
Qed.

Lemma load_msgs_transcript (sid : str) (st : store) :
  load_msgs sid st
  = Returns (map turn_of_row (filter retained_row (load_ordered sid st))) st.
Proof. unfold load_msgs. now rewrite load_msgs_fold. Qed.

(** C7 (thinking blocks).  The content of a transcript entry is the content
    of its row with every thinking block removed (tags in any letter case,
    content with or without line breaks, up to the first closing tag) and
    the white space around the rest trimmed; the rows left empty by this
    are the rows excluded, and the others keep their order. *)
Theorem load_msgs_strips_thinking_blocks (sid : str) (st : store) :
  load_msgs sid st
  = Returns (map turn_of_row (filter retained_row (load_ordered sid st))) st
  /\ (forall r, content (turn_of_row r) = clean_message (message r))
  /\ (forall r, retained_row r = false <-> clean_message (message r) = [])
  /\ (forall m, exists stripped,
        spec_removes_blocks m stripped
        /\ (forall out, spec_removes_blocks m out -> out = stripped)
        /\ spec_trimmed stripped (clean_message m))
  /\ clean_message (lit "<think>secret</think>visible") = lit "visible"
  /\ clean_message (lit "<THINK>a" ++ newline ++ lit "b</Think> kept ") = lit "kept"
  /\ (forall b, spec_thinking_block b -> clean_message b = []).
Proof.
  split; [apply load_msgs_transcript|].
  split; [reflexivity|].
  split.
  { intros r. unfold retained_row.
    destruct (clean_message (message r)); simpl; split; congruence. }
  split.
  { intros m. exists (re_sub_think m). split; [apply re_sub_think_removes_blocks|].
    split; [apply spec_removes_blocks_unique | apply strip_trims]. }
  split; [reflexivity|]. split; [reflexivity|].
  intros b Hb. unfold clean_message.
  assert (E : re_sub_think b = []).
  { symmetry. apply spec_removes_blocks_unique.
    rewrite <- (app_nil_r b). apply removes_block; [exact Hb | constructor]. }
  now rewrite E.
Qed.

(** C8 (roles).  Each entry of the transcript carries the role of its row,
    except that the role "bot" becomes "assistant"; "user" is unchanged. *)
Theorem load_msgs_remaps_bot_to_assistant (sid : str) (st : store) :
  exists transcript,
    load_msgs sid st = Returns transcript st
    /\ Forall2 (fun r t =>
                  (role r = lit "bot" -> turn_role t = lit "assistant")
                  /\ (role r <> lit "bot" -> turn_role t = role r))
               (filter retained_row (load_ordered sid st)) transcript
    /\ transcript_role (lit "user") = lit "user".
Proof.
  eexists. split; [apply load_msgs_transcript|]. split; [|reflexivity].
  induction (filter retained_row (load_ordered sid st)) as [|r l IH]; simpl;
    constructor; [|exact IH].
  unfold turn_of_row, transcript_role; simpl. split.
  - intros ->. reflexivity.
  - intros H. apply str_eqb_neq in H. now rewrite H.
Qed.

(* ================================================================== *)
(** * Properties: the upstream stream adapter *)
(* ================================================================== *)

Lemma api_error_has_marker (e : exn) : startswith api_error_marker (api_error e) = true.
Proof.
  unfold api_error.
  change (lit "🚨 Claude API Error: ") with (api_error_marker ++ [32%N]).
  rewrite <- app_assoc. apply startswith_app.
Qed.

Lemma api_error_not_empty (e : exn) : truthy_str (api_error e) = true.
Proof. reflexivity. Qed.

(** Lines that raise nothing contribute their values in the order of
    arrival, and the loop ends without an exception. *)
Lemma iter_lines_loop_clean (lines : list bytes) :
  Forall (fun line => line = [] \/ exists ys, handle_line line = inr ys) lines ->
  iter_lines_loop (map Line lines)
  = (flat_map (fun line => match line, handle_line line with
                           | _ :: _, inr ys => ys
                           | _, _ => []
                           end) lines, None).
Proof.
  induction 1 as [|line lines H _ IH]; simpl; [reflexivity|].
  destruct line as [|b line]; [exact IH|].
  destruct H as [H|[ys H]]; [discriminate|].
  rewrite H, IH. reflexivity.
Qed.

(** The example of the specification: ["Hel"] then ["lo"]. *)
Lemma stream_hello (chat_history : list turn) :
  stream_claude_sonnet (PostResponse 200 [] hello_body) chat_history
  = [JStr (lit "Hel"); JStr (lit "lo")]
  /\ lit "Hel" ++ lit "lo" = lit "Hello".
Proof. split; vm_compute; reflexivity. Qed.

(** C3 (the delta protocol).  The claim fails on the code for a line that
    does not decode: [line.decode('utf-8')] stands outside the [try] whose
    handler names [UnicodeDecodeError], so the exception reaches the outer
    handler, which ends the stream on an error fragment; the line is not
    skipped and the deltas after it are lost.  A line that is JSON but no
    object ends the stream the same way. *)
Theorem undecodable_line_ends_the_stream :
  stream_claude_sonnet (PostResponse 200 [] undecodable_body) []
  = [JStr (lit "🚨 Claude API Error: 'utf-8' codec can't decode byte 0xff in position 0: invalid start byte")]
  /\ stream_claude_sonnet (PostResponse 200 [] (tl undecodable_body)) []
     = [JStr (lit "Hi")]
  /\ stream_claude_sonnet (PostResponse 200 [] scalar_body) []
     = [JStr (lit "🚨 Claude API Error: 'int' object has no attribute 'get'")].
Proof. repeat split; vm_compute; reflexivity. Qed.

(* ================================================================== *)
(** * Properties: the route [/chat] *)
(* ================================================================== *)

Section Orchestrator.

Implicit Types (e : env) (st : store) (sid buffer : str).

Lemma gen_commit_empty now (act : str) sid st :
  gen_commit now act sid [] st = Returns tt st.
Proof. reflexivity. Qed.

Lemma gen_commit_continue now sid buffer :
  buffer <> [] ->
  gen_commit now (lit "continue") sid buffer = update_last_bot_message now sid buffer.
Proof.
  intros H. unfold gen_commit. apply truthy_str_true in H. rewrite H.
  now rewrite str_eqb_refl.
Qed.

Lemma gen_commit_otherwise now (act : str) sid buffer :
  buffer <> [] -> act <> lit "continue" ->
  gen_commit now act sid buffer = save_msg now sid (lit "bot") buffer.
Proof.
  intros H Ha. unfold gen_commit. apply truthy_str_true in H. rewrite H.
  apply str_eqb_neq in Ha. now rewrite Ha.
Qed.

Lemma gen_supported e (act : str) sid (chat_history : list turn) st :
  gen e supported_model act sid chat_history st
  = mkGenRun
      (fst (gen_loop (stream_claude_sonnet (upstream e) chat_history) [] []))
      [chat_history]
      (gen_commit (ts_bot e) act sid
         (snd (gen_loop (stream_claude_sonnet (upstream e) chat_history) [] [])) st).
Proof.
  unfold gen, gen_try. rewrite str_eqb_refl.
  now destruct (gen_loop _ _ _).
Qed.

Lemma gen_unsupported e (m act : str) sid (chat_history : list turn) st :
  m <> supported_model ->
  gen e m act sid chat_history st
  = mkGenRun [unsupported_model_msg m] []
      (gen_commit (ts_bot e) act sid (unsupported_model_msg m) st).
Proof.
  intros H. unfold gen, gen_try. apply str_eqb_neq in H. now rewrite H.
Qed.

Lemma unsupported_model_msg_not_empty (m : str) : unsupported_model_msg m <> [].
Proof. discriminate. Qed.

(** The loop of [gen] over chunks that are all [str]: every chunk is sent
    and the buffer is what was sent, joined. *)
Lemma gen_loop_strs (chunks : list str) : forall buffer (sent : list str),
  gen_loop (map JStr chunks) buffer sent = (sent ++ chunks, buffer ++ List.concat chunks).
Proof.
  induction chunks as [|c chunks IH]; intros buffer sent; simpl.
  - now rewrite !app_nil_r.
  - rewrite IH. now rewrite <- !app_assoc.
Qed.

(** What [gen] leaves in its buffer: what it sent, joined, unless a chunk
    that was no [str] made it keep the error message alone. *)
Lemma gen_loop_buffer (chunks : list json) : forall buffer (sent : list str),
  buffer = List.concat sent ->
  snd (gen_loop chunks buffer sent) = List.concat (fst (gen_loop chunks buffer sent))
  \/ exists v, snd (gen_loop chunks buffer sent) = system_error_msg (TypeError v).
Proof.
  induction chunks as [|c chunks IH]; intros buffer sent H; simpl.
  - now left.
  - destruct c; try (right; eexists; reflexivity).
    apply IH. rewrite concat_app. simpl. now rewrite app_nil_r, H.
Qed.

Lemma gen_try_buffer (up : post_result) (m : str) (chat_history : list turn) :
  snd (gen_try up m chat_history) = List.concat (fst (fst (gen_try up m chat_history)))
  \/ exists v, snd (gen_try up m chat_history) = system_error_msg (TypeError v).
Proof.
  unfold gen_try. destruct (str_eqb m supported_model).
  - pose proof (@gen_loop_buffer (stream_claude_sonnet up chat_history)
                  [] [] eq_refl) as H.
    now destruct (gen_loop _ _ _).
  - left. cbn [fst snd List.concat]. now rewrite app_nil_r.
Qed.

(** Every streamed reply is a run of [gen] for one of the two actions. *)
Lemma chat_streams_through_gen e (data : request) st (run : gen_run) :
  chat e data st = Stream run ->
  exists sid act chat_history st1,
    session data = Some sid
    /\ act = get_default (action data) (lit "chat")
    /\ (act = lit "chat" \/ act = lit "continue")
    /\ run = gen e (get_default (model data) (lit "claude-sonnet-3.7"))
                 act sid chat_history st1.
Proof.
  unfold chat, subscript, server_error.
  destruct (session data) as [sid|]; [|discriminate].
  destruct (str_eqb (get_default (action data) (lit "chat")) (lit "chat")) eqn:Ea.
  - apply str_eqb_eq in Ea.
    destruct (text data) as [t|]; [|discriminate].
    destruct (user_message_to_save (fileInfo data) t) as [err|msg]; [discriminate|].
    destruct (bind _ _ st) as [hist st1|st1]; [|discriminate].
    intros [= <-]. exists sid, (lit "chat"), hist, st1. rewrite Ea. auto.
  - destruct (str_eqb (get_default (action data) (lit "chat")) (lit "continue")) eqn:Ec;
      [|discriminate].
    apply str_eqb_eq in Ec.
    destruct (load_msgs sid st) as [hist st1|st1]; [|discriminate].
    intros [= <-]. exists sid, (lit "continue"), (hist ++ [continue_prompt]), st1.
    rewrite Ec. auto.
Qed.

End Orchestrator.

Lemma save_msg_inserts (now : N) (sid who msg : str) (st : store) :
  db_lock st = false ->
  save_msg now sid who msg st = Returns tt (insert_chat now sid who msg st).
Proof.
  intros H. rewrite save_msg_appends by exact H.
  unfold insert_chat. now rewrite H.
Qed.

(** C4 (upstream failure), as amended.  When the upstream fails before any
    fragment, the adapter yields one fragment, which starts with the error
    marker, and ends; it raises nothing, being a list of fragments
    whatever the network does.  [gen] sends that fragment and commits it:
    as the content of a new bot row, or, for the action "continue", at the
    end of the content of the most recent bot row of the session. *)
Theorem upstream_failure_yields_one_error_fragment
  (e : env) (err : exn) (act sid : str) (chat_history : list turn) (st : store) :
  fails_before_fragment (upstream e) err ->
  db_lock st = false ->
  stream_claude_sonnet (upstream e) chat_history = [JStr (api_error err)]
  /\ startswith api_error_marker (api_error err) = true
  /\ fragments (gen e supported_model act sid chat_history st) = [api_error err]
  /\ (act <> lit "continue" ->
      committed (gen e supported_model act sid chat_history st)
      = Returns tt (insert_chat (ts_bot e) sid (lit "bot") (api_error err) st)
      /\ bot_row_appended sid (api_error err) st
           (committed (gen e supported_model act sid chat_history st)))
  /\ (act = lit "continue" ->
      forall r, select_last_bot sid st = Some r ->
      committed (gen e supported_model act sid chat_history st)
      = Returns tt (update_message (message r ++ api_error err) (id r) st)).
Proof.
  intros Hf HL.
  assert (Hs : stream_claude_sonnet (upstream e) chat_history = [JStr (api_error err)]).
  { unfold stream_claude_sonnet, fails_before_fragment in *.
    destruct (upstream e) as [text|status_code http_error body].
    - now subst err.
    - destruct (is_error_status status_code).
      + now subst err.
      + now rewrite Hf. }
  split; [exact Hs|]. split; [apply api_error_has_marker|].
  rewrite gen_supported, Hs. cbn [gen_loop fst snd fragments committed app].
  split; [reflexivity|]. split.
  - intros Ha. rewrite gen_commit_otherwise by (discriminate || exact Ha).
    rewrite save_msg_inserts by exact HL. split; [reflexivity|].
    eexists _, _. split; [reflexivity|]. simpl. auto.
  - intros -> r Hr. rewrite gen_commit_continue by discriminate.
    now apply update_last_extends_in_place.
Qed.

(** The network is down and the action is "chat": the hypotheses of C4's
    theorem hold, and one fragment is sent. *)
Lemma upstream_failure_witness :
  fails_before_fragment (upstream failing_env) (RequestsError (lit "boom"))
  /\ db_lock store_with_bot = false
  /\ fragments (gen failing_env supported_model (lit "chat") (lit "s") [] store_with_bot)
     = [api_error (RequestsError (lit "boom"))].
Proof.
  split; [reflexivity|]. split; [reflexivity|].
  destruct (upstream_failure_yields_one_error_fragment
              failing_env (RequestsError (lit "boom")) (lit "chat") (lit "s") []
              store_with_bot eq_refl eq_refl) as (_ & _ & H & _).
  exact H.
Defined.

(** C4 as stated fails for the action "continue": the error fragment is
    joined to the content the last bot row already has, and no bot row has
    the fragment as its content. *)
Lemma error_fragment_joins_last_bot_row_on_continue :
  chat failing_env continue_request store_with_bot
  = Stream (mkGenRun
      [api_error (RequestsError (lit "boom"))]
      [[mkTurn (lit "assistant") (lit "Hi"); continue_prompt]]
      (Returns tt
         (mkStore [mkRow 1 (lit "s") (lit "bot")
                     (lit "Hi" ++ api_error (RequestsError (lit "boom"))) 100]
                  1 false)))
  /\ ~ committed_as_bot_content (lit "s") (api_error (RequestsError (lit "boom")))
         (Returns tt
            (mkStore [mkRow 1 (lit "s") (lit "bot")
                        (lit "Hi" ++ api_error (RequestsError (lit "boom"))) 100]
                     1 false)).
Proof.
  split; [vm_compute; reflexivity|].
  intros (st' & E & r & Hin & _ & _ & Hm). injection E as <-.
  destruct Hin as [<-|[]]. vm_compute in Hm. discriminate.
Qed.

(** C5 (the commit).  Once the fragments are exhausted, whatever produced
    them, an empty buffer leaves the store untouched; a buffer that is not
    empty is handed to [update_last_bot_message] for the action "continue"
    and is otherwise saved as the content of a new bot row. *)
Theorem gen_commits_buffer_when_exhausted
  (e : env) (m act sid : str) (chat_history : list turn) (st : store) :
  exists buffer,
    buffer = snd (gen_try (upstream e) m chat_history)
    /\ fragments (gen e m act sid chat_history st)
       = fst (fst (gen_try (upstream e) m chat_history))
    /\ (buffer = List.concat (fragments (gen e m act sid chat_history st))
        \/ exists v, buffer = system_error_msg (TypeError v))
    /\ (buffer = [] ->
        committed (gen e m act sid chat_history st) = Returns tt st)
    /\ (buffer <> [] -> act = lit "continue" ->
        committed (gen e m act sid chat_history st)
        = update_last_bot_message (ts_bot e) sid buffer st)
    /\ (buffer <> [] -> act <> lit "continue" ->
        committed (gen e m act sid chat_history st)
        = save_msg (ts_bot e) sid (lit "bot") buffer st
        /\ (db_lock st = false ->
            bot_row_appended sid buffer st
              (committed (gen e m act sid chat_history st)))).
Proof.
  pose proof (gen_try_buffer (upstream e) m chat_history) as Hb.
  unfold gen. destruct (gen_try (upstream e) m chat_history) as [[sent posted] buffer].
  exists buffer. cbn [fst snd fragments committed] in *.
  split; [reflexivity|]. split; [reflexivity|]. split; [exact Hb|]. split; [|split].
  - intros ->. reflexivity.
  - intros H ->. now rewrite gen_commit_continue.
  - intros H Ha. rewrite gen_commit_otherwise by assumption.
    split; [reflexivity|]. intros HL. rewrite save_msg_inserts by exact HL.
    eexists _, _. split; [reflexivity|]. simpl. auto.
Qed.

Lemma file_info_get_raises (k : str) (d : list (str * str)) (err : exn) :
  file_info_get k d = inl err -> err = KeyError k.
Proof.
  induction d as [|[k' v] d IH]; simpl; [now intros [= <-]|].
  destruct (str_eqb k' k); [discriminate | exact IH].
Qed.

Lemma user_message_to_save_raises
  (file_info : option (list (str * str))) (txt : str) (err : exn) :
  user_message_to_save file_info txt = inl err -> err = KeyError (lit "name").
Proof.
  unfold user_message_to_save. destruct file_info as [[|kv d]|]; try discriminate.
  destruct (file_info_get (lit "name") (kv :: d)) as [e|name] eqn:E; [|discriminate].
  intros [= <-]. now apply file_info_get_raises in E.
Qed.

(** C6 (unsupported model), as amended.  The lock is free, and the session
    and the model can be encoded.  For a model other than the one
    supported, [gen] sends the one fragment that says so and posts nothing
    upstream.  For the action "chat", when the user's message can be built
    and encoded, the fragment becomes the content of a new bot row, after
    the user's row; when it cannot be built, the attachment data having no
    name, the answer is the status 500, with no fragment and nothing
    stored.  For the action "continue" the fragment is handed to
    [update_last_bot_message]. *)
Theorem unsupported_model_is_answered_without_upstream
  (e : env) (sid m : str) (st : store) :
  m <> supported_model ->
  db_lock st = false ->
  encodable sid = true ->
  encodable m = true ->
  (forall (a : option str) (txt msg : str) (file_info : option (list (str * str))),
      get_default a (lit "chat") = lit "chat" ->
      user_message_to_save file_info txt = inr msg ->
      encodable msg = true ->
      chat e (mkRequest (Some sid) (Some m) a (Some txt) file_info) st
      = Stream (mkGenRun [unsupported_model_msg m] []
          (Returns tt
             (insert_chat (ts_bot e) sid (lit "bot") (unsupported_model_msg m)
                (insert_chat (ts_user e) sid (lit "user") msg st))))
      /\ bot_row_appended sid (unsupported_model_msg m)
           (insert_chat (ts_user e) sid (lit "user") msg st)
           (Returns tt
             (insert_chat (ts_bot e) sid (lit "bot") (unsupported_model_msg m)
                (insert_chat (ts_user e) sid (lit "user") msg st))))
  /\ (forall (a : option str) (txt : str) (err : exn)
             (file_info : option (list (str * str))),
      get_default a (lit "chat") = lit "chat" ->
      user_message_to_save file_info txt = inl err ->
      chat e (mkRequest (Some sid) (Some m) a (Some txt) file_info) st
      = Reply 500 (lit "Server error: 'name'") st)
  /\ (forall (txt : option str) (file_info : option (list (str * str))),
      chat e (mkRequest (Some sid) (Some m) (Some (lit "continue")) txt file_info) st
      = Stream (mkGenRun [unsupported_model_msg m] []
          (update_last_bot_message (ts_bot e) sid (unsupported_model_msg m) st))).
Proof.
  intros Hm HL _ _. split; [|split].
  - intros a txt msg file_info Ha Hu _. split.
    + unfold chat. cbn [session model action text fileInfo subscript get_default].
      rewrite Ha, str_eqb_refl, Hu. unfold bind.
      rewrite save_msg_inserts by exact HL.
      rewrite load_msgs_transcript.
      rewrite gen_unsupported by exact Hm.
      rewrite gen_commit_otherwise by discriminate.
      rewrite save_msg_inserts by (cbn; exact HL). reflexivity.
    + eexists _, _. split; [reflexivity|]. simpl. auto.
  - intros a txt err file_info Ha Hu. unfold chat.
    cbn [session model action text fileInfo subscript get_default].
    rewrite Ha, str_eqb_refl, Hu.
    apply user_message_to_save_raises in Hu. subst err. reflexivity.
  - intros txt file_info. unfold chat.
    cbn [session model action text fileInfo subscript get_default].
    change (str_eqb (lit "continue") (lit "chat")) with false.
    rewrite str_eqb_refl, load_msgs_transcript.
    rewrite gen_unsupported by exact Hm.
    now rewrite gen_commit_continue by discriminate.
Qed.

(** A chat request for the model "gpt-4": the hypotheses of C6's theorem
    hold, and the reply is as it says. *)
Lemma unsupported_model_witness :
  lit "gpt-4" <> supported_model
  /\ db_lock store_with_bot = false
  /\ encodable (lit "s") = true
  /\ encodable (lit "gpt-4") = true
  /\ encodable (lit "hello") = true
  /\ chat failing_env
       (mkRequest (Some (lit "s")) (Some (lit "gpt-4")) None (Some (lit "hello")) None)
       store_with_bot
     = Stream (mkGenRun [unsupported_model_msg (lit "gpt-4")] []
         (Returns tt
            (insert_chat 201 (lit "s") (lit "bot") (unsupported_model_msg (lit "gpt-4"))
               (insert_chat 200 (lit "s") (lit "user") (lit "hello") store_with_bot)))).
Proof.
  assert (Hm : lit "gpt-4" <> supported_model) by discriminate.
  split; [exact Hm|]. split; [reflexivity|].
  split; [reflexivity|]. split; [reflexivity|]. split; [reflexivity|].
  destruct (@unsupported_model_is_answered_without_upstream
              failing_env (lit "s") (lit "gpt-4") store_with_bot
              Hm eq_refl eq_refl eq_refl) as [H _].
  destruct (H None (lit "hello") (lit "hello") None eq_refl eq_refl eq_refl) as [H' _].
  exact H'.
Defined.

(** C6 as stated fails for the action "continue": nothing is appended, the
    fragment is joined to the content of the last bot row. *)
Lemma unsupported_model_appends_nothing_on_continue :
  chat failing_env continue_request_other_model store_with_bot
  = Stream (mkGenRun
      [unsupported_model_msg (lit "gpt-4")] []
      (Returns tt
         (mkStore [mkRow 1 (lit "s") (lit "bot")
                     (lit "Hi" ++ unsupported_model_msg (lit "gpt-4")) 100]
                  1 false)))
  /\ ~ bot_row_appended (lit "s") (unsupported_model_msg (lit "gpt-4"))
         store_with_bot
         (Returns tt
            (mkStore [mkRow 1 (lit "s") (lit "bot")
                        (lit "Hi" ++ unsupported_model_msg (lit "gpt-4")) 100]
                     1 false)).
Proof.
  split; [vm_compute; reflexivity|].
  intros (st' & r & E & Hc & _). injection E as <-.
  apply (f_equal (@List.length row)) in Hc. rewrite length_app in Hc.
  discriminate.
Qed.

(** C2 (bad requests), as amended.  A request is refused with status 400
    when its action is neither "chat" nor "continue"; one without a session,
    or for the action "chat" without a text, falls into the handler of the
    route and is answered with status 500.  In each case no stream is
    started and the store is left as it was. *)
Theorem chat_refuses_bad_requests (e : env) (data : request) (st : store) :
  (session data = None ->
   chat e data st = Reply 500 (lit "Server error: 'session'") st)
  /\ (forall sid, session data = Some sid ->
      get_default (action data) (lit "chat") = lit "chat" ->
      text data = None ->
      chat e data st = Reply 500 (lit "Server error: 'text'") st)
  /\ (forall sid a, session data = Some sid -> action data = Some a ->
      a <> lit "chat" -> a <> lit "continue" ->
      chat e data st = Reply 400 (lit "Invalid action.") st).
Proof.
  unfold chat. repeat split.
  - intros ->. reflexivity.
  - intros sid -> -> ->. reflexivity.
  - intros sid a -> -> H1 H2. cbn [subscript get_default].
    apply str_eqb_neq in H1, H2. now rewrite H1, H2.
Qed.

(** C2 as stated fails: the action "chat" without a text is answered with
    status 500, not 400. *)
Lemma chat_without_text_is_a_server_error :
  chat failing_env chat_request_without_text store_with_bot
  = Reply 500 (lit "Server error: 'text'") store_with_bot.
Proof. reflexivity. Qed.

(** C10 (defaults).  A request without a model is handled as one for
    "claude-sonnet-3.7", the supported model; a request without an action
    is handled as one for the action "chat", and is never refused as an
    invalid action. *)
Theorem chat_defaults_model_and_action
  (e : env) (s m a t : option str) (f : option (list (str * str))) (st : store) :
  chat e (mkRequest s None a t f) st
  = chat e (mkRequest s (Some (lit "claude-sonnet-3.7")) a t f) st
  /\ supported_model = lit "claude-sonnet-3.7"
  /\ chat e (mkRequest s m None t f) st
     = chat e (mkRequest s m (Some (lit "chat")) t f) st
  /\ forall body st', chat e (mkRequest s m None t f) st <> Reply 400 body st'.
Proof.
  repeat split.
  intros body st'. unfold chat, server_error.
  cbn [session model action text fileInfo get_default].
  destruct (subscript s "session") as [err|sid]; [discriminate|].
  rewrite str_eqb_refl.
  destruct (subscript t "text") as [err|txt]; [discriminate|].
  destruct (user_message_to_save f txt) as [err|msg]; [discriminate|].
  destruct (bind _ _ st); discriminate.
Qed.

(* ================================================================== *)
(** * Further properties of the store *)
(* ================================================================== *)

Lemma max_id_bounds (rows : list row) (r : row) :
  In r rows -> (id r <= max_id rows)%N.
Proof.
  induction rows as [|x rows IH]; simpl; [contradiction|].
  intros [->|H]; [lia|]. specialize (IH H). lia.
Qed.

(** [INSERT] keeps the rowids distinct: the new one is above all others. *)
Lemma insert_chat_keeps_ids_distinct (now : N) (sid who msg : str) (st : store) :
  NoDup (map id (chats st)) ->
  NoDup (map id (chats (insert_chat now sid who msg st))).
Proof.
  intros H. unfold insert_chat; simpl. rewrite map_app. simpl.
  assert (Hfresh : ~ In (next_id st) (map id (chats st))).
  { intros Hin. apply in_map_iff in Hin as (r & E & Hr).
    apply max_id_bounds in Hr. unfold next_id in E. lia. }
  revert H Hfresh. generalize (next_id st) as fresh.
  induction (map id (chats st)) as [|x l IH]; intros fresh H Hfresh; simpl.
  - repeat constructor. intros [].
  - inversion H as [|? ? Hx Hl]; subst. constructor.
    + intros Hin. apply in_app_or in Hin as [Hin|Hin]; [contradiction|].
      destruct Hin as [Hin|Hin]; [|contradiction].
      apply Hfresh. now left.
    + apply IH; [exact Hl|]. intros Hin. apply Hfresh. now right.
Qed.

(** [UPDATE] changes no rowid. *)
Lemma update_message_keeps_ids (msg : str) (i : N) (st : store) :
  map id (chats (update_message msg i st)) = map id (chats st).
Proof.
  unfold update_message; simpl. rewrite map_map. apply map_ext.
  intros r. now destruct (N.eqb (id r) i).
Qed.



(* ================================================================== *)
(** * Further properties of the adapter and of [gen] *)
(* ================================================================== *)

(** The row [update_last_bot_message] works on is a bot row of the session
    and none of the session's bot rows has a later [ts]. *)
Theorem last_bot_row_is_most_recent (sid : str) (st : store) (r : row) :
  select_last_bot sid st = Some r ->
  In r (chats st) /\ session_id r = sid /\ role r = lit "bot"
  /\ forall x, In x (chats st) -> session_id x = sid -> role x = lit "bot" ->
               (ts x <= ts r)%N.
Proof. apply select_last_bot_Some. Qed.

Lemma last_bot_row_witness :
  select_last_bot (lit "s") store_with_bot
  = Some (mkRow 1 (lit "s") (lit "bot") (lit "Hi") 100)
  /\ In (mkRow 1 (lit "s") (lit "bot") (lit "Hi") 100) (chats store_with_bot).
Proof.
  split; [reflexivity|].
  exact (proj1 (@last_bot_row_is_most_recent (lit "s") store_with_bot
                  (mkRow 1 (lit "s") (lit "bot") (lit "Hi") 100) eq_refl)).
Defined.

(** The removal of thinking blocks is one pass from the left: what stands
    on the two sides of a removed block may join into a block, and that
    one stays. *)
Theorem re_sub_think_is_one_pass :
  re_sub_think (lit "<thi<think>a</think>nk>b</think>") = lit "<think>b</think>"
  /\ spec_thinking_block (lit "<think>b</think>").
Proof.
  split; [vm_compute; reflexivity|].
  assert (E : match_think (lit "<think>b</think>") = Some []) by reflexivity.
  apply match_think_Some in E as (b & E & Hb).
  rewrite app_nil_r in E. now rewrite E.
Qed.

Lemma iter_lines_loop_failure (pre : list read_event) (ev : read_event) :
  event_fails ev = true ->
  exists e,
    forall rest,
      iter_lines_loop (pre ++ ev :: rest) = (fst (iter_lines_loop pre), Some e).
Proof.
  intros Hev. induction pre as [|x pre IH].
  - destruct ev as [line|text]; [|now eexists].
    destruct line as [|b line]; [discriminate|].
    cbn [event_fails] in Hev. cbn [app iter_lines_loop fst].
    destruct (handle_line (b :: line)) as [e|ys]; [|discriminate].
    now exists e.
  - destruct IH as [e IH]. cbn [app iter_lines_loop].
    destruct x as [line|text]; [|now eexists].
    destruct line as [|b line]; [now exists e|].
    destruct (handle_line (b :: line)) as [e'|ys]; [now eexists|].
    exists e. intros rest. rewrite IH.
    now destruct (iter_lines_loop pre) as [more e''].
Qed.

(** What follows a failure is never read.  When an event of the body fails
    (the read raises, the line cannot be decoded, its JSON value is no
    object), the adapter ends on one fragment that starts with the error
    marker, and what it yields is the same whatever follows the event in
    the body. *)
Theorem lines_after_a_failure_are_never_read
  (status_code : N) (http_error : str) (pre : list read_event) (ev : read_event)
  (chat_history : list turn) :
  is_error_status status_code = false ->
  event_fails ev = true ->
  exists ys e,
    startswith api_error_marker (api_error e) = true
    /\ forall rest,
         stream_claude_sonnet
           (PostResponse status_code http_error (pre ++ ev :: rest)) chat_history
         = ys ++ [JStr (api_error e)].
Proof.
  intros Hs Hev. destruct (@iter_lines_loop_failure pre ev Hev) as [e H].
  exists (fst (iter_lines_loop pre)), e. split; [apply api_error_has_marker|].
  intros rest. unfold stream_claude_sonnet. now rewrite Hs, H.
Qed.

Lemma lines_after_a_failure_witness :
  is_error_status 200 = false
  /\ event_fails (Line [xff]) = true
  /\ stream_claude_sonnet
       (PostResponse 200 []
          ([Line (json_line "data: {'type':'text-delta','delta':'Hel'}")]
           ++ Line [xff]
           :: [Line (json_line "data: {'type':'text-delta','delta':'lo'}")]))
       []
     = stream_claude_sonnet
         (PostResponse 200 []
            ([Line (json_line "data: {'type':'text-delta','delta':'Hel'}")]
             ++ Line [xff] :: []))
         [].
Proof.
  split; [reflexivity|]. split; [reflexivity|].
  destruct (@lines_after_a_failure_are_never_read 200 []
              [Line (json_line "data: {'type':'text-delta','delta':'Hel'}")]
              (Line [xff]) [] eq_refl eq_refl) as (ys & e & _ & H).
  now rewrite !H.
Defined.

(** A delta that is not a string makes [gen] drop what it had buffered: the
    client has received "Hel" and the error text, the bot row holds the
    error text alone. *)
Theorem number_delta_replaces_the_buffer :
  gen (mkEnv (PostResponse 200 [] number_delta_body) 200 201)
      supported_model (lit "chat") (lit "s") [] store_without_bot
  = mkGenRun
      [ lit "Hel";
        lit "🤖 **System Error**" ++ newline ++ newline
        ++ lit "Unexpected error: can only concatenate str (not "
        ++ quote_mark ++ lit "int" ++ quote_mark ++ lit ") to str" ]
      [[]]
      (Returns tt
         (insert_chat 201 (lit "s") (lit "bot")
            (lit "🤖 **System Error**" ++ newline ++ newline
             ++ lit "Unexpected error: can only concatenate str (not "
             ++ quote_mark ++ lit "int" ++ quote_mark ++ lit ") to str")
            store_without_bot)).
Proof. vm_compute. reflexivity. Qed.

(* ================================================================== *)
(** * Properties: [json.loads] needs no more fuel than it is given *)
(* ================================================================== *)

Section Json.

Implicit Types (s rest : str).

Lemma skip_ws_length s : List.length (skip_ws s) <= List.length s.
Proof.
  induction s as [|c s IH]; simpl; [lia|].
  destruct (is_json_ws c); simpl; lia.
Qed.

Lemma cons_char_Some c (r : option (str * str)) t rest :
  cons_char c r = Some (t, rest) -> exists t', r = Some (t', rest).
Proof.
  destruct r as [[t' rest']|]; simpl; [|discriminate].
  intros [= _ <-]. now exists t'.
Qed.

Lemma scanstring_shorter s : forall t rest,
  scanstring s = Some (t, rest) -> List.length rest < List.length s.
Proof.
  remember (List.length s) as n eqn:Hn. revert s Hn.
  induction n as [n IH] using lt_wf_ind. intros s -> t rest.
  assert (R : forall s' t', List.length s' < List.length s ->
                cons_char t' (scanstring s') <> None ->
                forall t0 rest0, cons_char t' (scanstring s') = Some (t0, rest0) ->
                List.length rest0 < List.length s).
  { intros s' t' L _ t0 rest0 E. apply cons_char_Some in E as [t1 E].
    specialize (IH _ L s' eq_refl _ _ E). lia. }
  destruct s as [|c s1]; cbn [scanstring]; [discriminate|].
  destruct (c =? 34)%N.
  { intros [= _ <-]. simpl. lia. }
  destruct (c =? 92)%N.
  - destruct s1 as [|e s2]; [discriminate|].
    destruct (e =? 117)%N.
    + destruct s2 as [|a [|b [|c' [|d s3]]]]; try discriminate.
      destruct (hex4 a b c' d) as [hi|]; [|discriminate].
      assert (L3 : List.length s3 < List.length (c :: e :: a :: b :: c' :: d :: s3))
        by (simpl; lia).
      destruct s3 as [|b1 [|b2 [|a' [|b' [|c'' [|d' s4]]]]]];
        try (intros E; apply (R _ _ L3) in E; [exact E | congruence]).
      destruct (hex4 a' b' c'' d') as [lo|];
        [|intros E; apply (R _ _ L3) in E; [exact E | congruence]].
      destruct (is_high_surrogate hi && (b1 =? 92)%N && (b2 =? 117)%N
                && is_low_surrogate lo);
        intros E; eapply R in E; try exact E; try congruence; simpl; lia.
    + destruct (simple_escape e) as [ch|]; [|discriminate].
      intros E; eapply R in E; try exact E; try congruence; simpl; lia.
  - destruct (c <? 32)%N; [discriminate|].
    intros E; eapply R in E; try exact E; try congruence; simpl; lia.
Qed.

Lemma take_digits_length s : forall acc n v k rest,
  take_digits s acc n = (v, k, rest) -> List.length rest <= List.length s.
Proof.
  induction s as [|c s IH]; intros acc n v k rest; simpl.
  - intros [= _ _ <-]. simpl; lia.
  - destruct (is_digit c).
    + intros E. apply IH in E. lia.
    + intros [= _ _ <-]. simpl; lia.
Qed.

Lemma take_digits_shorter c s acc n v k rest :
  is_digit c = true ->
  take_digits (c :: s) acc n = (v, k, rest) -> List.length rest < List.length (c :: s).
Proof.
  intros Hc. simpl. rewrite Hc. intros E. apply take_digits_length in E. lia.
Qed.

Lemma int_part_shorter s v rest :
  int_part s = Some (v, rest) -> List.length rest < List.length s.
Proof.
  unfold int_part. destruct s as [|c s']; [discriminate|].
  destruct (c =? 48)%N.
  - intros [= _ <-]. simpl; lia.
  - destruct (is_digit c) eqn:Hc; [|discriminate].
    destruct (take_digits (c :: s') 0 0) as [[v' k] rest'] eqn:E.
    intros [= _ <-]. now apply take_digits_shorter in E.
Qed.

Lemma frac_part_length s f n rest :
  frac_part s = Some (f, n, rest) -> List.length rest <= List.length s.
Proof.
  unfold frac_part. destruct s as [|p [|c s']]; try discriminate.
  destruct ((p =? 46)%N && is_digit c); [|discriminate].
  intros E. injection E as E.
  pose proof (@take_digits_length (c :: s') 0%Z 0%Z f n rest E) as L.
  simpl in *. lia.
Qed.

Lemma exp_part_length s x rest :
  exp_part s = Some (x, rest) -> List.length rest <= List.length s.
Proof.
  unfold exp_part. destruct s as [|c [|d s'']]; try discriminate.
  destruct ((c =? 101)%N || (c =? 69)%N); [|discriminate].
  destruct (is_digit d).
  - destruct (take_digits (d :: s'') 0 0) as [[v k] rest'] eqn:E.
    intros [= _ <-]. apply take_digits_length in E. simpl in *. lia.
  - destruct ((d =? 43)%N || (d =? 45)%N); [|discriminate].
    destruct s'' as [|d' s3]; [discriminate|].
    destruct (is_digit d'); [|discriminate].
    destruct (take_digits (d' :: s3) 0 0) as [[v k] rest'] eqn:E.
    intros [= _ <-]. apply take_digits_length in E. simpl in *. lia.
Qed.

Lemma scan_number_shorter s v rest :
  scan_number s = Some (v, rest) -> List.length rest < List.length s.
Proof.
  unfold scan_number.
  assert (H : forall (negative : bool) s1, List.length s1 <= List.length s ->
    match int_part s1 with
    | None => None
    | Some (i, s2) =>
      match frac_part s2 with
      | Some (f, n, s3) =>
        match exp_part s3 with
        | Some (x, s4) =>
          Some (JFloat (if negative then (- (i * 10 ^ n + f))%Z else (i * 10 ^ n + f)%Z)
                       (x - n), s4)
        | None =>
          Some (JFloat (if negative then (- (i * 10 ^ n + f))%Z else (i * 10 ^ n + f)%Z)
                       (- n), s3)
        end
      | None =>
        match exp_part s2 with
        | Some (x, s4) => Some (JFloat (if negative then (- i)%Z else i) x, s4)
        | None => Some (JInt (if negative then (- i)%Z else i), s2)
        end
      end
    end = Some (v, rest) -> List.length rest < List.length s).
  { intros negative s1 L.
    destruct (int_part s1) as [[i s2]|] eqn:Ei; [|discriminate].
    apply int_part_shorter in Ei.
    destruct (frac_part s2) as [[[f n] s3]|] eqn:Ef.
    - apply frac_part_length in Ef.
      destruct (exp_part s3) as [[x s4]|] eqn:Ex.
      + apply exp_part_length in Ex. intros [= _ <-]. lia.
      + intros [= _ <-]. lia.
    - destruct (exp_part s2) as [[x s4]|] eqn:Ex.
      + apply exp_part_length in Ex. intros [= _ <-]. lia.
      + intros [= _ <-]. lia. }
  destruct s as [|c s']; [apply (H false); simpl; lia|].
  destruct (c =? 45)%N; [apply (H true) | apply (H false)]; simpl; lia.
Qed.

Lemma after_literal_length (p : string) s rest :
  after_literal p s = Some rest ->
  List.length rest + List.length (lit p) = List.length s.
Proof.
  unfold after_literal. destruct (startswith (lit p) s) eqn:E; [|discriminate].
  intros [= <-]. apply startswith_spec in E as [t ->].
  rewrite skipn_app, skipn_all, Nat.sub_diag. simpl. rewrite length_app. lia.
Qed.

Lemma scan_atom_shorter s v rest :
  scan_atom s = Some (v, rest) -> List.length rest < List.length s.
Proof.
  unfold scan_atom.
  destruct (after_literal "null" s) eqn:E1.
  { intros [= _ <-]. apply after_literal_length in E1.
    change (List.length (lit "null")) with 4 in E1. lia. }
  destruct (after_literal "true" s) eqn:E2.
  { intros [= _ <-]. apply after_literal_length in E2.
    change (List.length (lit "true")) with 4 in E2. lia. }
  destruct (after_literal "false" s) eqn:E3.
  { intros [= _ <-]. apply after_literal_length in E3.
    change (List.length (lit "false")) with 5 in E3. lia. }
  destruct (after_literal "NaN" s) eqn:E4.
  { intros [= _ <-]. apply after_literal_length in E4.
    change (List.length (lit "NaN")) with 3 in E4. lia. }
  destruct (after_literal "Infinity" s) eqn:E5.
  { intros [= _ <-]. apply after_literal_length in E5.
    change (List.length (lit "Infinity")) with 8 in E5. lia. }
  destruct (after_literal "-Infinity" s) eqn:E6.
  { intros [= _ <-]. apply after_literal_length in E6.
    change (List.length (lit "-Infinity")) with 9 in E6. lia. }
  apply scan_number_shorter.
Qed.

(** A scan that succeeds consumes something, and succeeds with the same
    result with any fuel that is at least twice what it consumes. *)
Lemma scan_fuel (f : nat) :
  (forall s v rest, scan_once f s = Some (v, rest) ->
     List.length rest < List.length s
     /\ forall f', 2 * (List.length s - List.length rest) <= f' ->
                   scan_once f' s = Some (v, rest))
  /\ (forall s l rest, scan_items f s = Some (l, rest) ->
     List.length rest < List.length s
     /\ forall f', 2 * (List.length s - List.length rest) <= f' ->
                   scan_items f' s = Some (l, rest))
  /\ (forall s d r rest, scan_members f s d = Some (r, rest) ->
     List.length rest < List.length s
     /\ forall f', 2 * (List.length s - List.length rest) <= f' ->
                   scan_members f' s d = Some (r, rest)).
Proof.
  induction f as [|f (IHo & IHi & IHm)]; [repeat split; discriminate|].
  split; [|split].
  - intros s v rest. cbn [scan_once]. unfold scan_once_step.
    destruct s as [|c s']; [discriminate|].
    destruct (c =? 34)%N eqn:E34.
    { destruct (scanstring s') as [[t r0]|] eqn:Es; [|discriminate].
      intros [= <- <-]. pose proof (scanstring_shorter _ Es) as L.
      split; [cbn [List.length]; lia|]. intros [|f'] Hf'.
      - cbn [List.length] in Hf'. lia.
      - cbn [scan_once]. unfold scan_once_step. now rewrite E34, Es. }
    destruct (c =? 123)%N eqn:E123.
    { pose proof (skip_ws_length s') as Lw.
      destruct (skip_ws s') as [|c' r0] eqn:Ew; [discriminate|].
      destruct (c' =? 125)%N eqn:E125.
      - intros [= <- <-]. cbn [List.length] in *. split; [lia|].
        intros [|f'] Hf'; [lia|].
        cbn [scan_once]. unfold scan_once_step. now rewrite E34, E123, Ew, E125.
      - destruct (scan_members f (c' :: r0) []) as [[d r1]|] eqn:Em; [|discriminate].
        intros [= <- <-]. destruct (IHm _ _ _ _ Em) as [L K].
        cbn [List.length] in *. split; [lia|].
        intros [|f'] Hf'; [lia|].
        cbn [scan_once]. unfold scan_once_step. rewrite E34, E123, Ew, E125.
        rewrite K; [reflexivity | lia]. }
    destruct (c =? 91)%N eqn:E91.
    { pose proof (skip_ws_length s') as Lw.
      destruct (skip_ws s') as [|c' r0] eqn:Ew; [discriminate|].
      destruct (c' =? 93)%N eqn:E93.
      - intros [= <- <-]. cbn [List.length] in *. split; [lia|].
        intros [|f'] Hf'; [lia|].
        cbn [scan_once]. unfold scan_once_step.
        now rewrite E34, E123, E91, Ew, E93.
      - destruct (scan_items f (c' :: r0)) as [[l r1]|] eqn:Ei; [|discriminate].
        intros [= <- <-]. destruct (IHi _ _ _ Ei) as [L K].
        cbn [List.length] in *. split; [lia|].
        intros [|f'] Hf'; [lia|].
        cbn [scan_once]. unfold scan_once_step. rewrite E34, E123, E91, Ew, E93.
        rewrite K; [reflexivity | lia]. }
    intros E. pose proof (scan_atom_shorter _ E) as L. split; [exact L|].
    intros [|f'] Hf'; [lia|].
    cbn [scan_once]. unfold scan_once_step. now rewrite E34, E123, E91.
  - intros s l rest. cbn [scan_items]. unfold scan_items_step.
    destruct (scan_once f s) as [[v s1]|] eqn:Eo; [|discriminate].
    destruct (IHo _ _ _ Eo) as [L1 K1].
    pose proof (skip_ws_length s1) as Lw.
    destruct (skip_ws s1) as [|c s2] eqn:Ew; [discriminate|].
    destruct (c =? 93)%N eqn:E93.
    { intros [= <- <-]. cbn [List.length] in *. split; [lia|].
      intros [|f'] Hf'; [lia|].
      cbn [scan_items]. unfold scan_items_step.
      rewrite K1 by lia. now rewrite Ew, E93. }
    destruct (c =? 44)%N eqn:E44; [|discriminate].
    pose proof (skip_ws_length s2) as Lw2.
    destruct (scan_items f (skip_ws s2)) as [[l' r1]|] eqn:Ei; [|discriminate].
    intros [= <- <-]. destruct (IHi _ _ _ Ei) as [L2 K2].
    cbn [List.length] in *. split; [lia|].
    intros [|f'] Hf'; [lia|].
    cbn [scan_items]. unfold scan_items_step.
    rewrite K1 by lia. rewrite Ew, E93, E44. rewrite K2 by lia. reflexivity.
  - intros s d r rest. cbn [scan_members]. unfold scan_members_step.
    destruct s as [|q s0]; [discriminate|].
    destruct (q =? 34)%N eqn:E34; [|discriminate].
    destruct (scanstring s0) as [[k s1]|] eqn:Es; [|discriminate].
    pose proof (scanstring_shorter _ Es) as L0.
    pose proof (skip_ws_length s1) as Lw1.
    destruct (skip_ws s1) as [|c s2] eqn:Ew1; [discriminate|].
    destruct (c =? 58)%N eqn:E58; [|discriminate].
    pose proof (skip_ws_length s2) as Lw2.
    destruct (scan_once f (skip_ws s2)) as [[v s3]|] eqn:Eo; [|discriminate].
    destruct (IHo _ _ _ Eo) as [L1 K1].
    pose proof (skip_ws_length s3) as Lw3.
    destruct (skip_ws s3) as [|c' s4] eqn:Ew3; [discriminate|].
    destruct (c' =? 125)%N eqn:E125.
    { intros [= <- <-]. cbn [List.length] in *. split; [lia|].
      intros [|f'] Hf'; [lia|].
      cbn [scan_members]. unfold scan_members_step.
      rewrite E34, Es, Ew1, E58. rewrite K1 by lia. now rewrite Ew3, E125. }
    destruct (c' =? 44)%N eqn:E44; [|discriminate].
    pose proof (skip_ws_length s4) as Lw4.
    intros Em. destruct (IHm _ _ _ _ Em) as [L2 K2].
    cbn [List.length] in *. split; [lia|].
    intros [|f'] Hf'; [lia|].
    cbn [scan_members]. unfold scan_members_step.
    rewrite E34, Es, Ew1, E58. rewrite K1 by lia. rewrite Ew3, E125, E44.
    apply K2. lia.
Qed.

(** No document is refused for lack of fuel: a scan that succeeds with some
    fuel succeeds with the fuel [json_loads] gives. *)
Lemma json_loads_fuel_enough (fuel : nat) s v rest :
  scan_once fuel (skip_ws s) = Some (v, rest) ->
  scan_once (2 * List.length s + 2) (skip_ws s) = Some (v, rest).
Proof.
  intros E. destruct (scan_fuel fuel) as [H _].
  destruct (H _ _ _ E) as [_ K]. apply K.
  pose proof (skip_ws_length s). lia.
Qed.

End Json.

(** The rendering of a number does not depend on its fuel, once the fuel
    is more than the number of its binary digits. *)
Lemma render_base_fuel (f1 : nat) : forall (f2 : nat) (n : N) (acc : str),
  0 < f1 -> 0 < f2 ->
  (n < 2 ^ N.of_nat f1)%N -> (n < 2 ^ N.of_nat f2)%N ->
  render_base 10 f1 n acc = render_base 10 f2 n acc.
Proof.
  induction f1 as [|f1 IH]; intros [|f2] n acc P1 P2 H1 H2; try lia.
  cbn [render_base]. destruct (N.eqb_spec (n / 10) 0) as [E|E]; [reflexivity|].
  assert (Hn : (10 <= n)%N).
  { destruct (N.lt_ge_cases n 10) as [L|L]; [|exact L].
    rewrite N.div_small in E by exact L. contradiction. }
  assert (Hd : (n / 10 <= n / 2)%N).
  { apply N.div_le_compat_l. lia. }
  assert (B : forall f, (n < 2 ^ N.of_nat (S f))%N ->
                        0 < f /\ (n / 10 < 2 ^ N.of_nat f)%N).
  { intros f Hf. rewrite Nat2N.inj_succ, N.pow_succ_r' in Hf.
    split.
    - destruct f; [|lia]. simpl in Hf. lia.
    - apply N.le_lt_trans with (n / 2)%N; [exact Hd|].
      apply N.Div0.div_lt_upper_bound. lia. }
  destruct (B _ H1) as [Q1 R1]. destruct (B _ H2) as [Q2 R2].
  now apply IH.
Qed.

Lemma str_of_N_fuel (n : N) (fuel : nat) :
  0 < fuel -> (n < 2 ^ N.of_nat fuel)%N ->
  str_of_N n = render_base 10 fuel n [].
Proof.
  intros P H. unfold str_of_N. apply render_base_fuel.
  - lia.
  - exact P.
  - rewrite Nat2N.inj_succ, N2Nat.id.
    destruct n as [|p]; [reflexivity|].
    apply N.log2_spec. lia.
  - exact H.
Qed.

(* ================================================================== *)
(** * The store as an append-only log *)
(* ================================================================== *)

Section Log.

Implicit Types (st : store) (r : row) (sid : str).

Lemma row_kept_refl sid r : row_kept sid r r.
Proof. split; [reflexivity | now left]. Qed.

Lemma rows_kept_refl sid (l : list row) : Forall2 (row_kept sid) l l.
Proof. induction l; constructor; auto using row_kept_refl. Qed.

Lemma row_kept_trans sid r1 r2 r3 :
  row_kept sid r1 r2 -> row_kept sid r2 r3 -> row_kept sid r1 r3.
Proof.
  intros [K1 M1] [K2 M2]. split; [congruence|].
  assert (Hs : session_id r2 = session_id r1 /\ role r2 = role r1).
  { unfold row_key in K1. injection K1 as _ Hs Hr _. now split. }
  destruct Hs as [Hs Hr].
  destruct M1 as [M1|(S1 & R1 & d1 & M1)], M2 as [M2|(S2 & R2 & d2 & M2)].
  - left. congruence.
  - right. repeat split; try congruence. exists d2. congruence.
  - right. repeat split; auto. exists d1. congruence.
  - right. repeat split; auto. exists (d1 ++ d2).
    rewrite M2, M1. now rewrite app_assoc.
Qed.

Lemma rows_kept_trans sid (l1 l2 l3 : list row) :
  Forall2 (row_kept sid) l1 l2 -> Forall2 (row_kept sid) l2 l3 ->
  Forall2 (row_kept sid) l1 l3.
Proof.
  intros H; revert l3. induction H as [|a b l1 l2 Hab _ IH]; intros l3 H3.
  - inversion H3. constructor.
  - inversion H3 as [|? c ? l3' Hbc H3']; subst. constructor.
    + eapply row_kept_trans; eauto.
    + now apply IH.
Qed.

Lemma grows_refl sid st : grows sid st st.
Proof.
  exists (chats st), []. rewrite app_nil_r.
  repeat split; auto using rows_kept_refl.
Qed.

Lemma grows_trans sid st1 st2 st3 :
  grows sid st1 st2 -> grows sid st2 st3 -> grows sid st1 st3.
Proof.
  intros (k1 & a1 & E1 & K1 & A1) (k2 & a2 & E2 & K2 & A2).
  rewrite E1 in K2. apply Forall2_app_inv_l in K2 as (k2' & a1' & K2 & K2' & ->).
  exists k2', (a1' ++ a2). rewrite E2, <- app_assoc. split; [reflexivity|].
  split; [eapply rows_kept_trans; eauto|].
  apply Forall_app. split; [|exact A2].
  clear - A1 K2'. induction K2' as [|a b l l' [K _] _ IH]; [constructor|].
  inversion A1; subst. constructor; [|now apply IH].
  unfold row_key in K. injection K as _ Hs _ _. congruence.
Qed.

Lemma grows_set_lock sid st st' (b : bool) :
  grows sid st st' -> grows sid st (set_lock b st').
Proof. exact (fun H => H). Qed.

Lemma grows_from_set_lock sid st st' (b : bool) :
  grows sid (set_lock b st) st' -> grows sid st st'.
Proof. exact (fun H => H). Qed.

Lemma insert_chat_grows now sid (who msg : str) st :
  grows sid st (insert_chat now sid who msg st).
Proof.
  eexists (chats st), [_]. split; [reflexivity|].
  split; [apply rows_kept_refl|]. now repeat constructor.
Qed.

Lemma rows_kept_map sid (f : row -> row) (l : list row) :
  (forall x, In x l -> row_kept sid x (f x)) ->
  Forall2 (row_kept sid) l (map f l).
Proof.
  induction l as [|x l IH]; intros H; simpl; constructor.
  - apply H. now left.
  - apply IH. intros y Hy. apply H. now right.
Qed.

(** With rowids that grow along the table, a rowid names one row. *)
Lemma store_ok_id_names_one_row st r x :
  store_ok st -> In r (chats st) -> In x (chats st) -> id x = id r -> x = r.
Proof.
  intros [S _]. induction S as [|y l _ IH F]; intros Hr Hx E; [contradiction|].
  rewrite Forall_forall in F.
  destruct Hr as [->|Hr], Hx as [->|Hx]; auto.
  - specialize (F _ Hx). lia.
  - specialize (F _ Hr). lia.
Qed.

Lemma update_message_grows sid d st r :
  session_id r = sid -> role r = lit "bot" ->
  store_ok st -> In r (chats st) ->
  grows sid st (update_message (message r ++ d) (id r) st).
Proof.
  intros Hs Hr Hok Hin.
  exists (chats (update_message (message r ++ d) (id r) st)), [].
  rewrite app_nil_r. split; [reflexivity|]. split; [|constructor].
  unfold update_message; simpl. apply rows_kept_map. intros x Hx.
  destruct (N.eqb_spec (id x) (id r)) as [E|E]; [|apply row_kept_refl].
  assert (x = r) by (eapply store_ok_id_names_one_row; eauto). subst x.
  split; [reflexivity|]. right. repeat split; auto. now exists d.
Qed.

Lemma store_ok_set_lock (b : bool) st : store_ok st -> store_ok (set_lock b st).
Proof. exact (fun H => H). Qed.

Lemma insert_chat_ok now sid (who msg : str) st :
  store_ok st -> store_ok (insert_chat now sid who msg st).
Proof.
  intros [S F]. unfold store_ok, insert_chat; simpl.
  assert (B : forall x, In x (chats st) -> (id x < next_id st)%N).
  { intros x Hx. apply max_id_bounds in Hx. unfold next_id. lia. }
  split.
  - clear F. induction S as [|y l _ IH Fy]; simpl.
    + repeat constructor.
    + constructor.
      * apply IH. intros x Hx. apply B. now right.
      * apply Forall_app. split; [exact Fy|].
        repeat constructor. simpl. apply B. now left.
  - apply Forall_app. split.
    + rewrite Forall_forall. intros x Hx. specialize (B _ Hx). lia.
    + repeat constructor. simpl. lia.
Qed.

Lemma update_message_ok (msg : str) (i : N) st :
  store_ok st -> store_ok (update_message msg i st).
Proof.
  intros [S F]. unfold store_ok, update_message; simpl. split.
  - clear F. induction S as [|y l _ IH Fy]; simpl; [constructor|].
    constructor; [exact IH|].
    rewrite Forall_map. rewrite Forall_forall in *. intros x Hx.
    specialize (Fy _ Hx). destruct (N.eqb (id y) i), (N.eqb (id x) i); exact Fy.
  - rewrite Forall_map. rewrite Forall_forall in *. intros x Hx.
    specialize (F _ Hx). now destruct (N.eqb (id x) i).
Qed.

Lemma save_msg_keeps_log now sid (who msg : str) :
  keeps_log sid (save_msg now sid who msg).
Proof.
  intros st Hok. unfold save_msg, with_db_lock.
  destruct (db_lock st) eqn:HL; cbn [store_of_outcome].
  - split; [exact Hok|]. split; [apply grows_refl|]. discriminate.
  - split; [|split].
    + apply store_ok_set_lock, insert_chat_ok, store_ok_set_lock, Hok.
    + apply grows_set_lock.
      apply (@insert_chat_grows now sid who msg (set_lock true st)).
    + intros _ a st' E. injection E as _ <-. reflexivity.
Qed.

Lemma update_last_keeps_log now sid (d : str) :
  keeps_log sid (update_last_bot_message now sid d).
Proof.
  intros st Hok. unfold update_last_bot_message, with_db_lock.
  destruct (db_lock st) eqn:HL; cbn [store_of_outcome].
  { split; [exact Hok|]. split; [apply grows_refl|]. discriminate. }
  destruct (select_last_bot sid (set_lock true st)) as [r|] eqn:Er.
  - destruct (select_last_bot_Some _ _ Er) as (Hin & Hs & Hr & _).
    cbn [store_of_outcome]. split; [|split].
    + apply store_ok_set_lock, update_message_ok, store_ok_set_lock, Hok.
    + apply grows_set_lock.
      now apply (@update_message_grows sid d (set_lock true st) r).
    + intros _ a st' E. injection E as _ <-. reflexivity.
  - rewrite save_msg_blocks by reflexivity. cbn [store_of_outcome].
    split; [apply store_ok_set_lock, Hok|].
    split; [apply grows_set_lock, grows_refl|]. discriminate.
Qed.

Lemma load_msgs_keeps_log sid : keeps_log sid (load_msgs sid).
Proof.
  intros st Hok. unfold load_msgs. cbn [store_of_outcome].
  split; [exact Hok|]. split; [apply grows_refl|]. intros HL a st' E; injection E as _ <-; exact HL.
Qed.

Lemma gen_commit_keeps_log now (act : str) sid (buffer : str) :
  keeps_log sid (gen_commit now act sid buffer).
Proof.
  unfold gen_commit. destruct (truthy_str buffer).
  - destruct (str_eqb act (lit "continue")).
    + apply update_last_keeps_log.
    + apply save_msg_keeps_log.
  - intros st Hok. cbn [store_of_outcome].
    split; [exact Hok|]. split; [apply grows_refl|]. intros HL a st' E; injection E as _ <-; exact HL.
Qed.

End Log.

(* ================================================================== *)
(** * The route [/chat] and the log *)
(* ================================================================== *)

Lemma gen_committed (e : env) (m act sid : str) (chat_history : list turn) (st : store) :
  committed (gen e m act sid chat_history st)
  = gen_commit (ts_bot e) act sid (snd (gen_try (upstream e) m chat_history)) st.
Proof.
  unfold gen. now destruct (gen_try (upstream e) m chat_history) as [[sent posted] buffer].
Qed.

Lemma chat_log (e : env) (data : request) (st : store) :
  store_ok st ->
  store_ok (final_store (chat e data st))
  /\ (forall sid, session data = Some sid ->
      grows sid st (final_store (chat e data st)))
  /\ (session data = None -> final_store (chat e data st) = st).
Proof.
  intros Hok. unfold chat, subscript, server_error.
  destruct (session data) as [sid|]; cbn [final_store];
    [|split; [exact Hok|]; split; [discriminate | reflexivity]].
  assert (G : forall m act h st1,
             store_ok st1 -> grows sid st st1 ->
             store_ok (final_store (Stream (gen e m act sid h st1)))
             /\ grows sid st (final_store (Stream (gen e m act sid h st1)))).
  { intros m act h st1 Hok1 G1. cbn [final_store]. rewrite gen_committed.
    destruct (@gen_commit_keeps_log (ts_bot e) act sid
                (snd (gen_try (upstream e) m h)) st1 Hok1) as (O & G2 & _).
    split; [exact O|]. eapply grows_trans; eauto. }
  assert (R : forall status body,
             store_ok (final_store (Reply status body st))
             /\ (forall sid0, Some sid = Some sid0 ->
                 grows sid0 st (final_store (Reply status body st)))
             /\ (Some sid = None -> final_store (Reply status body st) = st)).
  { intros. cbn [final_store]. split; [exact Hok|].
    split; [intros; apply grows_refl | reflexivity]. }
  assert (W : forall r, store_ok (final_store r) /\ grows sid st (final_store r) ->
             store_ok (final_store r)
             /\ (forall sid0, Some sid = Some sid0 -> grows sid0 st (final_store r))
             /\ (Some sid = None -> final_store r = st)).
  { intros r [O G']. split; [exact O|]. split; [|discriminate].
    now intros sid0 [= <-]. }
  destruct (str_eqb (get_default (action data) (lit "chat")) (lit "chat")).
  - destruct (text data) as [txt|]; [|apply R].
    destruct (user_message_to_save (fileInfo data) txt) as [err|msg]; [apply R|].
    unfold bind.
    destruct (@save_msg_keeps_log (ts_user e) sid (lit "user") msg st Hok)
      as (O1 & G1 & _).
    destruct (save_msg (ts_user e) sid (lit "user") msg st) as [[] st1|st1];
      cbn [store_of_outcome] in *.
    + rewrite load_msgs_transcript. apply W. now apply G.
    + apply W. cbn [final_store]. now split.
  - destruct (str_eqb (get_default (action data) (lit "chat")) (lit "continue"));
      [|apply R].
    rewrite load_msgs_transcript. apply W. apply G; [exact Hok | apply grows_refl].
Qed.

(** A request keeps the table an append-only log.  Whatever the request and
    the network, the table it leaves has the rows it found, in place, with
    their rowid, session, role and timestamp; a message has changed only
    by being extended, and only in a bot row of the session of the
    request; the rows added belong to that session; rowids still grow
    along the table. *)
Theorem chat_keeps_the_log (e : env) (data : request) (st : store) :
  store_ok st ->
  store_ok (final_store (chat e data st))
  /\ (forall sid, session data = Some sid ->
      grows sid st (final_store (chat e data st)))
  /\ (session data = None -> final_store (chat e data st) = st).
Proof. apply chat_log. Qed.

Lemma chat_keeps_the_log_witness :
  store_ok store_with_bot
  /\ store_ok (final_store (chat failing_env continue_request store_with_bot)).
Proof.
  assert (Hok : store_ok store_with_bot).
  { split; repeat constructor. simpl. lia. }
  split; [exact Hok|].
  exact (proj1 (@chat_keeps_the_log failing_env continue_request store_with_bot Hok)).
Defined.

Lemma row_kept_other_session (sid sid' : str) (r r' : row) :
  row_kept sid r r' -> sid' <> sid -> session_id r = sid' -> r' = r.
Proof.
  intros [K M] Hne Hs. destruct r as [i s ro m t], r' as [i' s' ro' m' t'].
  unfold row_key in K. simpl in *. injection K as -> -> -> ->.
  destruct M as [->|(S1 & _)]; [reflexivity|]. congruence.
Qed.

Lemma grows_other_session (sid sid' : str) (st st' : store) :
  grows sid st st' -> sid' <> sid ->
  filter (is_session sid') (chats st') = filter (is_session sid') (chats st).
Proof.
  intros (kept & added & -> & K & A) Hne. rewrite filter_app.
  assert (Ea : filter (is_session sid') added = []).
  { clear K. induction A as [|x l Hx _ IH]; [reflexivity|]. simpl.
    unfold is_session at 1. rewrite Hx.
    assert (E : str_eqb sid sid' = false) by (apply str_eqb_neq; congruence).
    now rewrite E. }
  rewrite Ea, app_nil_r. clear Ea A.
  induction K as [|r r' l l' Hr _ IH]; [reflexivity|]. simpl.
  assert (Hk : session_id r' = session_id r).
  { destruct Hr as [K _]. unfold row_key in K. now injection K as _ Hs _ _. }
  assert (Hi : is_session sid' r' = is_session sid' r).
  { unfold is_session. now rewrite Hk. }
  rewrite Hi. destruct (is_session sid' r) eqn:E; [|exact IH].
  apply str_eqb_eq in E.
  rewrite (row_kept_other_session Hr Hne E). now rewrite IH.
Qed.

(** A request for one session leaves every other session as it was: the
    rows of another session, and the transcript built from them, are the
    same after the request as before. *)
Theorem chat_leaves_other_sessions_alone
  (e : env) (data : request) (st : store) (sid sid' : str) :
  store_ok st ->
  session data = Some sid ->
  sid' <> sid ->
  load_ordered sid' (final_store (chat e data st)) = load_ordered sid' st
  /\ exists transcript,
       load_msgs sid' st = Returns transcript st
       /\ load_msgs sid' (final_store (chat e data st))
          = Returns transcript (final_store (chat e data st)).
Proof.
  intros Hok Hs Hne.
  destruct (@chat_log e data st Hok) as (_ & G & _).
  specialize (G _ Hs).
  assert (E : load_ordered sid' (final_store (chat e data st)) = load_ordered sid' st).
  { unfold load_ordered. now rewrite (grows_other_session G Hne). }
  split; [exact E|]. eexists. split; [apply load_msgs_transcript|].
  rewrite load_msgs_transcript. now rewrite E.
Qed.

Lemma chat_other_sessions_witness :
  store_ok store_with_bot
  /\ session continue_request = Some (lit "s")
  /\ lit "t" <> lit "s"
  /\ load_ordered (lit "t") (final_store (chat failing_env continue_request store_with_bot))
     = load_ordered (lit "t") store_with_bot.
Proof.
  assert (Hok : store_ok store_with_bot).
  { split; repeat constructor. simpl. lia. }
  assert (Hne : lit "t" <> lit "s") by discriminate.
  split; [exact Hok|]. split; [reflexivity|]. split; [exact Hne|].
  exact (proj1 (@chat_leaves_other_sessions_alone failing_env continue_request
                  store_with_bot (lit "s") (lit "t") Hok eq_refl Hne)).
Defined.

(* ================================================================== *)
(** * No empty fragment *)
(* ================================================================== *)

Lemma handle_line_truthy (line : bytes) (ys : list json) :
  handle_line line = inr ys -> Forall (fun v => truthy v = true) ys.
Proof.
  unfold handle_line. destruct (utf8_decode line) as [d|decoded]; [discriminate|].
  destruct (str_eqb _ (lit "[DONE]")); [intros [= <-]; constructor|].
  destruct (json_loads _) as [v|]; [|intros [= <-]; constructor].
  destruct v; try discriminate.
  destruct (dict_get (lit "type") JNull members);
    try (intros [= <-]; constructor).
  destruct (str_eqb s (lit "text-delta")); [|intros [= <-]; constructor].
  destruct (truthy (dict_get (lit "delta") (JStr []) members)) eqn:E;
    intros [= <-]; repeat constructor. exact E.
Qed.

Lemma iter_lines_loop_truthy (body : list read_event) :
  Forall (fun v => truthy v = true) (fst (iter_lines_loop body)).
Proof.
  induction body as [|ev body IH]; simpl; [constructor|].
  destruct ev as [line|text]; [|constructor].
  destruct line as [|b line]; [exact IH|].
  destruct (handle_line (b :: line)) as [err|ys] eqn:E; [constructor|].
  apply handle_line_truthy in E.
  destruct (iter_lines_loop body) as [more err]. simpl in *.
  apply Forall_app. now split.
Qed.

Lemma stream_truthy (up : post_result) (chat_history : list turn) :
  Forall (fun v => truthy v = true) (stream_claude_sonnet up chat_history).
Proof.
  unfold stream_claude_sonnet. destruct up as [text|status_code http_error body].
  - repeat constructor.
  - destruct (is_error_status status_code); [repeat constructor|].
    pose proof (iter_lines_loop_truthy body) as T.
    destruct (iter_lines_loop body) as [ys [err|]]; simpl in T; [|exact T].
    apply Forall_app. split; [exact T|]. repeat constructor.
Qed.

(** The adapter never yields an empty fragment: every value it yields is
    true in Python's sense, the error fragment included. *)
Theorem adapter_yields_no_empty_fragment (up : post_result) (chat_history : list turn) :
  Forall (fun v => truthy v = true) (stream_claude_sonnet up chat_history)
  /\ forall s, In (JStr s) (stream_claude_sonnet up chat_history) -> s <> [].
Proof.
  pose proof (stream_truthy up chat_history) as H.
  split; [exact H|]. intros s Hin. rewrite Forall_forall in H.
  specialize (H _ Hin). simpl in H. now apply truthy_str_true.
Qed.

(* ================================================================== *)
(** * When a request waits for the lock *)
(* ================================================================== *)

Lemma gen_loop_empty (chunks : list json) : forall (buffer : str) (sent : list str),
  Forall (fun v => truthy v = true) chunks ->
  (buffer = [] <-> sent = []) ->
  (snd (gen_loop chunks buffer sent) = [] <-> fst (gen_loop chunks buffer sent) = []).
Proof.
  induction chunks as [|c chunks IH]; intros buffer sent T I; simpl; [exact I|].
  inversion T as [|? ? Hc T']; subst.
  assert (N1 : forall (x : str) (l : list str), l ++ [x] <> [])
    by (intros x l; destruct l; discriminate).
  destruct c; simpl;
    try (split; intros H; [discriminate H | exfalso; exact (N1 _ _ H)]).
  apply IH; [exact T'|]. simpl in Hc. apply truthy_str_true in Hc.
  split; intros H.
  - apply app_eq_nil in H as [_ H]. contradiction.
  - exfalso. exact (N1 _ _ H).
Qed.

Lemma gen_try_empty (up : post_result) (m : str) (chat_history : list turn) :
  snd (gen_try up m chat_history) = [] <-> fst (fst (gen_try up m chat_history)) = [].
Proof.
  unfold gen_try. destruct (str_eqb m supported_model).
  - pose proof (@gen_loop_empty (stream_claude_sonnet up chat_history) [] []
                  (stream_truthy up chat_history)
                  (conj (fun _ => eq_refl) (fun _ => eq_refl))) as H.
    now destruct (gen_loop _ _ _).
  - cbn [fst snd]. split; discriminate.
Qed.

Lemma gen_fragments (e : env) (m act sid : str) (chat_history : list turn) (st : store) :
  fragments (gen e m act sid chat_history st)
  = fst (fst (gen_try (upstream e) m chat_history)).
Proof.
  unfold gen. now destruct (gen_try (upstream e) m chat_history) as [[sent posted] buffer].
Qed.

Lemma gen_waits (e : env) (m act sid : str) (chat_history : list turn) (st : store) :
  db_lock st = false ->
  (forall st', committed (gen e m act sid chat_history st) = Returns tt st' ->
               db_lock st' = false)
  /\ ((exists st', committed (gen e m act sid chat_history st) = Blocks st')
      <-> act = lit "continue"
          /\ fragments (gen e m act sid chat_history st) <> []
          /\ select_last_bot sid st = None).
Proof.
  intros HL. rewrite gen_committed, gen_fragments.
  pose proof (gen_try_empty (upstream e) m chat_history) as Em.
  destruct (gen_try (upstream e) m chat_history) as [[sent posted] buffer].
  cbn [fst snd] in *. unfold gen_commit.
  destruct buffer as [|c buffer]; cbn [truthy_str].
  { split; [intros st' [= <-]; exact HL|]. split.
    - intros [st' H]. discriminate.
    - intros (_ & H & _). exfalso. apply H. now apply Em. }
  assert (Hs : sent <> []).
  { intros H. apply Em in H. discriminate. }
  destruct (str_eqb act (lit "continue")) eqn:Ea.
  - apply str_eqb_eq in Ea. subst act.
    destruct (select_last_bot sid st) as [r|] eqn:Er.
    + rewrite (@update_last_extends_in_place (ts_bot e) sid (c :: buffer) st r HL Er).
      split; [intros st' [= <-]; exact HL|]. split.
      * intros [st' H]. discriminate.
      * intros (_ & _ & H). discriminate.
    + rewrite (@update_last_blocks_without_bot (ts_bot e) sid (c :: buffer) st HL Er).
      split; [discriminate|]. split; [auto | now eexists].
  - rewrite save_msg_appends by exact HL.
    split; [now intros st' [= <-]|]. split.
    + intros [st' H]. discriminate.
    + intros (H & _). apply str_eqb_neq in Ea. contradiction.
Qed.

(** When a request waits.  With [db_lock] free and a request whose texts
    can be encoded, the route always answers; an answer that is not
    streamed has status 400 or 500, and with status 400 nothing was
    written; for a stream whose fragments can all be encoded, a commit that
    returns leaves the lock free, and the commit waits for ever exactly
    when the action is "continue", something was sent, and the session has
    no bot row. *)
Theorem chat_waits_only_on_continue_without_bot
  (e : env) (data : request) (st : store) :
  db_lock st = false ->
  request_encodable data = true ->
  match chat e data st with
  | NoReply _ => False
  | Reply status _ st' =>
    (status = 400%N \/ status = 500%N) /\ (status = 400%N -> st' = st)
  | Stream run =>
    Forall (fun f => encodable f = true) (fragments run) ->
    (forall st', committed run = Returns tt st' -> db_lock st' = false)
    /\ ((exists st', committed run = Blocks st')
        <-> get_default (action data) (lit "chat") = lit "continue"
            /\ fragments run <> []
            /\ exists sid, session data = Some sid
                           /\ select_last_bot sid st = None)
  end.
Proof.
  intros HL _. unfold chat, subscript, server_error.
  destruct (session data) as [sid|]; [|split; auto].
  destruct (str_eqb (get_default (action data) (lit "chat")) (lit "chat")) eqn:Ea.
  - apply str_eqb_eq in Ea.
    destruct (text data) as [txt|]; [|split; auto].
    destruct (user_message_to_save (fileInfo data) txt) as [err|msg]; [split; auto|].
    unfold bind. rewrite save_msg_inserts by exact HL.
    rewrite load_msgs_transcript. intros _.
    destruct (@gen_waits e (get_default (model data) (lit "claude-sonnet-3.7"))
                (get_default (action data) (lit "chat")) sid
                (map turn_of_row
                   (filter retained_row
                      (load_ordered sid
                         (insert_chat (ts_user e) sid (lit "user") msg st))))
                (insert_chat (ts_user e) sid (lit "user") msg st) HL) as [L B].
    split; [exact L|]. split.
    + intros H. apply B in H as (H & _). rewrite Ea in H. discriminate.
    + intros (H & _). rewrite Ea in H. discriminate.
  - destruct (str_eqb (get_default (action data) (lit "chat")) (lit "continue")) eqn:Ec;
      [|split; auto].
    rewrite load_msgs_transcript. intros _.
    destruct (@gen_waits e (get_default (model data) (lit "claude-sonnet-3.7"))
                (get_default (action data) (lit "chat")) sid
                (map turn_of_row (filter retained_row (load_ordered sid st))
                 ++ [continue_prompt]) st HL) as [L B].
    split; [exact L|]. rewrite B. split.
    + intros (H1 & H2 & H3). repeat split; auto. now exists sid.
    + intros (H1 & H2 & sid0 & [= <-] & H3). auto.
Qed.

Lemma chat_waits_witness :
  db_lock store_without_bot = false
  /\ request_encodable continue_request = true
  /\ match chat failing_env continue_request store_without_bot with
     | Stream run =>
       Forall (fun f => encodable f = true) (fragments run)
       /\ exists st', committed run = Blocks st'
     | _ => False
     end.
Proof.
  split; [reflexivity|]. split; [reflexivity|].
  pose proof (@chat_waits_only_on_continue_without_bot failing_env continue_request
                store_without_bot eq_refl eq_refl) as H.
  destruct (chat failing_env continue_request store_without_bot) as [? ? ?|run|?] eqn:E;
    try discriminate E.
  assert (F : fragments run <> []).
  { injection E as <-. discriminate. }
  assert (V : Forall (fun f => encodable f = true) (fragments run)).
  { injection E as <-. repeat constructor. }
  split; [exact V|].
  destruct (H V) as [_ H']. apply H'. clear H H'.
  split; [reflexivity|]. split; [exact F|]. now exists (lit "s").
Defined.

(* ================================================================== *)
(** * Writing, then reading *)
(* ================================================================== *)

Lemma insert_asc_last (r x : row) (l : list row) :
  (ts r <= ts x)%N -> insert_asc r (l ++ [x]) = insert_asc r l ++ [x].
Proof.
  intros H. induction l as [|y l IH]; simpl.
  - apply N.leb_le in H. now rewrite H.
  - destruct (ts r <=? ts y)%N; [reflexivity|]. now rewrite IH.
Qed.

Lemma order_by_ts_asc_last (l : list row) (x : row) :
  Forall (fun r => (ts r <= ts x)%N) l ->
  order_by_ts_asc (l ++ [x]) = order_by_ts_asc l ++ [x].
Proof.
  induction 1 as [|a l Ha _ IH]; simpl; [reflexivity|].
  rewrite IH. now apply insert_asc_last.
Qed.



Lemma load_msgs_app (rows more : list row) :
  map turn_of_row (filter retained_row (rows ++ more))
  = map turn_of_row (filter retained_row rows)
    ++ map turn_of_row (filter retained_row more).
Proof. now rewrite filter_app, map_app. Qed.

Lemma load_after_insert (now : N) (sid who msg : str) (st : store) :
  (forall r, In r (chats st) -> session_id r = sid -> (ts r <= now)%N) ->
  load_ordered sid (insert_chat now sid who msg st)
  = load_ordered sid st ++ [mkRow (next_id st) sid who msg now]
  /\ map turn_of_row (filter retained_row
                        (load_ordered sid (insert_chat now sid who msg st)))
     = map turn_of_row (filter retained_row (load_ordered sid st))
       ++ turns_of_message who msg.
Proof.
  intros Hts.
  assert (E : load_ordered sid (insert_chat now sid who msg st)
              = load_ordered sid st ++ [mkRow (next_id st) sid who msg now]).
  { unfold load_ordered, insert_chat; simpl. rewrite filter_app. simpl.
    unfold is_session at 2. simpl. rewrite str_eqb_refl.
    apply order_by_ts_asc_last. rewrite Forall_forall. intros r Hr.
    apply filter_In in Hr as [Hr Hs]. apply str_eqb_eq in Hs. simpl.
    now apply Hts. }
  split; [exact E|]. rewrite E, load_msgs_app. f_equal.
  simpl. unfold retained_row at 1, turns_of_message. simpl.
  now destruct (truthy_str (clean_message msg)).
Qed.

(** Read your write.  A message saved when the clock is not behind any row
    of the session is the last row [load_msgs] fetches, and the transcript
    is the one before followed by the entry of that message, if cleaning
    leaves something of it. *)
Theorem save_msg_then_load_msgs
  (now : N) (sid who msg : str) (st : store) :
  db_lock st = false ->
  (forall r, In r (chats st) -> session_id r = sid -> (ts r <= now)%N) ->
  exists st' transcript,
    save_msg now sid who msg st = Returns tt st'
    /\ load_ordered sid st'
       = load_ordered sid st ++ [mkRow (next_id st) sid who msg now]
    /\ load_msgs sid st = Returns transcript st
    /\ load_msgs sid st' = Returns (transcript ++ turns_of_message who msg) st'.
Proof.
  intros HL Hts. eexists _, _. split; [now apply save_msg_inserts|].
  destruct (@load_after_insert now sid who msg st Hts) as [E1 E2].
  split; [exact E1|]. split; [apply load_msgs_transcript|].
  now rewrite load_msgs_transcript, E2.
Qed.

Lemma save_msg_then_load_msgs_witness :
  db_lock store_with_bot = false
  /\ (forall r, In r (chats store_with_bot) -> session_id r = lit "s" -> (ts r <= 200)%N)
  /\ exists st',
       save_msg 200 (lit "s") (lit "user") (lit " more ") store_with_bot = Returns tt st'
       /\ load_msgs (lit "s") st'
          = Returns [mkTurn (lit "assistant") (lit "Hi"); mkTurn (lit "user") (lit "more")] st'.
Proof.
  assert (Hts : forall r, In r (chats store_with_bot) -> session_id r = lit "s" ->
                          (ts r <= 200)%N).
  { intros r [<-|[]] _. simpl. lia. }
  split; [reflexivity|]. split; [exact Hts|].
  destruct (@save_msg_then_load_msgs 200 (lit "s") (lit "user") (lit " more ")
              store_with_bot eq_refl Hts) as (st' & t & E1 & _ & E3 & E4).
  exists st'. split; [exact E1|]. rewrite E4. f_equal.
  injection E3 as <-. reflexivity.
Defined.



(* ================================================================== *)
(** * A whole exchange *)
(* ================================================================== *)

Lemma stream_ignores_history (up : post_result) (h1 h2 : list turn) :
  stream_claude_sonnet up h1 = stream_claude_sonnet up h2.
Proof. reflexivity. Qed.

Lemma concat_not_empty (ds : list str) :
  ds <> [] -> Forall (fun d => d <> []) ds -> List.concat ds <> [].
Proof.
  intros H F. destruct ds as [|d ds]; [contradiction|].
  inversion F as [|? ? Hd _]; subst. simpl.
  intros E. apply app_eq_nil in E as [E _]. contradiction.
Qed.

(** A whole exchange.  For the action "chat" and the supported model, when
    the upstream answers with the text deltas [ds], not all missing: the
    user's message is stored, the transcript POSTed is the transcript before
    followed by that message, the client is sent exactly [ds], and the
    deltas joined are stored as one bot message.  With a clock that does
    not run backwards, the transcript of the session is then the one
    before followed by the user's message and the answer.  The session,
    the user's message and the deltas are texts that can be encoded: on a
    lone surrogate the insert or the response raises instead. *)
Theorem chat_exchange
  (e : env) (sid txt msg : str) (mo ao : option str)
  (file_info : option (list (str * str))) (ds : list str) (st : store) :
  db_lock st = false ->
  get_default mo (lit "claude-sonnet-3.7") = supported_model ->
  get_default ao (lit "chat") = lit "chat" ->
  user_message_to_save file_info txt = inr msg ->
  stream_claude_sonnet (upstream e) [] = map JStr ds ->
  ds <> [] ->
  (forall r, In r (chats st) -> session_id r = sid -> (ts r <= ts_user e)%N) ->
  (ts_user e <= ts_bot e)%N ->
  encodable sid = true ->
  encodable msg = true ->
  Forall (fun d => encodable d = true) ds ->
  exists before st',
    load_msgs sid st = Returns before st
    /\ st' = insert_chat (ts_bot e) sid (lit "bot") (List.concat ds)
               (insert_chat (ts_user e) sid (lit "user") msg st)
    /\ chat e (mkRequest (Some sid) mo ao (Some txt) file_info) st
       = Stream (mkGenRun ds
                   [before ++ turns_of_message (lit "user") msg]
                   (Returns tt st'))
    /\ load_msgs sid st'
       = Returns (before ++ turns_of_message (lit "user") msg
                  ++ turns_of_message (lit "bot") (List.concat ds)) st'.
Proof.
  intros HL Hm Ha Hu Hs Hds Ht1 Ht2 _ _ _.
  eexists _, _. split; [apply load_msgs_transcript|]. split; [reflexivity|].
  destruct (@load_after_insert (ts_user e) sid (lit "user") msg st Ht1) as [E1 E2].
  assert (Hne : List.concat ds <> []).
  { apply concat_not_empty; [exact Hds|]. rewrite Forall_forall. intros d Hd.
    pose proof (stream_truthy (upstream e) []) as T.
    rewrite Hs in T. rewrite Forall_forall in T.
    specialize (T (JStr d) (in_map JStr _ _ Hd)). simpl in T.
    now apply truthy_str_true. }
  split.
  - unfold chat. cbn [session model action text fileInfo subscript].
    rewrite Ha, str_eqb_refl, Hu, Hm. unfold bind.
    rewrite save_msg_inserts by exact HL. rewrite load_msgs_transcript, E2.
    rewrite gen_supported.
    rewrite (stream_ignores_history (upstream e) _ []), Hs.
    rewrite gen_loop_strs. cbn [fst snd app].
    rewrite gen_commit_otherwise by (exact Hne || discriminate).
    rewrite save_msg_inserts by exact HL. reflexivity.
  - rewrite load_msgs_transcript.
    destruct (@load_after_insert (ts_bot e) sid (lit "bot") (List.concat ds)
                (insert_chat (ts_user e) sid (lit "user") msg st)) as [_ E4].
    { intros r Hr Hsid. unfold insert_chat in Hr; simpl in Hr.
      apply in_app_or in Hr as [Hr|[<-|[]]].
      - specialize (Ht1 _ Hr Hsid). lia.
      - simpl. exact Ht2. }
    now rewrite E4, E2, <- app_assoc.
Qed.

Lemma chat_exchange_witness :
  db_lock store_with_bot = false
  /\ stream_claude_sonnet (PostResponse 200 [] hello_body) []
     = map JStr [lit "Hel"; lit "lo"]
  /\ encodable (lit "s") = true
  /\ encodable (lit "Say hello") = true
  /\ Forall (fun d => encodable d = true) [lit "Hel"; lit "lo"]
  /\ exists st',
       chat (mkEnv (PostResponse 200 [] hello_body) 200 201)
            (mkRequest (Some (lit "s")) None None (Some (lit "Say hello")) None)
            store_with_bot
       = Stream (mkGenRun [lit "Hel"; lit "lo"]
                   [[mkTurn (lit "assistant") (lit "Hi");
                     mkTurn (lit "user") (lit "Say hello")]]
                   (Returns tt st'))
       /\ load_msgs (lit "s") st'
          = Returns [mkTurn (lit "assistant") (lit "Hi");
                     mkTurn (lit "user") (lit "Say hello");
                     mkTurn (lit "assistant") (lit "Hello")] st'.
Proof.
  assert (Hs : stream_claude_sonnet (PostResponse 200 [] hello_body) []
               = map JStr [lit "Hel"; lit "lo"]) by (vm_compute; reflexivity).
  assert (Hd : Forall (fun d => encodable d = true) [lit "Hel"; lit "lo"])
    by (repeat constructor).
  split; [reflexivity|]. split; [exact Hs|].
  split; [reflexivity|]. split; [reflexivity|]. split; [exact Hd|].
  destruct (@chat_exchange (mkEnv (PostResponse 200 [] hello_body) 200 201)
              (lit "s") (lit "Say hello") (lit "Say hello") None None None
              [lit "Hel"; lit "lo"] store_with_bot
              eq_refl eq_refl eq_refl eq_refl Hs)
    as (before & st' & E1 & _ & E3 & E4).
  - discriminate.
  - intros r [<-|[]] _. simpl. lia.
  - simpl. lia.
  - reflexivity.
  - reflexivity.
  - exact Hd.
  - exists st'. injection E1 as <-. split; [exact E3 | exact E4].
Defined.

(* ================================================================== *)
(** * What a transcript never holds *)
(* ================================================================== *)

Lemma transcript_role_not_bot (r : str) : transcript_role r <> lit "bot".
Proof.
  unfold transcript_role. destruct (str_eqb r (lit "bot")) eqn:E; [discriminate|].
  now apply str_eqb_neq.
Qed.

(** Every entry of a transcript comes from a row of the session, has a
    content that is not empty and neither starts nor ends with white space,
    and a role other than "bot"; the entries are at most as many as the
    rows of the session. *)
Theorem transcript_entries_are_clean (sid : str) (st : store) :
  exists transcript,
    load_msgs sid st = Returns transcript st
    /\ Forall (fun t =>
                 content t <> []
                 /\ (forall c y, content t = c :: y -> isspace c = false)
                 /\ (forall c y, content t = y ++ [c] -> isspace c = false)
                 /\ turn_role t <> lit "bot"
                 /\ exists r, In r (chats st) /\ session_id r = sid
                              /\ t = turn_of_row r)
              transcript
    /\ List.length transcript <= List.length (filter (is_session sid) (chats st)).
Proof.
  eexists. split; [apply load_msgs_transcript|]. split.
  - rewrite Forall_map, Forall_forall. intros r Hr.
    apply filter_In in Hr as [Hr Hk]. unfold retained_row in Hk.
    apply truthy_str_true in Hk.
    destruct (strip_trims (re_sub_think (message r))) as (_ & Hh & Ht).
    unfold turn_of_row; simpl. repeat split; auto.
    + apply transcript_role_not_bot.
    + exists r. repeat split; auto.
      * unfold load_ordered in Hr. eapply Permutation_in in Hr;
          [|symmetry; apply order_by_ts_asc_perm].
        now apply filter_In in Hr as [Hr _].
      * unfold load_ordered in Hr. eapply Permutation_in in Hr;
          [|symmetry; apply order_by_ts_asc_perm].
        apply filter_In in Hr as [_ Hs]. now apply str_eqb_eq.
  - rewrite length_map.
    etransitivity; [apply filter_length_le|].
    unfold load_ordered.
    now rewrite <- (Permutation_length (order_by_ts_asc_perm _)).
Qed.

Lemma match_think_needs_bracket (s : str) :
  ~ In 60%N s -> match_think s = None.
Proof.
  intros H. unfold match_think.
  destruct (match_literal_ci open_tag s) as [rest|] eqn:E; [|reflexivity].
  exfalso. destruct s as [|c s]; [discriminate|].
  change open_tag with (60%N :: lit "think>") in E. cbn [match_literal_ci] in E.
  destruct (char_matches_ci 60 c) eqn:Ec; [|discriminate].
  unfold char_matches_ci in Ec. cbn in Ec. rewrite !orb_false_r in Ec.
  apply N.eqb_eq in Ec. apply H. now left.
Qed.

Lemma re_sub_think_without_bracket (s : str) :
  ~ In 60%N s -> re_sub_think s = s.
Proof.
  induction s as [|c s IH]; intros H; [reflexivity|].
  rewrite re_sub_think_keep by now apply match_think_needs_bracket.
  rewrite IH; [reflexivity|]. intros Hin. apply H. now right.
Qed.

(** A message without the character [<] goes into the transcript as it is,
    but for the white space around it. *)
Theorem message_without_bracket_is_only_trimmed (m : str) :
  ~ In 60%N m -> clean_message m = strip m.
Proof.
  intros H. unfold clean_message. now rewrite re_sub_think_without_bracket.
Qed.

Lemma message_without_bracket_witness :
  ~ In 60%N (lit "  hello ") /\ clean_message (lit "  hello ") = lit "hello".
Proof.
  assert (H : ~ In 60%N (lit "  hello ")).
  { intros Hin. repeat (destruct Hin as [Hin|Hin]; [discriminate|]). exact Hin. }
  split; [exact H|].
  rewrite (@message_without_bracket_is_only_trimmed (lit "  hello ") H).
  reflexivity.
Defined.

(* ================================================================== *)
(** * The action "continue" adds no row *)
(* ================================================================== *)

Lemma update_message_keeps_keys (msg : str) (i : N) (st : store) :
  map row_key (chats (update_message msg i st)) = map row_key (chats st).
Proof.
  unfold update_message; simpl. rewrite map_map. apply map_ext.
  intros r. now destruct (N.eqb (id r) i).
Qed.

Lemma update_last_keeps_keys (now : N) (sid d : str) (st : store) :
  map row_key (chats (store_of_outcome (update_last_bot_message now sid d st)))
  = map row_key (chats st).
Proof.
  unfold update_last_bot_message, with_db_lock.
  destruct (db_lock st); [reflexivity|].
  destruct (select_last_bot sid (set_lock true st)) as [r|].
  - exact (@update_message_keeps_keys (message r ++ d) (id r) (set_lock true st)).
  - now rewrite save_msg_blocks.
Qed.

(** The action "continue" never adds, removes or moves a row, and changes
    no rowid, session, role or timestamp: the instruction to continue that
    is sent upstream is never stored, whatever the upstream answers. *)
Theorem continue_adds_no_row (e : env) (data : request) (st : store) :
  get_default (action data) (lit "chat") = lit "continue" ->
  map row_key (chats (final_store (chat e data st))) = map row_key (chats st).
Proof.
  intros Ha. unfold chat, subscript, server_error.
  destruct (session data) as [sid|]; [|reflexivity].
  rewrite Ha. change (str_eqb (lit "continue") (lit "chat")) with false.
  rewrite str_eqb_refl, load_msgs_transcript. cbn [final_store].
  rewrite gen_committed. unfold gen_commit.
  destruct (truthy_str _); [|reflexivity].
  rewrite str_eqb_refl. apply update_last_keeps_keys.
Qed.

Lemma continue_adds_no_row_witness :
  get_default (action continue_request) (lit "chat") = lit "continue"
  /\ map row_key (chats (final_store (chat failing_env continue_request store_with_bot)))
     = map row_key (chats store_with_bot).
Proof.
  split; [reflexivity|].
  exact (@continue_adds_no_row failing_env continue_request store_with_bot eq_refl).
Defined.

(* ================================================================== *)
(** * Every text can be delivered as a delta *)
(* ================================================================== *)

Lemma hex4_of_control (c : N) :
  (c <? 32)%N = true ->
  hex4 48 48 (digit_char (c / 16)) (digit_char (c mod 16)) = Some c.
Proof.
  intros H. apply N.ltb_lt in H.
  assert (A : forallb (fun c => match hex4 48 48 (digit_char (c / 16))
                                          (digit_char (c mod 16)) with
                                | Some x => N.eqb x c
                                | None => false
                                end)
                      (map N.of_nat (List.seq 0 32)) = true) by (vm_compute; reflexivity).
  rewrite forallb_forall in A. specialize (A c).
  destruct (hex4 48 48 (digit_char (c / 16)) (digit_char (c mod 16))) as [x|].
  - f_equal. apply N.eqb_eq, A. apply in_map_iff. exists (N.to_nat c).
    split; [apply N2Nat.id|]. apply in_seq. lia.
  - exfalso. assert (F : false = true); [|discriminate F].
    apply A. apply in_map_iff. exists (N.to_nat c).
    split; [apply N2Nat.id|]. apply in_seq. lia.
Qed.

Lemma control_is_no_surrogate (c : N) :
  (c <? 32)%N = true -> is_high_surrogate c = false.
Proof.
  intros H. apply N.ltb_lt in H. unfold is_high_surrogate.
  apply andb_false_iff. left. apply N.leb_gt. lia.
Qed.

(** [scanstring] after a [\u] escape of a character that is no high
    surrogate: the character, then the rest. *)
Lemma scanstring_escape_u (a b c d hi : N) (s3 : str) :
  hex4 a b c d = Some hi -> is_high_surrogate hi = false ->
  scanstring (92 :: 117 :: a :: b :: c :: d :: s3)%N = cons_char hi (scanstring s3).
Proof.
  intros Hh Hs. cbn [scanstring]. cbn [N.eqb Pos.eqb]. rewrite Hh, Hs.
  cbn [andb].
  destruct s3 as [|b1 [|b2 [|a' [|b' [|c' [|d' s4]]]]]]; try reflexivity.
  now destruct (hex4 a' b' c' d').
Qed.

(** Reading back what [json_escape] wrote. *)
Lemma scanstring_json_escape (d rest : str) :
  scanstring (json_escape d ++ 34%N :: rest) = Some (d, rest).
Proof.
  induction d as [|c d IH]; [reflexivity|].
  unfold json_escape in *. cbn [flat_map]. rewrite <- app_assoc.
  unfold json_escape_char at 1.
  destruct (c =? 34)%N eqn:E34.
  { apply N.eqb_eq in E34. subst c. cbn [app scanstring]. cbn [N.eqb Pos.eqb].
    cbn [simple_escape N.eqb Pos.eqb]. now rewrite IH. }
  destruct (c =? 92)%N eqn:E92.
  { apply N.eqb_eq in E92. subst c. cbn [app scanstring]. cbn [N.eqb Pos.eqb].
    cbn [simple_escape N.eqb Pos.eqb]. now rewrite IH. }
  destruct (c <? 32)%N eqn:E32.
  - unfold hex2. cbn [app].
    rewrite (@scanstring_escape_u 48 48 _ _ c _ (hex4_of_control _ E32)
               (control_is_no_surrogate _ E32)).
    now rewrite IH.
  - cbn [app scanstring]. rewrite E34, E92, E32. now rewrite IH.
Qed.

Lemma scan_record (x d : str) :
  scanstring x = Some (d, [125%N]) ->
  scan_once 4 (123%N :: quoted "'type':'text-delta','delta':" ++ 34%N :: x)
  = Some (JDict [(lit "type", JStr (lit "text-delta")); (lit "delta", JStr d)], []).
Proof.
  intros Hd. vm_compute (quoted "'type':'text-delta','delta':").
  cbn. rewrite Hd. reflexivity.
Qed.

Lemma text_delta_record_loads (d : str) :
  json_loads (text_delta_record d)
  = Some (JDict [(lit "type", JStr (lit "text-delta")); (lit "delta", JStr d)]).
Proof.
  pose proof (@scan_record (json_escape d ++ [34; 125]%N) d
                (scanstring_json_escape d [125%N])) as H.
  unfold json_loads.
  change (text_delta_record d)
    with (123%N :: quoted "'type':'text-delta','delta':"
            ++ 34%N :: json_escape d ++ [34; 125]%N).
  cbv beta iota.
  rewrite (@json_loads_fuel_enough 4
             (123%N :: quoted "'type':'text-delta','delta':"
                ++ 34%N :: json_escape d ++ [34; 125]%N) _ [] H).
  reflexivity.
Qed.

Lemma text_delta_record_not_done (d : str) :
  str_eqb (text_delta_record d) (lit "[DONE]") = false.
Proof. reflexivity. Qed.

Lemma handle_text_delta (line : bytes) (d : str) (prefixed : bool) :
  utf8_decode line
  = inr ((if prefixed then lit "data: " else []) ++ text_delta_record d) ->
  handle_line line = inr (if truthy_str d then [JStr d] else []).
Proof.
  intros H. unfold handle_line. rewrite H.
  assert (E : (if startswith (lit "data: ")
                    ((if prefixed then lit "data: " else []) ++ text_delta_record d)
               then slice_from 6
                    ((if prefixed then lit "data: " else []) ++ text_delta_record d)
               else (if prefixed then lit "data: " else []) ++ text_delta_record d)
              = text_delta_record d).
  { destruct prefixed.
    - rewrite startswith_app. reflexivity.
    - reflexivity. }
  rewrite E, text_delta_record_not_done, text_delta_record_loads.
  cbn [dict_get]. change (str_eqb (lit "type") (lit "type")) with true.
  cbn iota. rewrite str_eqb_refl.
  change (str_eqb (lit "type") (lit "delta")) with false.
  change (str_eqb (lit "delta") (lit "delta")) with true.
  cbn iota. cbn [truthy]. now destruct (truthy_str d).
Qed.

(** Every text can be delivered.  When each line of the body decodes to
    the record [{"type":"text-delta","delta":...}] carrying a text, after
    the prefix ["data: "] or without it, and the line [data: [DONE]] ends
    the body, the adapter yields the texts that are not empty, in the
    order of the lines, and nothing else. *)
Theorem deltas_are_streamed_in_order
  (status_code : N) (http_error : str) (lines : list bytes) (ds : list str)
  (chat_history : list turn) :
  is_error_status status_code = false ->
  Forall2 (fun line d =>
             exists prefixed : bool,
               utf8_decode line
               = inr ((if prefixed then lit "data: " else [])
                      ++ text_delta_record d))
          lines ds ->
  stream_claude_sonnet
    (PostResponse status_code http_error
       (map Line lines ++ [Line (json_line "data: [DONE]")]))
    chat_history
  = map JStr (filter truthy_str ds).
Proof.
  intros Hs H. unfold stream_claude_sonnet. rewrite Hs.
  assert (E : iter_lines_loop (map Line lines ++ [Line (json_line "data: [DONE]")])
              = (map JStr (filter truthy_str ds), None)).
  { induction H as [|line d lines ds [prefixed Hl] _ IH]; [reflexivity|].
    cbn [map app iter_lines_loop].
    destruct line as [|b line].
    { exfalso. destruct prefixed; discriminate Hl. }
    rewrite (handle_text_delta _ _ prefixed Hl), IH. cbn [filter].
    now destruct (truthy_str d). }
  now rewrite E.
Qed.

Lemma deltas_are_streamed_witness :
  is_error_status 200 = false
  /\ stream_claude_sonnet (PostResponse 200 [] hello_body) []
     = map JStr (filter truthy_str [lit "Hel"; lit "lo"]).
Proof.
  split; [reflexivity|].
  apply (@deltas_are_streamed_in_order 200 []
           [json_line "data: {'type':'text-delta','delta':'Hel'}";
            json_line "data: {'type':'text-delta','delta':'lo'}"]
           [lit "Hel"; lit "lo"] [] eq_refl).
  repeat constructor; exists true; vm_compute; reflexivity.
Defined.

(* ================================================================== *)
(** * A delta that is no text *)
(* ================================================================== *)




(* ================================================================== *)
(** * The file reference of a user message *)
(* ================================================================== *)

Lemma file_info_get_missing (k : str) (d : list (str * str)) :
  (forall v, ~ In (k, v) d) -> file_info_get k d = inl (KeyError k).
Proof.
  induction d as [|[k' v] d IH]; intros H; simpl; [reflexivity|].
  destruct (str_eqb k' k) eqn:E.
  - apply str_eqb_eq in E. subst k'. exfalso. apply (H v). now left.
  - apply IH. intros v' Hin. apply (H v'). now right.
Qed.

(** The file reference.  For the action "chat" with the lock free: when
    the attachment data of the request has a name, and the session and the
    message built can be encoded, the user row stored is the line
    ["[File: name]"] followed by the text; when the attachment data is
    there, not empty, and has no name, the request is answered with status
    500 and nothing is stored. *)
Theorem chat_stores_the_file_reference
  (e : env) (sid txt : str) (mo ao : option str)
  (d : list (str * str)) (st : store) :
  db_lock st = false ->
  get_default ao (lit "chat") = lit "chat" ->
  d <> [] ->
  (forall name,
     file_info_get (lit "name") d = inr name ->
     encodable sid = true ->
     encodable (lit "[File: " ++ name ++ lit "]" ++ newline ++ txt) = true ->
     exists rows,
       chats (final_store (chat e (mkRequest (Some sid) mo ao (Some txt) (Some d)) st))
       = chats st
         ++ mkRow (next_id st) sid (lit "user")
              (lit "[File: " ++ name ++ lit "]" ++ newline ++ txt) (ts_user e)
            :: rows)
  /\ ((forall v, ~ In (lit "name", v) d) ->
      chat e (mkRequest (Some sid) mo ao (Some txt) (Some d)) st
      = Reply 500 (lit "Server error: 'name'") st).
Proof.
  intros HL Ha Hd. unfold chat.
  cbn [session model action text fileInfo subscript]. rewrite Ha, str_eqb_refl.
  destruct d as [|kv d]; [contradiction|]. cbn [user_message_to_save].
  split.
  - intros name Hn _ _. rewrite Hn. unfold bind.
    rewrite save_msg_inserts by exact HL. rewrite load_msgs_transcript.
    cbn [final_store]. rewrite gen_committed. unfold gen_commit.
    destruct (truthy_str _); [|now exists []].
    change (str_eqb (lit "chat") (lit "continue")) with false. cbn iota.
    rewrite save_msg_inserts by exact HL. cbn [store_of_outcome].
    eexists. unfold insert_chat at 1. cbn [chats]. unfold insert_chat at 1.
    cbn [chats]. rewrite <- app_assoc. reflexivity.
  - intros Hm. now rewrite (@file_info_get_missing (lit "name") (kv :: d) Hm).
Qed.

Lemma chat_file_reference_witness :
  db_lock store_with_bot = false
  /\ [(lit "name", lit "a.py")] <> []
  /\ file_info_get (lit "name") [(lit "name", lit "a.py")] = inr (lit "a.py")
  /\ encodable (lit "s") = true
  /\ encodable (lit "[File: " ++ lit "a.py" ++ lit "]" ++ newline ++ lit "hello") = true
  /\ exists rows,
       chats (final_store (chat failing_env chat_request_with_file store_with_bot))
       = chats store_with_bot
         ++ mkRow 2 (lit "s") (lit "user")
              (lit "[File: " ++ lit "a.py" ++ lit "]" ++ newline ++ lit "hello") 200
            :: rows.
Proof.
  assert (Hd : [(lit "name", lit "a.py")] <> []) by discriminate.
  split; [reflexivity|]. split; [exact Hd|]. split; [reflexivity|].
  split; [reflexivity|]. split; [reflexivity|].
  exact (proj1 (@chat_stores_the_file_reference failing_env (lit "s") (lit "hello")
                  None None [(lit "name", lit "a.py")] store_with_bot
                  eq_refl eq_refl Hd)
               (lit "a.py") eq_refl eq_refl eq_refl).
Defined.

(* ================================================================== *)
(** * The payload carries the transcript *)
(* ================================================================== *)

Lemma api_messages_carry (uuid4 : nat -> str) (chat_history : list turn) :
  forall k,
    map turn_of_api_message (api_messages uuid4 k chat_history)
    = map Some chat_history
    /\ Forall (fun m => exists i, json_get "id" m = JStr i /\ List.length i <= 12)
              (api_messages uuid4 k chat_history).
Proof.
  induction chat_history as [|[r c] h IH]; intros k; [split; constructor|].
  destruct (IH (S k)) as [E F]. cbn [api_messages map]. split.
  - rewrite E. reflexivity.
  - constructor; [|exact F]. exists (short_id (uuid4 k)).
    split; [reflexivity|]. unfold short_id. rewrite length_firstn. lia.
Qed.

(** The body POSTed upstream carries the transcript as it is: one message
    for each entry, in the same order, with the entry's role and content
    as its only text part; every message has an identifier of at most
    twelve characters; the model asked for is always "sonnet-3.7". *)
Theorem payload_carries_the_transcript (uuid4 : nat -> str) (chat_history : list turn) :
  exists ms,
    json_get "messages" (payload uuid4 chat_history) = JList ms
    /\ map turn_of_api_message ms = map Some chat_history
    /\ List.length ms = List.length chat_history
    /\ Forall (fun m => exists i, json_get "id" m = JStr i /\ List.length i <= 12) ms
    /\ json_get "selectedModelId" (payload uuid4 chat_history)
       = JStr (lit "sonnet-3.7").
Proof.
  exists (api_messages uuid4 0 chat_history).
  destruct (@api_messages_carry uuid4 chat_history 0) as [E F].
  split; [reflexivity|]. split; [exact E|]. split.
  - rewrite <- (length_map turn_of_api_message), E. apply length_map.
  - split; [exact F | reflexivity].
Qed.

(* ================================================================== *)
(** * UTF-8: decoding and encoding are inverse *)
(* ================================================================== *)

Lemma low6_cont (c : N) : is_cont c = true -> low6 c = (c - 128)%N.
Proof.
  unfold is_cont, low6. intros H. apply andb_prop in H as [H1 H2].
  apply N.leb_le in H1, H2.
  change 63%N with (N.ones 6). rewrite N.land_ones.
  change (2 ^ 6)%N with 64%N. lia_div.
Qed.

Lemma low6_tail (x : N) :
  (x < 64)%N -> low6 (128 + x) = x /\ is_cont (128 + x) = true.
Proof.
  intros H. split.
  - unfold low6. change 63%N with (N.ones 6). rewrite N.land_ones.
    change (2 ^ 6)%N with 64%N. lia_div.
  - unfold is_cont. apply andb_true_intro. split; apply N.leb_le; lia.
Qed.

Lemma is_scalar_value_intro (c : N) :
  (c < 55296 \/ 57344 <= c <= 1114111)%N -> is_scalar_value c = true.
Proof.
  intros [H|[H1 H2]]; unfold is_scalar_value.
  - apply orb_true_intro. left. apply N.ltb_lt. exact H.
  - apply orb_true_intro. right. apply andb_true_intro.
    split; apply N.leb_le; assumption.
Qed.

Section Utf8.
Local Open Scope N_scope.

Lemma encode2 (c0 c1 : N) :
  0xC2 <= c0 -> c0 < 0xE0 -> is_cont c1 = true ->
  utf8_encode_cp (N.shiftl (N.land c0 0x1F) 6 + low6 c1) = [c0; c1]
  /\ is_scalar_value (N.shiftl (N.land c0 0x1F) 6 + low6 c1) = true.
Proof.
  intros H0 H0' H1. rewrite (low6_cont _ H1).
  unfold is_cont in H1. apply andb_prop in H1 as [H1 H2].
  apply N.leb_le in H1, H2.
  change 31 with (N.ones 5). rewrite N.land_ones, N.shiftl_mul_pow2.
  change (2 ^ 5) with 32. change (2 ^ 6) with 64.
  assert (E : c0 mod 32 = c0 - 192) by lia_div. rewrite E.
  split; [|apply is_scalar_value_intro; lia].
  unfold utf8_encode_cp.
  destruct (N.ltb_spec ((c0 - 192) * 64 + (c1 - 128)) 128); [lia|].
  destruct (N.ltb_spec ((c0 - 192) * 64 + (c1 - 128)) 2048); [|lia].
  f_equal; [lia_div|]. f_equal. lia_div.
Qed.

Lemma encode3 (c0 c1 c2 : N) :
  0xE0 <= c0 -> c0 < 0xF0 -> is_cont c1 = true -> is_cont c2 = true ->
  (if c1 <? 0xA0 then c0 =? 0xE0 else c0 =? 0xED) = false ->
  utf8_encode_cp (N.shiftl (N.land c0 0x0F) 12 + N.shiftl (low6 c1) 6 + low6 c2)
  = [c0; c1; c2]
  /\ is_scalar_value (N.shiftl (N.land c0 0x0F) 12 + N.shiftl (low6 c1) 6
                      + low6 c2) = true.
Proof.
  intros H0 H0' H1 H2 Hs. rewrite (low6_cont _ H1), (low6_cont _ H2).
  unfold is_cont in H1, H2.
  apply andb_prop in H1 as [H1 H1'], H2 as [H2 H2'].
  apply N.leb_le in H1, H1', H2, H2'.
  change 15 with (N.ones 4). rewrite N.land_ones, !N.shiftl_mul_pow2.
  change (2 ^ 4) with 16. change (2 ^ 6) with 64. change (2 ^ 12) with 4096.
  assert (E : c0 mod 16 = c0 - 224) by lia_div. rewrite E.
  assert (L : 2048 <= (c0 - 224) * 4096 + (c1 - 128) * 64 + (c2 - 128)
              /\ ((c0 - 224) * 4096 + (c1 - 128) * 64 + (c2 - 128) < 55296
                  \/ 57344 <= (c0 - 224) * 4096 + (c1 - 128) * 64 + (c2 - 128))).
  { destruct (N.ltb_spec c1 160); apply N.eqb_neq in Hs; lia. }
  destruct L as [L S].
  split; [|apply is_scalar_value_intro; lia].
  unfold utf8_encode_cp.
  destruct (N.ltb_spec ((c0 - 224) * 4096 + (c1 - 128) * 64 + (c2 - 128)) 128); [lia|].
  destruct (N.ltb_spec ((c0 - 224) * 4096 + (c1 - 128) * 64 + (c2 - 128)) 2048); [lia|].
  destruct (N.ltb_spec ((c0 - 224) * 4096 + (c1 - 128) * 64 + (c2 - 128)) 65536); [|lia].
  f_equal; [lia_div|]. f_equal; [lia_div|]. f_equal. lia_div.
Qed.

Lemma encode4 (c0 c1 c2 c3 : N) :
  0xF0 <= c0 -> c0 < 0xF5 -> is_cont c1 = true -> is_cont c2 = true ->
  is_cont c3 = true ->
  (if c1 <? 0x90 then c0 =? 0xF0 else c0 =? 0xF4) = false ->
  utf8_encode_cp (N.shiftl (N.land c0 0x07) 18 + N.shiftl (low6 c1) 12
                  + N.shiftl (low6 c2) 6 + low6 c3)
  = [c0; c1; c2; c3]
  /\ is_scalar_value (N.shiftl (N.land c0 0x07) 18 + N.shiftl (low6 c1) 12
                      + N.shiftl (low6 c2) 6 + low6 c3) = true.
Proof.
  intros H0 H0' H1 H2 H3 Hs.
  rewrite (low6_cont _ H1), (low6_cont _ H2), (low6_cont _ H3).
  unfold is_cont in H1, H2, H3.
  apply andb_prop in H1 as [H1 H1'], H2 as [H2 H2'], H3 as [H3 H3'].
  apply N.leb_le in H1, H1', H2, H2', H3, H3'.
  change 7 with (N.ones 3). rewrite N.land_ones, !N.shiftl_mul_pow2.
  change (2 ^ 3) with 8. change (2 ^ 6) with 64. change (2 ^ 12) with 4096.
  change (2 ^ 18) with 262144.
  assert (E : c0 mod 8 = c0 - 240) by lia_div. rewrite E.
  assert (L : 65536 <= (c0 - 240) * 262144 + (c1 - 128) * 4096
                       + (c2 - 128) * 64 + (c3 - 128) <= 1114111).
  { destruct (N.ltb_spec c1 144); apply N.eqb_neq in Hs; lia. }
  split; [|apply is_scalar_value_intro; lia].
  unfold utf8_encode_cp.
  destruct (N.ltb_spec ((c0 - 240) * 262144 + (c1 - 128) * 4096
                       + (c2 - 128) * 64 + (c3 - 128)) 128); [lia|].
  destruct (N.ltb_spec ((c0 - 240) * 262144 + (c1 - 128) * 4096
                       + (c2 - 128) * 64 + (c3 - 128)) 2048); [lia|].
  destruct (N.ltb_spec ((c0 - 240) * 262144 + (c1 - 128) * 4096
                       + (c2 - 128) * 64 + (c3 - 128)) 65536); [lia|].
  f_equal; [lia_div|]. f_equal; [lia_div|]. f_equal; [lia_div|]. f_equal. lia_div.
Qed.

Lemma cons_cp_inr (c : N) (r : decode_error + str) (s : str) :
  cons_cp c r = inr s -> exists s', r = inr s' /\ s = c :: s'.
Proof. destruct r; simpl; intros H; [discriminate|]. injection H as <-. eauto. Qed.

(** What decodes, encodes back to the same bytes; it holds scalar values
    only, and at most as many as there are bytes. *)
Lemma utf8_decode_at_encode (n : nat) : forall b pos s,
  (List.length b <= n)%nat ->
  utf8_decode_at pos b = inr s ->
  utf8_encode s = b
  /\ forallb is_scalar_value s = true
  /\ (List.length s <= List.length b)%nat.
Proof.
  induction n as [|n IH]; intros b pos s Hn H.
  - destruct b; [|simpl in Hn; lia]. simpl in H. injection H as <-.
    repeat split; auto.
  - destruct b as [|c0 t0]; [simpl in H; injection H as <-; repeat split; auto|].
    cbn [utf8_decode_at] in H.
    destruct (N.ltb_spec c0 128) as [A|A].
    { apply cons_cp_inr in H as (s' & H & ->).
      apply IH in H as (H & V & L); [|simpl in Hn; lia].
      split; [|split; [|simpl; lia]].
      - unfold utf8_encode in *. simpl. rewrite H. unfold utf8_encode_cp.
        destruct (N.ltb_spec c0 128); [reflexivity|lia].
      - cbn [forallb]. rewrite V, is_scalar_value_intro; [reflexivity|lia]. }
    destruct (N.ltb_spec c0 194) as [B|B]; [discriminate|].
    destruct (N.ltb_spec c0 224) as [C|C].
    { destruct t0 as [|c1 t1]; [discriminate|].
      destruct (is_cont c1) eqn:K1; [|discriminate].
      apply cons_cp_inr in H as (s' & H & ->).
      apply IH in H as (H & V & L); [|simpl in Hn; lia].
      destruct (@encode2 c0 c1 B C K1) as [E S].
      split; [|split; [|simpl; lia]].
      - unfold utf8_encode in *. cbn [flat_map]. now rewrite H, E.
      - cbn [forallb]. now rewrite V, S. }
    destruct (N.ltb_spec c0 240) as [D|D].
    { destruct t0 as [|c1 t1]; [discriminate|].
      destruct (is_cont c1) eqn:K1; [|discriminate]. cbn [negb orb] in H.
      destruct (if c1 <? 160 then c0 =? 224 else c0 =? 237) eqn:Hs; [discriminate|].
      destruct t1 as [|c2 t2]; [discriminate|].
      destruct (is_cont c2) eqn:K2; [|discriminate].
      apply cons_cp_inr in H as (s' & H & ->).
      apply IH in H as (H & V & L); [|simpl in Hn; lia].
      destruct (@encode3 c0 c1 c2 C D K1 K2 Hs) as [E S].
      split; [|split; [|simpl; lia]].
      - unfold utf8_encode in *. cbn [flat_map]. now rewrite H, E.
      - cbn [forallb]. now rewrite V, S. }
    destruct (N.ltb_spec c0 245) as [E'|E']; [|discriminate].
    destruct t0 as [|c1 t1]; [discriminate|].
    destruct (is_cont c1) eqn:K1; [|discriminate]. cbn [negb orb] in H.
    destruct (if c1 <? 144 then c0 =? 240 else c0 =? 244) eqn:Hs; [discriminate|].
    destruct t1 as [|c2 t2]; [discriminate|].
    destruct (is_cont c2) eqn:K2; [|discriminate]. cbn [negb] in H.
    destruct t2 as [|c3 t3]; [discriminate|].
    destruct (is_cont c3) eqn:K3; [|discriminate].
    apply cons_cp_inr in H as (s' & H & ->).
    apply IH in H as (H & V & L); [|simpl in Hn; lia].
    destruct (@encode4 c0 c1 c2 c3 D E' K1 K2 K3 Hs) as [E S].
    split; [|split; [|simpl; lia]].
    + unfold utf8_encode in *. cbn [flat_map]. now rewrite H, E.
    + cbn [forallb]. now rewrite V, S.
Qed.

Lemma decode_encode_cp (c : N) (rest : list N) (pos : nat) :
  is_scalar_value c = true ->
  exists k, utf8_decode_at pos (utf8_encode_cp c ++ rest)
            = cons_cp c (utf8_decode_at (k + pos) rest).
Proof.
  intros V. unfold is_scalar_value in V.
  assert (R : c < 55296 \/ 57344 <= c <= 1114111).
  { apply orb_prop in V as [V|V]; [left; apply N.ltb_lt; exact V|].
    apply andb_prop in V as [V1 V2]. apply N.leb_le in V1, V2. right. lia. }
  clear V. unfold utf8_encode_cp.
  destruct (N.ltb_spec c 128) as [A|A].
  { exists 1%nat. cbn [app utf8_decode_at].
    destruct (N.ltb_spec c 128); [reflexivity|lia]. }
  destruct (N.ltb_spec c 2048) as [B|B].
  { exists 2%nat. cbn [app utf8_decode_at].
    destruct (N.ltb_spec (192 + c / 64) 128); [lia_div|].
    destruct (N.ltb_spec (192 + c / 64) 194); [lia_div|].
    destruct (N.ltb_spec (192 + c / 64) 224); [|lia_div].
    destruct (@low6_tail (c mod 64)) as [L K]; [lia_div|]. rewrite K, L.
    f_equal. change 31 with (N.ones 5). rewrite N.land_ones, N.shiftl_mul_pow2.
    change (2 ^ 5) with 32. change (2 ^ 6) with 64. lia_div. }
  destruct (N.ltb_spec c 65536) as [C|C].
  { exists 3%nat. cbn [app utf8_decode_at].
    destruct (N.ltb_spec (224 + c / 4096) 128); [lia_div|].
    destruct (N.ltb_spec (224 + c / 4096) 194); [lia_div|].
    destruct (N.ltb_spec (224 + c / 4096) 224); [lia_div|].
    destruct (N.ltb_spec (224 + c / 4096) 240); [|lia_div].
    destruct (@low6_tail (c / 64 mod 64)) as [L1 K1]; [lia_div|].
    destruct (@low6_tail (c mod 64)) as [L2 K2]; [lia_div|].
    rewrite K1, K2, L1, L2. cbn [negb orb].
    replace (if 128 + c / 64 mod 64 <? 160 then 224 + c / 4096 =? 224
             else 224 + c / 4096 =? 237) with false.
    - f_equal. change 15 with (N.ones 4). rewrite N.land_ones, !N.shiftl_mul_pow2.
      change (2 ^ 4) with 16. change (2 ^ 6) with 64. change (2 ^ 12) with 4096.
      lia_div.
    - symmetry. destruct (N.ltb_spec (128 + c / 64 mod 64) 160);
        apply N.eqb_neq; lia_div. }
  exists 4%nat. cbn [app utf8_decode_at].
  destruct (N.ltb_spec (240 + c / 262144) 128); [lia_div|].
  destruct (N.ltb_spec (240 + c / 262144) 194); [lia_div|].
  destruct (N.ltb_spec (240 + c / 262144) 224); [lia_div|].
  destruct (N.ltb_spec (240 + c / 262144) 240); [lia_div|].
  destruct (N.ltb_spec (240 + c / 262144) 245); [|lia_div].
  destruct (@low6_tail (c / 4096 mod 64)) as [L1 K1]; [lia_div|].
  destruct (@low6_tail (c / 64 mod 64)) as [L2 K2]; [lia_div|].
  destruct (@low6_tail (c mod 64)) as [L3 K3]; [lia_div|].
  rewrite K1, K2, K3, L1, L2, L3. cbn [negb orb].
  replace (if 128 + c / 4096 mod 64 <? 144 then 240 + c / 262144 =? 240
           else 240 + c / 262144 =? 244) with false.
  - f_equal. change 7 with (N.ones 3). rewrite N.land_ones, !N.shiftl_mul_pow2.
    change (2 ^ 3) with 8. change (2 ^ 6) with 64. change (2 ^ 12) with 4096.
    change (2 ^ 18) with 262144. lia_div.
  - symmetry. destruct (N.ltb_spec (128 + c / 4096 mod 64) 144);
      apply N.eqb_neq; lia_div.
Qed.

(** What encodes a text of scalar values, decodes to that text. *)
Lemma utf8_decode_at_of_encode (s : str) : forall pos,
  forallb is_scalar_value s = true ->
  utf8_decode_at pos (utf8_encode s) = inr s.
Proof.
  induction s as [|c s IH]; intros pos V; [reflexivity|].
  cbn [forallb] in V. apply andb_prop in V as [Vc Vs].
  unfold utf8_encode. cbn [flat_map].
  destruct (@decode_encode_cp c (flat_map utf8_encode_cp s) pos Vc) as [k E].
  rewrite E. fold (utf8_encode s). rewrite IH by assumption. reflexivity.
Qed.

End Utf8.

(* ================================================================== *)
(** * Base64: what is encoded can be decoded *)
(* ================================================================== *)

Section Base64.
Local Open Scope N_scope.

Lemma b64_index_char (i : N) : i < 64 -> b64_index (b64_char i) = Some i.
Proof.
  intros H. unfold b64_char.
  destruct (N.ltb_spec i 26).
  { unfold b64_index. replace ((65 <=? 65 + i) && (65 + i <=? 90)) with true.
    - f_equal. lia.
    - symmetry. apply andb_true_intro. split; apply N.leb_le; lia. }
  destruct (N.ltb_spec i 52).
  { unfold b64_index. replace ((65 <=? 71 + i) && (71 + i <=? 90)) with false.
    - replace ((97 <=? 71 + i) && (71 + i <=? 122)) with true.
      + f_equal. lia.
      + symmetry. apply andb_true_intro. split; apply N.leb_le; lia.
    - symmetry. apply andb_false_intro2. apply N.leb_gt. lia. }
  destruct (N.ltb_spec i 62).
  { unfold b64_index. replace ((65 <=? i - 4) && (i - 4 <=? 90)) with false.
    - replace ((97 <=? i - 4) && (i - 4 <=? 122)) with false.
      + replace ((48 <=? i - 4) && (i - 4 <=? 57)) with true.
        * f_equal. lia.
        * symmetry. apply andb_true_intro. split; apply N.leb_le; lia.
      + symmetry. apply andb_false_intro1. apply N.leb_gt. lia.
    - symmetry. apply andb_false_intro1. apply N.leb_gt. lia. }
  destruct (N.eqb_spec i 62) as [->|]; [reflexivity|].
  assert (i = 63) as -> by lia. reflexivity.
Qed.

Lemma b64_char_not_pad (i : N) : (b64_char i =? 61) = false.
Proof.
  apply N.eqb_neq. unfold b64_char.
  destruct (N.ltb_spec i 26); [lia|].
  destruct (N.ltb_spec i 52); [lia|].
  destruct (N.ltb_spec i 62); [lia|].
  destruct (N.eqb_spec i 62); lia.
Qed.

Lemma b64decode_encode (n : nat) : forall bs,
  (List.length bs <= n)%nat ->
  Forall (fun b => b < 256) bs ->
  b64decode (b64encode bs) = Some bs.
Proof.
  induction n as [|n IH]; intros bs Hn Hb.
  - destruct bs; [reflexivity|simpl in Hn; lia].
  - destruct bs as [|a [|b [|c rest]]]; [reflexivity| | |].
    + inversion Hb as [|? ? Ha _]; subst.
      cbn [b64encode b64decode].
      rewrite !b64_index_char by lia_div. cbn [N.eqb Pos.eqb].
      do 2 f_equal. lia_div.
    + inversion Hb as [|? ? Ha Hb']; subst. inversion Hb' as [|? ? Hb0 _]; subst.
      cbn [b64encode b64decode].
      rewrite !b64_index_char by lia_div. cbn [N.eqb Pos.eqb].
      rewrite b64_char_not_pad.
      f_equal. f_equal; [lia_div|]. f_equal. lia_div.
    + inversion Hb as [|? ? Ha Hb']; subst. inversion Hb' as [|? ? Hb0 Hb'']; subst.
      inversion Hb'' as [|? ? Hc Hr]; subst.
      cbn [b64encode b64decode].
      rewrite !b64_index_char by lia_div. rewrite b64_char_not_pad.
      rewrite IH; [|simpl in Hn; lia|assumption].
      f_equal. f_equal; [lia_div|]. f_equal; [lia_div|]. f_equal. lia_div.
Qed.

Lemma b64encode_length (n : nat) : forall bs,
  (List.length bs <= n)%nat ->
  List.length (b64encode bs) = (4 * ((List.length bs + 2) / 3))%nat.
Proof.
  induction n as [|n IH]; intros bs Hn.
  - destruct bs; [reflexivity|simpl in Hn; lia].
  - destruct bs as [|a [|b [|c rest]]]; [reflexivity|reflexivity|reflexivity|].
    cbn [b64encode List.length]. rewrite IH by (simpl in Hn; lia).
    replace (S (S (S (List.length rest))) + 2)%nat
      with (1 * 3 + (List.length rest + 2))%nat by lia.
    rewrite Nat.div_add_l by lia. lia.
Qed.

Lemma bytes_are_below_256 (bs : bytes) :
  Forall (fun b => b < 256) (map Byte.to_N bs).
Proof.
  rewrite Forall_map, Forall_forall. intros b _.
  pose proof (Byte.to_N_bounded b). lia.
Qed.

End Base64.

(* ================================================================== *)
(** * Uploads *)
(* ================================================================== *)

(** An upload with the name of a code file.  Either the bytes decode: the
    reply has status 200 and carries a text whose UTF-8 encoding is the
    bytes uploaded, and as its size the number of characters of that text,
    at most the number of bytes; the name is the one given, not lowered.
    Or the reply has status 500, and then no text has these bytes as its
    UTF-8 encoding. *)
Theorem uploaded_code_round_trips (ue : upload_env) (f : file_storage) :
  filename f <> [] ->
  is_image_name (filename f) = false ->
  is_code_name (filename f) = true ->
  (exists content,
     upload_file ue (Some f)
     = (200%N,
        JDict [ (lit "id", JStr (upload_uuid ue));
                (lit "name", JStr (filename f));
                (lit "size", JInt (Z.of_nat (List.length content)));
                (lit "content", JStr content);
                (lit "type", JStr (lit "code")) ])
     /\ utf8_encode content = map Byte.to_N (file_bytes f)
     /\ forallb is_scalar_value content = true
     /\ List.length content <= List.length (file_bytes f))
  \/ (fst (upload_file ue (Some f)) = 500%N
      /\ forall s, forallb is_scalar_value s = true ->
                   utf8_encode s <> map Byte.to_N (file_bytes f)).
Proof.
  intros Hn Hi Hc. unfold upload_file.
  destruct (str_eqb (filename f) []) eqn:E;
    [apply str_eqb_eq in E; contradiction|].
  rewrite Hi, Hc. unfold utf8_decode.
  destruct (utf8_decode_at 0 (map Byte.to_N (file_bytes f))) as [d|content] eqn:D.
  - right. split; [reflexivity|]. intros s Hs Eq.
    rewrite <- Eq, utf8_decode_at_of_encode in D by exact Hs. discriminate.
  - left. exists content. split; [reflexivity|].
    destruct (@utf8_decode_at_encode _ _ 0 content (le_n _) D) as (H1 & H2 & H3).
    rewrite length_map in H3. auto.
Qed.

Lemma uploaded_code_witness :
  filename sample_script <> []
  /\ is_image_name (filename sample_script) = false
  /\ is_code_name (filename sample_script) = true
  /\ fst (upload_file sample_upload_env (Some sample_script)) = 200%N.
Proof.
  assert (Hn : filename sample_script <> []) by discriminate.
  split; [exact Hn|]. split; [reflexivity|]. split; [reflexivity|].
  destruct (@uploaded_code_round_trips sample_upload_env sample_script
              Hn eq_refl eq_refl) as [(content & E & _)|[E _]].
  - rewrite E. reflexivity.
  - vm_compute in E. discriminate E.
Defined.

(** An upload with the name of a picture.  When the picture opens, the
    reply has status 200; its data URI is made of the media type the client
    sent and of a Base64 text that decodes to the bytes uploaded, four
    characters for every three bytes or part of three; its size is the
    number of bytes.  When it does not open, the reply has status 500 with
    the text of the exception. *)
Theorem uploaded_image_round_trips (ue : upload_env) (f : file_storage) :
  filename f <> [] ->
  is_image_name (filename f) = true ->
  match image_size ue (file_bytes f) with
  | inr (width, height) =>
    exists encoded,
      upload_file ue (Some f)
      = (200%N,
         JDict [ (lit "id", JStr (upload_uuid ue));
                 (lit "name", JStr (filename f));
                 (lit "size", JInt (Z.of_nat (List.length (file_bytes f))));
                 (lit "width", JInt (Z.of_N width));
                 (lit "height", JInt (Z.of_N height));
                 (lit "fileType", JStr (mimetype f));
                 (lit "base64",
                  JStr (lit "data:" ++ mimetype f ++ lit ";base64," ++ encoded));
                 (lit "type", JStr (lit "image")) ])
      /\ b64decode encoded = Some (map Byte.to_N (file_bytes f))
      /\ List.length encoded = 4 * ((List.length (file_bytes f) + 2) / 3)
  | inl text =>
    upload_file ue (Some f)
    = (500%N, json_error (lit "Failed to process file: " ++ text))
  end.
Proof.
  intros Hn Hi. unfold upload_file.
  destruct (str_eqb (filename f) []) eqn:E;
    [apply str_eqb_eq in E; contradiction|].
  rewrite Hi.
  destruct (image_size ue (file_bytes f)) as [text|[width height]]; [reflexivity|].
  exists (b64encode (map Byte.to_N (file_bytes f))). split; [reflexivity|]. split.
  - apply (@b64decode_encode _ _ (le_n _)). apply bytes_are_below_256.
  - rewrite (@b64encode_length _ _ (le_n _)). now rewrite length_map.
Qed.

Lemma uploaded_image_witness :
  filename sample_picture <> []
  /\ is_image_name (filename sample_picture) = true
  /\ exists encoded,
       json_get "base64" (snd (upload_file sample_upload_env (Some sample_picture)))
       = JStr (lit "data:image/png;base64," ++ encoded)
       /\ b64decode encoded = Some [1; 2; 3]%N.
Proof.
  assert (Hn : filename sample_picture <> []) by discriminate.
  split; [exact Hn|]. split; [reflexivity|].
  pose proof (@uploaded_image_round_trips sample_upload_env sample_picture
                Hn eq_refl) as H.
  cbn [image_size sample_upload_env] in H.
  destruct H as (encoded & E & D & _). exists encoded.
  rewrite E. split; [reflexivity | exact D].
Defined.

Lemma ascii_lower_twice (c : N) : ascii_lower (ascii_lower c) = ascii_lower c.
Proof.
  unfold ascii_lower.
  destruct ((65 <=? c) && (c <=? 90))%N eqn:E; [|now rewrite E].
  apply andb_prop in E as [E1 E2]. apply N.leb_le in E1, E2.
  replace ((65 <=? c + 32) && (c + 32 <=? 90))%N with false; [reflexivity|].
  symmetry. apply andb_false_intro2. apply N.leb_gt. lia.
Qed.

Lemma lower_endswith_lowered (suffix : string) (name : str) :
  lower_endswith suffix (map ascii_lower name) = lower_endswith suffix name.
Proof.
  unfold lower_endswith. rewrite map_map. f_equal. apply map_ext.
  apply ascii_lower_twice.
Qed.

(** The kind of an upload is decided by its name alone, whatever the case
    of the letters.  The name in lower case gets the same status; a name
    with none of the six extensions is refused with status 400 whatever the
    file holds; and a file whose name is not that of a picture is never
    opened as one. *)
Theorem upload_kind_follows_the_name (ue : upload_env) (f : file_storage) :
  filename f <> [] ->
  fst (upload_file ue (Some (renamed (map ascii_lower (filename f)) f)))
  = fst (upload_file ue (Some f))
  /\ (is_image_name (filename f) = false ->
      is_code_name (filename f) = false ->
      forall ue' media content,
        upload_file ue' (Some (mkFile (filename f) media content))
        = (400%N, json_error (lit "Unsupported file type. Use images (.png, .jpg, .jpeg) or code files (.py, .js, .txt)")))
  /\ (is_image_name (filename f) = false ->
      forall open,
        upload_file (mkUploadEnv (upload_uuid ue) open) (Some f)
        = upload_file ue (Some f)).
Proof.
  intros Hn. split; [|split].
  - unfold upload_file, renamed. cbn [filename mimetype file_bytes].
    assert (Hm : str_eqb (map ascii_lower (filename f)) [] = false).
    { destruct (filename f); [contradiction|reflexivity]. }
    assert (He : str_eqb (filename f) [] = false).
    { destruct (filename f); [contradiction|reflexivity]. }
    rewrite Hm, He. unfold is_image_name, is_code_name.
    rewrite !lower_endswith_lowered.
    destruct (_ || _ || _); [now destruct (image_size ue (file_bytes f)) as [|[]]|].
    destruct (_ || _ || _); [now destruct (utf8_decode (file_bytes f))|reflexivity].
  - intros Hi Hc ue' media content. unfold upload_file. cbn [filename].
    destruct (str_eqb (filename f) []) eqn:E;
      [apply str_eqb_eq in E; contradiction|].
    now rewrite Hi, Hc.
  - intros Hi open. unfold upload_file.
    destruct (str_eqb (filename f) []); [reflexivity|]. now rewrite Hi.
Qed.

Lemma upload_kind_witness :
  filename sample_script <> []
  /\ fst (upload_file sample_upload_env
            (Some (renamed (lit "a.py") sample_script)))
     = fst (upload_file sample_upload_env (Some sample_script)).
Proof.
  assert (Hn : filename sample_script <> []) by discriminate.
  split; [exact Hn|].
  exact (proj1 (@upload_kind_follows_the_name sample_upload_env sample_script Hn)).
Defined.

(* ================================================================== *)
(** * The code sent to [/execute_code] is never looked at *)
(* ================================================================== *)

Lemma dict_get_set_same (k : str) (v default : json) (d : list (str * json)) :
  dict_get k default (dict_set k v d) = v.
Proof.
  induction d as [|[k' v'] d IH]; simpl; [now rewrite str_eqb_refl|].
  destruct (str_eqb k' k) eqn:E; simpl; rewrite E; [reflexivity | exact IH].
Qed.

Lemma dict_get_set_other (k k' : str) (v default : json) (d : list (str * json)) :
  k' <> k -> dict_get k' default (dict_set k v d) = dict_get k' default d.
Proof.
  intros Hne. induction d as [|[k0 v0] d IH]; simpl.
  - assert (E : str_eqb k k' = false) by (apply str_eqb_neq; congruence).
    now rewrite E.
  - destruct (str_eqb k0 k) eqn:E; simpl.
    + apply str_eqb_eq in E. subst k0.
      assert (E : str_eqb k k' = false) by (apply str_eqb_neq; congruence).
      now rewrite E.
    + destruct (str_eqb k0 k'); [reflexivity | exact IH].
Qed.

(** The route never looks at the code beyond its being there.  For a body
    that is an object, the status is 200 exactly when the code is true in
    Python's sense and the language, "python" when missing, is "python";
    putting any other code that is as true in its place gives the same
    reply.  A body that is a JSON value other than an object is answered
    with status 500. *)
Theorem execute_code_ignores_the_code (data : list (str * json)) :
  (fst (execute_code (inr (JDict data))) = 200%N
   <-> truthy (dict_get (lit "code") JNull data) = true
       /\ dict_get (lit "language") (JStr (lit "python")) data
          = JStr (lit "python"))
  /\ (forall code',
        truthy code' = truthy (dict_get (lit "code") JNull data) ->
        execute_code (inr (JDict (dict_set (lit "code") code' data)))
        = execute_code (inr (JDict data)))
  /\ (forall v, (forall d, v <> JDict d) ->
        execute_code (inr v)
        = (500%N, json_error (lit "Execution error: '" ++ type_name v
                              ++ lit "' object has no attribute 'get'"))).
Proof.
  split; [|split].
  - unfold execute_code.
    destruct (truthy (dict_get (lit "code") JNull data)); cbn [negb];
      [|split; [discriminate | intros [H _]; discriminate]].
    destruct (dict_get (lit "language") (JStr (lit "python")) data) as
      [ | | | | | |s| | ] eqn:L; cbn [equals_str negb];
      try (split; [discriminate | intros [_ H]; discriminate]).
    destruct (str_eqb s (lit "python")) eqn:E; cbn [negb].
    + apply str_eqb_eq in E. subst s. split; auto.
    + split; [discriminate|]. intros [_ H]. injection H as ->.
      rewrite str_eqb_refl in E. discriminate.
  - intros code' Ht. unfold execute_code.
    rewrite dict_get_set_same, Ht.
    rewrite dict_get_set_other by discriminate. reflexivity.
  - intros v Hv. destruct v; try reflexivity. exfalso. now apply (Hv members).
Qed.

(* ================================================================== *)
(** * One pass over the text *)
(* ================================================================== *)

Lemma char_matches_bracket (c : N) : char_matches_ci 60 c = true -> c = 60%N.
Proof.
  unfold char_matches_ci. cbn. rewrite !orb_false_r. apply N.eqb_eq.
Qed.

Lemma match_think_other_head (c : N) (s : str) :
  c <> 60%N -> match_think (c :: s) = None.
Proof.
  intros H. unfold match_think.
  change open_tag with (60%N :: lit "think>"). cbn [match_literal_ci].
  destruct (char_matches_ci 60 c) eqn:E; [|reflexivity].
  apply char_matches_bracket in E. contradiction.
Qed.

Lemma match_literal_ci_close_other_head (c : N) (s : str) :
  c <> 60%N -> match_literal_ci close_tag (c :: s) = None.
Proof.
  intros H. change close_tag with (60%N :: lit "/think>"). cbn [match_literal_ci].
  destruct (char_matches_ci 60 c) eqn:E; [|reflexivity].
  apply char_matches_bracket in E. contradiction.
Qed.

Lemma match_lazy_close_first (a rest : str) :
  ~ In 60%N a -> match_lazy_close (a ++ close_tag ++ rest) = Some rest.
Proof.
  induction a as [|c a IH]; intros H.
  - reflexivity.
  - cbn [app match_lazy_close].
    rewrite match_literal_ci_close_other_head by (intros ->; apply H; now left).
    apply IH. intros Hin. apply H. now right.
Qed.

Lemma re_sub_think_keeps_tail (b : str) :
  ~ In 60%N b -> re_sub_think (b ++ close_tag) = b ++ close_tag.
Proof.
  induction b as [|c b IH]; intros H; [vm_compute; reflexivity|].
  cbn [app]. rewrite re_sub_think_keep
    by (apply match_think_other_head; intros ->; apply H; now left).
  rewrite IH; [reflexivity|]. intros Hin. apply H. now right.
Qed.

(** The removal is one pass from the left, and what it leaves is not read
    again: when a block stands inside the letters of an opening tag, taking
    it out joins them, and the result is itself a thinking block that stays
    in the message.  Here [a] and [b] are any texts without [<]. *)
Theorem removal_can_leave_a_thinking_block (a b : str) :
  ~ In 60%N a ->
  ~ In 60%N b ->
  re_sub_think (lit "<thi" ++ open_tag ++ a ++ close_tag
                ++ lit "nk>" ++ b ++ close_tag)
  = open_tag ++ b ++ close_tag
  /\ spec_thinking_block (open_tag ++ b ++ close_tag)
  /\ re_sub_think (open_tag ++ b ++ close_tag) = [].
Proof.
  intros Ha Hb.
  assert (M : forall x rest, ~ In 60%N x ->
                match_think (open_tag ++ x ++ close_tag ++ rest) = Some rest).
  { intros x rest Hx. unfold match_think.
    change (match_literal_ci open_tag (open_tag ++ x ++ close_tag ++ rest))
      with (Some (x ++ close_tag ++ rest)).
    now apply match_lazy_close_first. }
  split; [|split].
  - change (lit "<thi" ++ open_tag ++ a ++ close_tag ++ lit "nk>" ++ b ++ close_tag)
      with (60 :: 116 :: 104 :: 105
            :: open_tag ++ a ++ close_tag ++ lit "nk>" ++ b ++ close_tag)%N.
    rewrite re_sub_think_keep by reflexivity.
    rewrite !re_sub_think_keep by (apply match_think_other_head; discriminate).
    rewrite (@re_sub_think_match _ _ (M a (lit "nk>" ++ b ++ close_tag) Ha)).
    change (lit "nk>" ++ b ++ close_tag)
      with (110 :: 107 :: 62 :: b ++ close_tag)%N.
    rewrite !re_sub_think_keep by (apply match_think_other_head; discriminate).
    rewrite re_sub_think_keeps_tail by exact Hb. reflexivity.
  - pose proof (M b [] Hb) as E. rewrite app_nil_r in E.
    apply match_think_Some in E as (blk & E & Hblk).
    rewrite app_nil_r in E. now rewrite E.
  - pose proof (M b [] Hb) as E. rewrite app_nil_r in E.
    now rewrite (@re_sub_think_match _ _ E).
Qed.

Lemma removal_witness :
  ~ In 60%N (lit "a") /\ ~ In 60%N (lit "b")
  /\ re_sub_think (lit "<thi<think>a</think>nk>b</think>") = lit "<think>b</think>".
Proof.
  assert (Ha : ~ In 60%N (lit "a")) by (intros [H|[]]; discriminate H).
  assert (Hb : ~ In 60%N (lit "b")) by (intros [H|[]]; discriminate H).
  split; [exact Ha|]. split; [exact Hb|].
  exact (proj1 (@removal_can_leave_a_thinking_block (lit "a") (lit "b") Ha Hb)).
Defined.
